(** * pdf_parser/parser.py: heuristic resume-field extraction

    A shallow embedding of [src/pdf_parser/parser.py] and the properties of
    its extractors.

    - A Python [str] is a list of Unicode code points ([char := N]).
    - The calls into Python's [re] module are modelled by a backtracking
      matcher over a regular-expression syntax that covers every pattern of
      the module: the matcher returns the candidate matches at a position in
      the order in which CPython's engine tries them, so that its head is the
      match [re] reports (CPython 3.7 and later; empty matches are treated
      as [re.sub] and [re.split] treat them since 3.7).
    - The Unicode tables behind [\w], [\d] and [re.IGNORECASE] belong to the
      CPython runtime, not to this module: they are a parameter
      ([UnicodeTables]).  Properties over all texts are proved for every
      table in which the ASCII characters other than letters have no case;
      closed examples are evaluated with [BasicTables].
    - Opening a PDF is outside the module's logic: a document is given by
      the texts of its pages. *)

From Stdlib Require Import List NArith Bool Ascii String Lia Arith.
Import ListNotations.

Local Open Scope N_scope.
Local Open Scope bool_scope.

(** ** Strings *)

Definition char := N.
Definition str := list char.

Definition chr (a : ascii) : char := N_of_ascii a.

Definition hexval (a : ascii) : N :=
  let n := N_of_ascii a in
  if (48 <=? n) && (n <=? 57) then (n - 48)
  else if (97 <=? n) && (n <=? 102) then (n - 87)
  else if (65 <=? n) && (n <=? 70) then (n - 55)
  else 0.

(** [py s] reads an ASCII Python string literal: the escapes [\n], [\r],
    [\t], [\\] and [\uXXXX] stand for the characters they denote in Python
    source, every other character for itself. *)
Fixpoint py (s : string) : str :=
  match s with
  | EmptyString => []
  | String a tl =>
      if Ascii.eqb a "\"%char then
        match tl with
        | String e tl1 =>
            if Ascii.eqb e "n"%char then 10 :: py tl1
            else if Ascii.eqb e "r"%char then 13 :: py tl1
            else if Ascii.eqb e "t"%char then 9 :: py tl1
            else if Ascii.eqb e "\"%char then 92 :: py tl1
            else if Ascii.eqb e "u"%char then
              match tl1 with
              | String h1 (String h2 (String h3 (String h4 tl2))) =>
                  (hexval h1 * 4096 + hexval h2 * 256 + hexval h3 * 16 + hexval h4)
                    :: py tl2
              | _ => chr a :: py tl
              end
            else chr a :: py tl
        | EmptyString => [chr a]
        end
      else chr a :: py tl
  end.

(** Truthiness of a [str] or of a list. *)
Definition nonempty {A : Type} (s : list A) : bool :=
  match s with [] => false | _ :: _ => true end.

(** [Py_UNICODE_ISSPACE]: the characters [str.strip()] removes and [\s]
    matches. *)
Definition is_space (c : char) : bool :=
  ((9 <=? c) && (c <=? 13) || (28 <=? c) && (c <=? 32)
   || (c =? 133) || (c =? 160) || (c =? 5760)
   || (8192 <=? c) && (c <=? 8202)
   || (c =? 8232) || (c =? 8233) || (c =? 8239) || (c =? 8287)
   || (c =? 12288)).

Fixpoint lstrip_by (p : char -> bool) (s : str) : str :=
  match s with
  | c :: tl => if p c then lstrip_by p tl else s
  | [] => []
  end.

Definition rstrip_by (p : char -> bool) (s : str) : str :=
  rev (lstrip_by p (rev s)).

Definition strip_by (p : char -> bool) (s : str) : str :=
  rstrip_by p (lstrip_by p s).

(** [s.strip()] *)
Definition strip (s : str) : str := strip_by is_space s.

(** [s.strip(chars)] *)
Definition strip_chars (chars : str) (s : str) : str :=
  strip_by (fun c => existsb (N.eqb c) chars) s.

(** [sep.join(parts)] *)
Fixpoint join (sep : str) (parts : list str) : str :=
  match parts with
  | [] => []
  | [p] => p
  | p :: rest => p ++ sep ++ join sep rest
  end.

(** [s.split(sep)] for a one-character separator: empty pieces are kept. *)
Fixpoint split_chr (sep : char) (s : str) : list str :=
  match s with
  | [] => [[]]
  | c :: tl =>
      match split_chr sep tl with
      | piece :: rest =>
          if (c =? sep) then [] :: piece :: rest else (c :: piece) :: rest
      | [] => [[c]]
      end
  end.

Fixpoint starts_with (old s : str) : bool :=
  match old, s with
  | [], _ => true
  | o :: old', c :: s' => (o =? c) && starts_with old' s'
  | _ :: _, [] => false
  end.

(** [s.replace(old, new)]: the occurrences of [old] are replaced from left
    to right without overlap; [skip] counts the characters of an occurrence
    still to be passed over. *)
Fixpoint replace_go (old new : str) (s : str) (skip : nat) : str :=
  match s with
  | [] => []
  | c :: tl =>
      match skip with
      | S k => replace_go old new tl k
      | O =>
          if starts_with old s
          then new ++ replace_go old new tl (List.length old - 1)
          else c :: replace_go old new tl 0
      end
  end.

Definition replace (old new : str) (s : str) : str :=
  match old with
  | [] => new ++ flat_map (fun c => c :: new) s
  | _ :: _ => replace_go old new s 0
  end.

(** ** Unicode tables of the runtime *)

Definition in_range (lo hi c : char) : bool := ((lo <=? c) && (c <=? hi)).

(** The one fact about the tables that the proofs use: an ASCII character
    that is not a letter has no case. *)
Class UnicodeTables := {
  uni_tolower : char -> char;      (* Py_UNICODE_TOLOWER *)
  uni_toupper : char -> char;      (* Py_UNICODE_TOUPPER *)
  uni_isalnum : char -> bool;      (* Py_UNICODE_ISALNUM *)
  uni_isdecimal : char -> bool;    (* Py_UNICODE_ISDECIMAL *)
  sre_fixes : char -> list char;   (* sre_compile._ignorecase_fixes *)
  ascii_uncased :
    forall c, c < 128 -> in_range 65 90 c = false -> in_range 97 122 c = false ->
              uni_tolower c = c /\ uni_toupper c = c
}.

(** The tables on ASCII, with the non-ASCII characters whose case folding
    reaches an ASCII letter (U+0130 and U+212A lower to [i] and [k]; U+0131
    and U+017F are the extra equivalents of [i] and [s]).  Exact for every
    ASCII character and for the punctuation U+00B7, U+2013, U+2014, U+2022
    and U+2212; other letters and digits outside ASCII are not listed. *)
Definition basic_tolower (c : char) : char :=
  if in_range 65 90 c then (c + 32)
  else if (c =? 304) then 105
  else if (c =? 8490) then 107
  else c.

Definition basic_toupper (c : char) : char :=
  if in_range 97 122 c then (c - 32)
  else if (c =? 305) then 73
  else if (c =? 383) then 83
  else c.

Definition basic_isalnum (c : char) : bool :=
  in_range 48 57 c || in_range 65 90 c || in_range 97 122 c.

Definition basic_isdecimal (c : char) : bool := in_range 48 57 c.

Definition basic_fixes (c : char) : list char :=
  if (c =? 105) then [305]
  else if (c =? 115) then [383]
  else [].

#[export] Instance BasicTables : UnicodeTables.
Proof.
  refine {| uni_tolower := basic_tolower;
            uni_toupper := basic_toupper;
            uni_isalnum := basic_isalnum;
            uni_isdecimal := basic_isdecimal;
            sre_fixes := basic_fixes |}.
  intros c Hc Hup Hlo.
  unfold basic_tolower, basic_toupper. rewrite Hup, Hlo.
  assert (E3 : (c =? 304) = false) by (apply N.eqb_neq; lia).
  assert (E4 : (c =? 8490) = false) by (apply N.eqb_neq; lia).
  assert (E5 : (c =? 305) = false) by (apply N.eqb_neq; lia).
  assert (E6 : (c =? 383) = false) by (apply N.eqb_neq; lia).
  rewrite E3, E4, E5, E6. split; reflexivity.
Defined.

(** ** Regular expressions

    The syntax covers the patterns of the module.  Every quantifier there
    applies to a single-character item, which [RRep] records with its bounds
    and its greediness. *)

Inductive citem :=
| ILit (c : char)              (* a character *)
| IRange (lo hi : char)        (* lo-hi *)
| ISpace                       (* \s *)
| INotSpace                    (* \S *)
| IWord                        (* \w *)
| IDigit.                      (* \d *)

Inductive atom :=
| ALit (c : char)                        (* a literal character *)
| ADot                                   (* . *)
| ASet (neg : bool) (items : list citem). (* [...] and [^...] *)

Inductive regex :=
| REps
| RChr (a : atom)
| RRep (a : atom) (lo : nat) (hi : option nat) (greedy : bool)
| RSeq (r1 r2 : regex)
| RAlt (r1 r2 : regex)
| RGroup (n : nat) (r : regex)           (* ( ... ), group number n *)
| RBol                                   (* ^ *)
| REol                                   (* $ *)
| RWordB                                 (* \b *)
| RAhead (r : regex).                    (* (?= ... ) *)

Declare Scope regex_scope.
Delimit Scope regex_scope with regex.
Bind Scope regex_scope with regex.
Infix ";;" := RSeq (at level 61, right associativity) : regex_scope.
Infix "<|>" := RAlt (at level 62, right associativity) : regex_scope.

Definition set_of (items : list citem) : regex := RChr (ASet false items).
Definition star (a : atom) : regex := RRep a 0 None true.        (* a* *)
Definition plus (a : atom) : regex := RRep a 1 None true.        (* a+ *)
Definition opt (a : atom) : regex := RRep a 0 (Some 1%nat) true. (* a? *)
Definition times (n : nat) (a : atom) : regex := RRep a n (Some n) true. (* a{n} *)

Definition a_space : atom := ASet false [ISpace].
Definition a_word : atom := ASet false [IWord].
Definition a_digit : atom := ASet false [IDigit].
Definition a_any : atom := ASet false [ISpace; INotSpace].       (* [\s\S] *)
Definition a_upper : atom := ASet false [IRange 65 90].          (* [A-Z] *)
Definition a_lower : atom := ASet false [IRange 97 122].         (* [a-z] *)
Definition a_alpha : atom := ASet false [IRange 65 90; IRange 97 122].

(** A word taken literally, character by character. *)
Fixpoint lit_str (w : str) : regex :=
  match w with
  | [] => REps
  | c :: tl => RSeq (RChr (ALit c)) (lit_str tl)
  end.

Definition lit (w : string) : regex := lit_str (py w).

(** A position of the matcher in the subject: [m_prev] is the character
    before the position, [m_rest] the text from it on, [m_caps] the groups
    captured so far (latest first). *)
Record mstate := MState {
  m_pos : nat;
  m_prev : option char;
  m_rest : str;
  m_caps : list (nat * str)
}.

(** A match object: [match.start()], [match.end()], [match.group(0)] and the
    numbered groups. *)
Record pymatch := PyMatch {
  mt_start : nat;
  mt_end : nat;
  mt_group0 : str;
  mt_caps : list (nat * str)
}.

Fixpoint assoc_nat (n : nat) (l : list (nat * str)) : option str :=
  match l with
  | [] => None
  | (k, v) :: tl => if Nat.eqb k n then Some v else assoc_nat n tl
  end.

(** [match.group(n)] for [n >= 1]: [None] when the group took no part. *)
Definition group (m : pymatch) (n : nat) : option str := assoc_nat n (mt_caps m).

(** The text of a subject cut at matches: what [re.sub], [re.split] and
    [re.finditer] walk through. *)
Inductive tok :=
| TChar (c : char)
| TMatch (m : pymatch).

Section Matcher.
Context {U : UnicodeTables}.

Definition is_word (c : char) : bool := uni_isalnum c || (c =? 95).

Definition is_word_opt (o : option char) : bool :=
  match o with Some c => is_word c | None => false end.

(** [_sre.unicode_iscased] *)
Definition iscased (c : char) : bool :=
  negb (c =? uni_tolower c) || negb (c =? uni_toupper c).

Definition mem (x : char) (l : list char) : bool := existsb (N.eqb x) l.

(** What the compiler of [re] puts in a set for the character [c] under
    IGNORECASE: its lower case and the extra equivalents of that. *)
Definition folded (c : char) : list char :=
  let lo := uni_tolower c in lo :: sre_fixes lo.

Definition chars_between (lo hi : char) : list char :=
  map (fun k => lo + N.of_nat k) (seq 0 (N.to_nat (hi + 1 - lo))).

Definition item_match (i : citem) (x : char) : bool :=
  match i with
  | ILit c => x =? c
  | IRange lo hi => in_range lo hi x
  | ISpace => is_space x
  | INotSpace => negb (is_space x)
  | IWord => is_word x
  | IDigit => uni_isdecimal x
  end.

Definition item_match_ci (i : citem) (x : char) : bool :=
  match i with
  | ILit c => mem x (folded c)
  | IRange lo hi => existsb (fun c => mem x (folded c)) (chars_between lo hi)
  | _ => item_match i x
  end.

Definition item_cased (i : citem) : bool :=
  match i with
  | ILit c => iscased c
  | IRange lo hi => existsb iscased (chars_between lo hi)
  | _ => false
  end.

(** One character against one item of a pattern; [ic] is re.IGNORECASE.
    Under IGNORECASE a cased literal, or a set with a cased member, is
    compared with the lower case of the subject character; an uncased one is
    compared as it is. *)
Definition atom_match (ic : bool) (a : atom) (ch : char) : bool :=
  match a with
  | ALit c =>
      if ic && iscased c then mem (uni_tolower ch) (folded c) else ch =? c
  | ADot => negb (ch =? 10)
  | ASet neg items =>
      if ic && existsb item_cased items
      then xorb neg (existsb (fun i => item_match_ci i (uni_tolower ch)) items)
      else xorb neg (existsb (fun i => item_match i ch) items)
  end.

Definition may_take (hi : option nat) : bool :=
  match hi with Some O => false | _ => true end.

(** The positions a quantified item can stop at, in the order the engine
    tries them: longest first when greedy, shortest first when lazy. *)
Fixpoint rep_from (ic : bool) (a : atom) (greedy : bool) (need : nat)
    (hi : option nat) (pos : nat) (prev : option char) (rest : str)
    (caps : list (nat * str)) : list mstate :=
  let here := match need with O => [MState pos prev rest caps] | S _ => [] end in
  let more :=
    match rest with
    | c :: tl =>
        if may_take hi && atom_match ic a c
        then rep_from ic a greedy (pred need) (option_map pred hi)
               (S pos) (Some c) tl caps
        else []
    | [] => []
    end in
  if greedy then more ++ here else here ++ more.

(** [rmatch ic r st]: the ways [r] matches from [st], in the engine's order
    of preference. *)
Fixpoint rmatch (ic : bool) (r : regex) (st : mstate) : list mstate :=
  match r with
  | REps => [st]
  | RChr a =>
      match m_rest st with
      | c :: tl =>
          if atom_match ic a c
          then [MState (S (m_pos st)) (Some c) tl (m_caps st)] else []
      | [] => []
      end
  | RRep a lo hi greedy =>
      rep_from ic a greedy lo hi (m_pos st) (m_prev st) (m_rest st) (m_caps st)
  | RSeq r1 r2 => flat_map (rmatch ic r2) (rmatch ic r1 st)
  | RAlt r1 r2 => rmatch ic r1 st ++ rmatch ic r2 st
  | RGroup n r1 =>
      map (fun st' =>
             MState (m_pos st') (m_prev st') (m_rest st')
               ((n, firstn (m_pos st' - m_pos st) (m_rest st)) :: m_caps st'))
          (rmatch ic r1 st)
  | RBol => if Nat.eqb (m_pos st) 0 then [st] else []
  | REol =>
      match m_rest st with
      | [] => [st]
      | [c] => if c =? 10 then [st] else []
      | _ => []
      end
  | RWordB =>
      if xorb (is_word_opt (m_prev st)) (is_word_opt (hd_error (m_rest st)))
      then [st] else []
  | RAhead r1 =>
      match rmatch ic r1 st with
      | [] => []
      | st' :: _ => [MState (m_pos st) (m_prev st) (m_rest st) (m_caps st')]
      end
  end.

Definition match_at (pos : nat) (rest : str) (st' : mstate) : pymatch :=
  PyMatch pos (m_pos st') (firstn (m_pos st' - pos) rest) (m_caps st').

(** [re.match(r, s)] *)
Definition re_match (ic : bool) (r : regex) (s : str) : option pymatch :=
  match rmatch ic r (MState 0 None s []) with
  | st' :: _ => Some (match_at 0 s st')
  | [] => None
  end.

Fixpoint search_go (ic : bool) (r : regex) (pos : nat) (prev : option char)
    (rest : str) : option pymatch :=
  match rmatch ic r (MState pos prev rest []) with
  | st' :: _ => Some (match_at pos rest st')
  | [] =>
      match rest with
      | c :: tl => search_go ic r (S pos) (Some c) tl
      | [] => None
      end
  end.

(** [re.search(r, s)] *)
Definition re_search (ic : bool) (r : regex) (s : str) : option pymatch :=
  search_go ic r 0 None s.

Definition advances (pos : nat) (st' : mstate) : bool :=
  negb (Nat.eqb (m_pos st') pos).

(** The successive matches of [r] in a subject, as [re.sub] and [re.split]
    find them: the search resumes where the last match ended; after an empty
    match the engine must advance, so at that position only a non-empty
    match is accepted next.  [skip] counts the characters of the current
    match still to be passed over. *)
Fixpoint tokens (ic : bool) (r : regex) (pos : nat) (prev : option char)
    (rest : str) (skip : nat) : list tok :=
  match skip with
  | S k =>
      match rest with
      | c :: tl => tokens ic r (S pos) (Some c) tl k
      | [] => []
      end
  | O =>
      let step (emit : char -> list tok) (n : nat) :=
        match rest with
        | c :: tl => emit c ++ tokens ic r (S pos) (Some c) tl n
        | [] => []
        end in
      let keep := fun c => [TChar c] in
      let drop := fun _ : char => @nil tok in
      let res := rmatch ic r (MState pos prev rest []) in
      match res with
      | [] => step keep O
      | st1 :: _ =>
          if advances pos st1
          then TMatch (match_at pos rest st1) :: step drop (m_pos st1 - pos - 1)%nat
          else
            TMatch (match_at pos rest st1) ::
            match filter (advances pos) res with
            | st2 :: _ =>
                TMatch (match_at pos rest st2) :: step drop (m_pos st2 - pos - 1)%nat
            | [] => step keep O
            end
      end
  end.

Definition render (repl : str) (t : tok) : str :=
  match t with TChar c => [c] | TMatch _ => repl end.

(** [re.sub(r, repl, s)] for a replacement without group references. *)
Definition re_sub (ic : bool) (r : regex) (repl : str) (s : str) : str :=
  flat_map (render repl) (tokens ic r 0 None s 0).

Fixpoint pieces (toks : list tok) : list str :=
  match toks with
  | [] => [[]]
  | TChar c :: tl =>
      match pieces tl with
      | p :: ps => (c :: p) :: ps
      | [] => [[c]]
      end
  | TMatch _ :: tl => [] :: pieces tl
  end.

(** [re.split(r, s)] for a pattern without capturing groups. *)
Definition re_split (ic : bool) (r : regex) (s : str) : list str :=
  pieces (tokens ic r 0 None s 0).

End Matcher.

(** ** The patterns of the module *)

Definition a_chr (a : ascii) : atom := ALit (chr a).
Definition i_chr (a : ascii) : citem := ILit (chr a).

(* r'-{2,}' *)
Definition re_multi_dash : regex := RRep (a_chr "-") 2 None true.
(* r'\s*-\s*' *)
Definition re_dash_spacing : regex := star a_space ;; RChr (a_chr "-") ;; star a_space.
(* r'\r\n|\r|\n+' *)
Definition re_newlines : regex :=
  (RChr (ALit 13) ;; RChr (ALit 10)) <|> RChr (ALit 13) <|> plus (ALit 10).
(* r'[,_&]' *)
Definition re_punct : regex := set_of [i_chr ","; i_chr "_"; i_chr "&"].
(* r'\s*c7\s*', r'\s*c2\s*', r'\s*b7\s*' *)
Definition re_artifact (w : string) : regex := star a_space ;; lit w ;; star a_space.
(* r'[^\x00-\x7F]+' *)
Definition re_non_ascii : regex := plus (ASet true [IRange 0 127]).
(* r'\n[\-\.\u00b7]+\s*' *)
Definition re_rule_line : regex :=
  RChr (ALit 10) ;; plus (ASet false [i_chr "-"; i_chr "."; ILit 183]) ;; star a_space.
(* r'\s+\n' *)
Definition re_trailing_ws : regex := plus a_space ;; RChr (ALit 10).
(* r'(?i)^name\s*[:\-]' *)
Definition re_name_label : regex :=
  RBol ;; lit "name" ;; star a_space ;; set_of [i_chr ":"; i_chr "-"].
(* r'(?i)^name\s*[:\-]\s*' *)
Definition re_name_label_ws : regex :=
  RBol ;; lit "name" ;; star a_space ;; set_of [i_chr ":"; i_chr "-"] ;; star a_space.
(* r'@|http|www|\d' *)
Definition re_not_a_name : regex := lit "@" <|> lit "http" <|> lit "www" <|> RChr a_digit.
(* r'^([A-Z][a-z]+\s+[A-Z][a-z]+)$' *)
Definition re_two_words : regex :=
  RBol ;;
  RGroup 1 (RChr a_upper ;; plus a_lower ;; plus a_space ;; RChr a_upper ;; plus a_lower) ;;
  REol.
(* r'[\w\.-]+@[\w\.-]+' *)
Definition a_mail : atom := ASet false [IWord; i_chr "."; i_chr "-"].
Definition re_email : regex := plus a_mail ;; lit "@" ;; plus a_mail.
(* r'\(?\d{3}\)?[-.\s]?\d{3}[-.\s]?\d{4}' *)
Definition a_phone_sep : atom := ASet false [i_chr "-"; i_chr "."; ISpace].
Definition re_phone : regex :=
  opt (a_chr "(") ;; times 3 a_digit ;; opt (a_chr ")") ;; opt a_phone_sep ;;
  times 3 a_digit ;; opt a_phone_sep ;; times 4 a_digit.
(* r'\b[A-Z][a-z]+,\s+[A-Z]{2}\b' *)
Definition re_city_state : regex :=
  RWordB ;; RChr a_upper ;; plus a_lower ;; lit "," ;; plus a_space ;;
  times 2 a_upper ;; RWordB.
(* r'\b([A-Z][a-z]+,\s+[A-Z]{2})\b' *)
Definition re_city_state_group : regex :=
  RWordB ;;
  RGroup 1 (RChr a_upper ;; plus a_lower ;; lit "," ;; plus a_space ;; times 2 a_upper) ;;
  RWordB.
(* r'[,\n;\u2022]+' (the source writes the bullet glyph itself) *)
Definition re_skill_sep : regex :=
  plus (ASet false [i_chr ","; ILit 10; i_chr ";"; ILit 8226]).
(* r'\n(?=\w.*\s-\s)' *)
Definition re_block_start : regex :=
  RChr (ALit 10) ;;
  RAhead (RChr a_word ;; star ADot ;; RChr a_space ;; lit "-" ;; RChr a_space).
(* r'([A-Za-z]+\s+\d{4})\s*-\s*(current|[A-Za-z]+\s+\d{4})' *)
Definition re_date : regex :=
  RGroup 1 (plus a_alpha ;; plus a_space ;; times 4 a_digit) ;;
  star a_space ;; lit "-" ;; star a_space ;;
  RGroup 2 (lit "current" <|> (plus a_alpha ;; plus a_space ;; times 4 a_digit)).

(** The characters that have a meaning of their own in a pattern of [re]. *)
Definition regex_special : str := py ".^$*+?{}[]\\|()".

(** A keyword that stands for itself when it is spliced into a pattern: it
    holds none of these characters. *)
Definition literal_keyword (kw : str) : bool :=
  forallb (fun c => negb (existsb (N.eqb c) regex_special)) kw.

(** The alternatives [(?:{"|".join(ends)}|$)]: joining no keyword leaves one
    empty alternative before [$].  The keywords are read as literal words
    (see [section_pattern_first]). *)
Definition stop_alt (ends : list str) : regex :=
  fold_right RAlt REol
    (match ends with [] => [REps] | _ :: _ => map lit_str ends end).

(** The two patterns built for a section.  The keywords are spliced into the
    pattern as they are; the module passes upper-case words and a space, so
    they are read as literal text here.  That is what the code does for
    every [literal_keyword]; a keyword with a special character makes the
    code compile another pattern, or fail, which these definitions do not
    follow: the properties that range over all keywords assume
    [literal_keyword].
    First definition: rf'{start}([\s\S]+?)\b(?:{"|".join(stop_keywords)}|$)' *)
Definition section_pattern_first (start : str) (stop_keywords : list str) : regex :=
  lit_str start ;; RGroup 1 (RRep a_any 1 None false) ;; RWordB ;; stop_alt stop_keywords.

(** Second definition: rf'{start}([\s\S]*?)(?:{"|".join(ends)}|$)' *)
Definition section_pattern (start : str) (ends : list str) : regex :=
  lit_str start ;; RGroup 1 (RRep a_any 0 None false) ;; stop_alt ends.

(** ** Values of the module *)

#[local] Unset Elimination Schemes.
Inductive pyval :=
| VNone
| VStr (s : str)
| VList (l : list pyval)
| VDict (d : list (string * pyval)).

#[local] Set Elimination Schemes.

Definition of_opt (o : option str) : pyval :=
  match o with Some s => VStr s | None => VNone end.

(** An optional string inside an f-string. *)
Definition fmt (o : option str) : str :=
  match o with Some s => s | None => py "None" end.

Definition is_some {A : Type} (o : option A) : bool :=
  match o with Some _ => true | None => false end.

Definition bullet_chars : list char := [183; 183; 8226].
Definition dash_chars : list char := [8211; 8212; 8722; 8211; 8212].

(** The characters that survive [encode('utf-8', 'ignore')]: all but the
    surrogates. *)
Definition encodable (c : char) : bool := negb (in_range 55296 57343 c).

Definition sep_bar : str := py " | ".

Section Parser.
Context {U : UnicodeTables}.

Definition clean_text (raw_text : str) : str :=
  let text := filter encodable raw_text in
  let text :=
    fold_left (fun text ch => replace [ch] [] (replace [10; ch] [10] text))
      bullet_chars text in
  let text := fold_left (fun text ch => replace [ch] (py "-") text) dash_chars text in
  let text := re_sub false re_multi_dash (py "-") text in
  let text := re_sub false re_dash_spacing (py " - ") text in
  let text := re_sub false re_newlines (py "\n") text in
  let text := re_sub false re_punct [] text in
  let text := re_sub true (re_artifact "c7") [] text in
  let text := re_sub true (re_artifact "c2") [] text in
  let text := re_sub true (re_artifact "b7") [] text in
  let text := re_sub false re_non_ascii [] text in
  let text := re_sub false re_rule_line (py "\n") text in
  strip text.

Definition preprocess_text (raw_text : str) : str :=
  strip (re_sub false re_trailing_ws (py "\n") raw_text).

(** Rule 1 of [extract_name]: the first line with a label decides. *)
Fixpoint name_by_label (lines : list str) : option str :=
  match lines with
  | [] => None
  | line :: tl =>
      if is_some (re_match true re_name_label line)
      then Some (strip (re_sub true re_name_label_ws [] line))
      else name_by_label tl
  end.

(** Rule 2: the first line, unless it looks like an address or a number. *)
Definition name_by_first_line (lines : list str) : option str :=
  match lines with
  | first_line :: _ =>
      if negb (is_some (re_search false re_not_a_name first_line))
      then Some (strip first_line) else None
  | [] => None
  end.

(** Rule 3: the first of the given lines made of two capitalised words. *)
Fixpoint name_by_shape (lines : list str) : option str :=
  match lines with
  | [] => None
  | line :: tl =>
      match re_match false re_two_words (strip line) with
      | Some m => group m 1
      | None => name_by_shape tl
      end
  end.

Definition extract_name (lines : list str) : option str :=
  match name_by_label lines with
  | Some n => Some n
  | None =>
      match name_by_first_line lines with
      | Some n => Some n
      | None => name_by_shape (firstn 5 lines)
      end
  end.

Definition extract_email (text : str) : option str :=
  option_map mt_group0 (re_search false re_email text).

Definition extract_phone (text : str) : option str :=
  option_map mt_group0 (re_search false re_phone text).

Fixpoint extract_location (lines : list str) : option str :=
  match lines with
  | [] => None
  | line :: tl =>
      if is_some (re_search false re_city_state line)
      then Some (strip line) else extract_location tl
  end.

(** [match.group(1).strip() if match else None]; group 1 lies on the only
    path through either pattern, so a match always has it. *)
Definition section_of (m : option pymatch) : option str :=
  match m with
  | Some m =>
      match group m 1 with
      | Some g => Some (strip g)
      | None => None
      end
  | None => None
  end.

(** The first definition of [extract_section]. *)
Definition extract_section_first (text start : str) (stop_keywords : list str)
  : option str :=
  section_of (re_search true (section_pattern_first start stop_keywords) text).

(** The second definition of [extract_section], which replaces the first:
    a call looks the name up when it runs, so every caller gets this one. *)
Definition extract_section (text start : str) (ends : list str) : option str :=
  section_of (re_search true (section_pattern start ends) text).

Definition extract_skills (text : str) : str :=
  match extract_section text (py "SKILLS")
          [py "WORK EXPERIENCE"; py "EDUCATION"; py "CERTIFICATES"] with
  | None => []
  | Some skills_block =>
      if nonempty skills_block
      then join sep_bar
             (filter nonempty (map strip (re_split false re_skill_sep skills_block)))
      else []
  end.

Definition extract_education (text : str) : pyval :=
  match extract_section text (py "EDUCATION")
          [py "SKILLS"; py "WORK EXPERIENCE"; py "CERTIFICATES"] with
  | None => VDict []
  | Some edu_block =>
      if nonempty edu_block
      then
        let clean_lines := filter nonempty (map strip (split_chr 10 edu_block)) in
        match clean_lines with
        | _ :: _ => VStr (join sep_bar clean_lines)
        | [] => VNone
        end
      else VDict []
  end.

(** The body of the loop over the blocks: [None] stands for [continue]. *)
Definition work_entry (fallback_location : option str) (block : str) : option pyval :=
  let lines := filter nonempty (map strip (split_chr 10 block)) in
  match lines with
  | [] => None
  | title_line :: _ =>
      let meta_line := match lines with _ :: m :: _ => m | _ => [] end in
      let description_lines := skipn 2 lines in
      let date_match := re_search true re_date meta_line in
      let duration :=
        match date_match with
        | Some m => fmt (group m 1) ++ py " - " ++ fmt (group m 2)
        | None => []
        end in
      let location_match := re_search false re_city_state_group meta_line in
      let location :=
        match location_match with
        | Some m => mt_group0 m
        | None =>
            match fallback_location with
            | Some l => if nonempty l then l else []
            | None => []
            end
        end in
      let parts := [title_line] in
      let parts :=
        if nonempty duration || nonempty location
        then parts ++ [strip_chars (py " |") (duration ++ sep_bar ++ location)]
        else parts in
      let parts :=
        if nonempty description_lines
        then parts ++ [join (py " ") description_lines]
        else parts in
      let full_text := join sep_bar (filter nonempty parts) in
      Some (VDict [("text"%string, VStr full_text)])
  end.

Definition extract_work_experience (text : str) (fallback_location : option str)
  : list pyval :=
  match extract_section text (py "WORK EXPERIENCE")
          [py "EDUCATION"; py "SKILLS"; py "CERTIFICATES"] with
  | None => []
  | Some work_block =>
      if nonempty work_block
      then
        let blocks := re_split false re_block_start work_block in
        flat_map
          (fun block =>
             match work_entry fallback_location block with
             | Some e => [e]
             | None => []
             end)
          blocks
      else []
  end.

(** [[line.strip() for line in text.split('\n') if line.strip()]] *)
Definition segment (text : str) : list str :=
  filter nonempty (map strip (split_chr 10 text)).

(** The dictionary [extract_structured_fields] returns, from the text and
    its lines. *)
Definition assemble (text : str) (lines : list str) : pyval :=
  VDict
    [ ("name"%string, of_opt (extract_name lines));
      ("email"%string, of_opt (extract_email text));
      ("phone"%string, of_opt (extract_phone text));
      ("location"%string, of_opt (extract_location lines));
      ("skills"%string, VStr (extract_skills text));
      ("education"%string, extract_education text);
      ("work_experience"%string,
        VList (extract_work_experience text (extract_location lines))) ].

Definition extract_structured_fields (text : str) : pyval :=
  let text := preprocess_text text in
  let lines := segment text in
  assemble text lines.

(** [extract_info_from_pdf], from the texts [page.get_text()] of the pages of
    the opened document. *)
Definition extract_info_from_pdf (page_texts : list str) : pyval :=
  let full_text := join (py "\n") page_texts in
  let parsed := extract_structured_fields full_text in
  parsed.

End Parser.

(** ** Notions used to state the properties *)

Definition section_keywords : list str :=
  [py "SKILLS"; py "WORK EXPERIENCE"; py "EDUCATION"; py "CERTIFICATES"].

(** A piece of text between dashes: it holds no dash and has no white space
    at its first or last place.  It may be empty. *)
Definition piece (t : str) : bool :=
  negb (existsb (N.eqb 45) t) &&
  negb (is_space (hd 0 t)) && negb (is_space (last t 0)).

(** Nothing, or one space. *)
Definition edge (e : str) : bool :=
  match e with
  | [] => true
  | [c] => c =? 32
  | _ => false
  end.

(** Every dash of the text has one space of its own on either side: the
    text is made of pieces joined by [" - "].  A dash that opens or closes
    a trimmed text has lost its outer space, which [l] and [r] give back. *)
Definition dash_spaced (y : str) : Prop :=
  exists l r pieces,
    edge l = true /\ edge r = true /\ forallb piece pieces = true /\
    l ++ y ++ r = join (py " - ") pieces.

(** No two adjacent characters of the text are related by [Q]. *)
Fixpoint clear2 (Q : char -> char -> bool) (s : str) : bool :=
  match s with
  | a :: (b :: _) as tl => negb (Q a b) && clear2 Q tl
  | _ => true
  end.

(** A dash that does not follow a space. *)
Definition bare_dash (a b : char) : bool := (b =? 45) && negb (a =? 32).

(** A text with a long dash, a double dash, a comma, an empty line, a
    bullet and a closing dash, as a PDF page may give it. *)
Definition raw_example : str :=
  py "Engineer \u2013 Acme\r\nJune 2019 -- current | Austin, TX\n\n\u2022 Built things \u2014\n".

(** The keys of a dictionary, in order, and the value under a key. *)
Definition keys (v : pyval) : list string :=
  match v with VDict d => map fst d | _ => [] end.

Fixpoint assoc_key (k : string) (d : list (string * pyval)) : option pyval :=
  match d with
  | [] => None
  | (k', v) :: tl => if String.eqb k' k then Some v else assoc_key k tl
  end.

Definition lookup (k : string) (v : pyval) : option pyval :=
  match v with VDict d => assoc_key k d | _ => None end.

(** A work entry: a dictionary with the one key [text] and a non-empty
    string under it. *)
Definition is_work_entry (v : pyval) : bool :=
  match v with
  | VDict [(k, VStr t)] => String.eqb k "text" && nonempty t
  | _ => false
  end.

Definition record_keys : list string :=
  ["name"; "email"; "phone"; "location"; "skills"; "education";
   "work_experience"]%string.

(** [after st st']: the matcher went from [st] to [st'] over the text [w]. *)
Definition after (st st' : mstate) : Prop :=
  exists w, m_rest st = w ++ m_rest st' /\ m_pos st' = (m_pos st + List.length w)%nat.

(** Group [n] has been captured. *)
Definition has_cap (n : nat) (st : mstate) : Prop :=
  assoc_nat n (m_caps st) <> None.

(** The character before the position reached by passing over [w]. *)
Definition prev_after (prev : option char) (w : str) : option char :=
  fold_left (fun _ c => Some c) w prev.

(** The text of the work-experience example, and the stop list of the
    skills section. *)
Definition work_example : str :=
  py "WORK EXPERIENCE\nEngineer - Acme\nJune 2019 - current | Austin, TX\nBuilt things.\nEDUCATION".

Definition skills_stops : list str :=
  [py "WORK EXPERIENCE"; py "EDUCATION"; py "CERTIFICATES"].

Section Notions.
Context {U : UnicodeTables}.

(** Every match of [r] takes at least one character that satisfies [P]. *)
Fixpoint requires (P : char -> bool) (ic : bool) (r : regex) : Prop :=
  match r with
  | RChr a => forall ch, atom_match ic a ch = true -> P ch = true
  | RRep a lo _ _ => (0 < lo)%nat /\ forall ch, atom_match ic a ch = true -> P ch = true
  | RSeq r1 r2 => requires P ic r1 \/ requires P ic r2
  | RAlt r1 r2 => requires P ic r1 /\ requires P ic r2
  | RGroup _ r1 => requires P ic r1
  | RAhead r1 => requires P ic r1
  | _ => False
  end.

(** The pipeline as the specification words it: the Text Normalizer on the
    raw text first, then the Line Segmenter (with its [preprocess]), then the
    extractors and the assembler. *)
Definition pipeline_as_specified (raw : str) : pyval :=
  let normalized := clean_text raw in
  let text := preprocess_text normalized in
  let lines := segment text in
  assemble text lines.

(** The word [kw], read as a pattern, matches at the start of [s]. *)
Fixpoint prefix_match (ic : bool) (kw s : str) : bool :=
  match kw, s with
  | [], _ => true
  | k :: kw', c :: s' => atom_match ic (ALit k) c && prefix_match ic kw' s'
  | _ :: _, [] => false
  end.

(** The word [kw] occurs in [s] (case-insensitively, as the engine compares
    characters, when [ic] is set). *)
Fixpoint occurs (ic : bool) (kw s : str) : bool :=
  prefix_match ic kw s ||
  match s with
  | [] => false
  | _ :: tl => occurs ic kw tl
  end.

(** A text with none of the section keywords, in any case. *)
Definition keyword_free (text : str) : bool :=
  forallb (fun kw => negb (occurs true kw text)) section_keywords.

(** A text on which a further pass of the normalizer has nothing to do:
    its dashes are spaced, it has no empty line and no line that starts
    with a dot, and none of the tokens [c7], [c2], [b7] occurs in it (in
    any case). *)
Definition settled (y : str) : Prop :=
  dash_spaced y /\
  occurs false (py "\n\n") y = false /\
  occurs false (py "\n.") y = false /\
  occurs true (py "c7") y = false /\
  occurs true (py "c2") y = false /\
  occurs true (py "b7") y = false.

(** The line matches the name label pattern. *)
Definition label_line (line : str) : bool :=
  is_some (re_match true re_name_label line).

(** The line is a name label and nothing else: [name] in any case, optional
    white space, [:] or [-], and only white space after it. *)
Definition blank_label (line : str) : bool :=
  prefix_match true (py "name") line &&
  match lstrip_by is_space (skipn 4 line) with
  | sep :: tl => ((sep =? chr ":") || (sep =? chr "-")) && forallb is_space tl
  | [] => false
  end.

End Notions.

(** ** Further notions: what a match is made of *)

(** [s.endswith(suffix)] *)
Definition ends_with (suffix s : str) : bool :=
  starts_with (rev suffix) (rev s).

(** [w] lies in [s]: [s] is [w] with some text before and after. *)
Definition part_of (w s : str) : Prop :=
  exists pre post, s = pre ++ w ++ post.

Section MatchNotions.
Context {U : UnicodeTables}.

(** The texts a pattern can take, leaving aside what stands around them:
    anchors, word boundaries and look-aheads take nothing. *)
Fixpoint lang (ic : bool) (r : regex) (w : str) : Prop :=
  match r with
  | REps | RBol | REol | RWordB | RAhead _ => w = []
  | RChr a => exists c, w = [c] /\ atom_match ic a c = true
  | RRep a lo hi _ =>
      Forall (fun c => atom_match ic a c = true) w /\
      (lo <= List.length w)%nat /\
      match hi with Some h => (List.length w <= h)%nat | None => True end
  | RSeq r1 r2 => exists w1 w2, w = w1 ++ w2 /\ lang ic r1 w1 /\ lang ic r2 w2
  | RAlt r1 r2 => lang ic r1 w \/ lang ic r2 w
  | RGroup _ r1 => lang ic r1 w
  end.

(** Wherever the text goes on with a character that satisfies [P], the
    pattern [r] has a match there that takes at least one character. *)
Definition fires_on (P : char -> bool) (ic : bool) (r : regex) : Prop :=
  forall pos prev c tl,
    P c = true ->
    exists st', In st' (rmatch ic r (MState pos prev (c :: tl) [])) /\
                advances pos st' = true.

End MatchNotions.

(** ** The folder loop *)

Section Folder.
Context {U : UnicodeTables}.

(** [str.lower] follows the full case mapping of the runtime, which is a
    parameter like the other tables. *)
Variable str_lower : str -> str.

(** [extract_from_folder], from the listing [os.listdir] returns: each file
    name with the texts of the pages the file opens to.  [results] is the
    list the loop appends to. *)
Definition extract_from_folder (listing : list (str * list str)) : list pyval :=
  fold_left
    (fun results file =>
       let filename := fst file in
       if ends_with (py ".pdf") (str_lower filename)
       then
         let info := extract_info_from_pdf (snd file) in
         results ++ [info]
       else results)
    listing [].

End Folder.

(** ** Properties *)

Section MatcherFacts.
Context {U : UnicodeTables}.

Lemma after_refl st : after st st.
Proof. exists []. simpl. split; [reflexivity | lia]. Qed.

Lemma after_trans a b c : after a b -> after b c -> after a c.
Proof.
  intros [w1 [H1 P1]] [w2 [H2 P2]]. exists (w1 ++ w2).
  rewrite H1, H2, app_assoc, P2, P1, length_app. split; [reflexivity | lia].
Qed.

Lemma rep_from_after ic a g rest :
  forall need hi pos prev caps st',
    In st' (rep_from ic a g need hi pos prev rest caps) ->
    (exists w, rest = w ++ m_rest st' /\ m_pos st' = (pos + List.length w)%nat)
    /\ m_caps st' = caps.
Proof.
  induction rest as [|c tl IH]; intros need hi pos prev caps st' Hin.
  - simpl in Hin.
    assert (Hh : In st' (match need with O => [MState pos prev [] caps] | S _ => [] end)).
    { destruct g; simpl in Hin; [exact Hin | rewrite app_nil_r in Hin; exact Hin]. }
    destruct need; simpl in Hh; [|contradiction].
    destruct Hh as [<-|[]]. split; [exists []; simpl; split; [reflexivity | lia] | reflexivity].
  - simpl in Hin.
    assert (Hor :
      In st' (match need with O => [MState pos prev (c :: tl) caps] | S _ => [] end) \/
      In st' (if may_take hi && atom_match ic a c
              then rep_from ic a g (pred need) (option_map pred hi) (S pos) (Some c) tl caps
              else [])).
    { destruct g; apply in_app_or in Hin; tauto. }
    destruct Hor as [Hh|Hm].
    + destruct need; simpl in Hh; [|contradiction].
      destruct Hh as [<-|[]]. split; [exists []; simpl; split; [reflexivity | lia] | reflexivity].
    + destruct (may_take hi && atom_match ic a c); [|contradiction].
      apply IH in Hm. destruct Hm as [[w [Hw Hp]] Hc]. split; [|exact Hc].
      exists (c :: w). simpl. rewrite <- Hw, Hp. split; [reflexivity | lia].
Qed.

Lemma rmatch_after ic r :
  forall st st', In st' (rmatch ic r st) -> after st st'.
Proof.
  induction r; intros st st' Hin; simpl in Hin.
  - destruct Hin as [<-|[]]. apply after_refl.
  - destruct (m_rest st) as [|c tl] eqn:E; [contradiction|].
    destruct (atom_match ic a c); [|contradiction].
    destruct Hin as [<-|[]]. exists [c]. simpl. split; [exact E | lia].
  - apply rep_from_after in Hin. destruct Hin as [[w Hw] _]. exists w. exact Hw.
  - apply in_flat_map in Hin. destruct Hin as [mid [H1 H2]].
    eapply after_trans; eauto.
  - apply in_app_or in Hin. destruct Hin; eauto.
  - apply in_map_iff in Hin. destruct Hin as [x [<- Hx]].
    apply IHr in Hx. destruct Hx as [w Hw]. exists w. exact Hw.
  - destruct (Nat.eqb (m_pos st) 0); [|contradiction].
    destruct Hin as [<-|[]]. apply after_refl.
  - destruct (m_rest st) as [|c [|d tl]]; try contradiction.
    + destruct Hin as [<-|[]]. apply after_refl.
    + destruct (c =? 10); [|contradiction]. destruct Hin as [<-|[]]. apply after_refl.
  - destruct (xorb _ _); [|contradiction]. destruct Hin as [<-|[]]. apply after_refl.
  - destruct (rmatch ic r st); [contradiction|].
    destruct Hin as [<-|[]]. exists []. simpl. split; [reflexivity | lia].
Qed.

Lemma rep_from_need ic a g rest :
  forall need hi pos prev caps,
    (0 < need)%nat ->
    (forall c, In c rest -> atom_match ic a c = false) ->
    rep_from ic a g need hi pos prev rest caps = [].
Proof.
  destruct rest as [|c tl]; intros need hi pos prev caps Hn Hno;
    destruct need; try lia; simpl.
  - destruct g; reflexivity.
  - rewrite (Hno c) by (left; reflexivity). rewrite andb_false_r.
    destruct g; reflexivity.
Qed.

Lemma rmatch_requires P ic r :
  requires P ic r ->
  forall st, (forall c, In c (m_rest st) -> P c = false) -> rmatch ic r st = [].
Proof.
  induction r; simpl; intros Hreq st Hno; try contradiction.
  - destruct (m_rest st) as [|c tl] eqn:E; [reflexivity|].
    destruct (atom_match ic a c) eqn:Ea; [|reflexivity].
    apply Hreq in Ea. rewrite Hno in Ea by (try rewrite E; left; reflexivity). discriminate.
  - destruct Hreq as [Hlo Hreq]. apply rep_from_need; [exact Hlo|].
    intros c Hc. destruct (atom_match ic a c) eqn:Ea; [|reflexivity].
    apply Hreq in Ea. rewrite Hno in Ea by exact Hc. discriminate.
  - destruct Hreq as [H1|H2].
    + rewrite IHr1 by assumption. reflexivity.
    + assert (Hall : forall mid, In mid (rmatch ic r1 st) -> rmatch ic r2 mid = []).
      { intros mid Hmid. apply IHr2; [exact H2|].
        apply rmatch_after in Hmid. destruct Hmid as [w [Hw _]].
        intros c Hc. apply Hno. rewrite Hw. apply in_or_app. right. exact Hc. }
      induction (rmatch ic r1 st) as [|x xs IHxs]; [reflexivity|].
      simpl. rewrite Hall by (left; reflexivity). simpl.
      apply IHxs. intros mid Hmid. apply Hall. right. exact Hmid.
  - destruct Hreq as [H1 H2]. rewrite IHr1, IHr2 by assumption. reflexivity.
  - rewrite IHr by assumption. reflexivity.
  - rewrite IHr by assumption. reflexivity.
Qed.

Lemma tokens_no_match ic r s :
  forall pos prev,
    (forall pos' prev' w rest, s = w ++ rest -> rmatch ic r (MState pos' prev' rest []) = []) ->
    tokens ic r pos prev s 0 = map TChar s.
Proof.
  induction s as [|c tl IH]; intros pos prev Hno.
  - simpl. rewrite (Hno pos prev [] []) by reflexivity. reflexivity.
  - simpl. rewrite (Hno pos prev [] (c :: tl)) by reflexivity.
    simpl. f_equal. apply IH.
    intros pos' prev' w rest Hs. apply (Hno pos' prev' (c :: w) rest).
    simpl. rewrite Hs. reflexivity.
Qed.

Lemma render_chars repl s : flat_map (render repl) (map TChar s) = s.
Proof. induction s; simpl; [reflexivity | f_equal; assumption]. Qed.

Lemma re_sub_requires P ic r repl s :
  requires P ic r ->
  (forall c, In c s -> P c = false) ->
  re_sub ic r repl s = s.
Proof.
  intros Hreq Hno. unfold re_sub.
  rewrite tokens_no_match; [apply render_chars|].
  intros pos' prev' w rest Hs. apply (rmatch_requires P); [exact Hreq|].
  simpl. intros c Hc. apply Hno. rewrite Hs. apply in_or_app. right. exact Hc.
Qed.

End MatcherFacts.

Section StringFacts.

Lemma lstrip_by_incl p s c : In c (lstrip_by p s) -> In c s.
Proof.
  induction s as [|d tl IH]; simpl; [tauto|].
  destruct (p d); [right; auto | auto].
Qed.

Lemma strip_by_incl p s c : In c (strip_by p s) -> In c s.
Proof.
  unfold strip_by, rstrip_by. intros H.
  apply in_rev in H. apply lstrip_by_incl in H. apply in_rev in H.
  apply lstrip_by_incl in H. exact H.
Qed.

Lemma lstrip_by_idem p s : lstrip_by p (lstrip_by p s) = lstrip_by p s.
Proof.
  induction s as [|d tl IH]; simpl; [reflexivity|].
  destruct (p d) eqn:E; [exact IH | simpl; rewrite E; reflexivity].
Qed.

Lemma lstrip_by_snoc p s c :
  lstrip_by p (s ++ [c]) =
  match lstrip_by p s with
  | [] => if p c then [] else [c]
  | x :: xs => (x :: xs) ++ [c]
  end.
Proof.
  induction s as [|d tl IH]; simpl; [reflexivity|].
  destruct (p d); [exact IH | reflexivity].
Qed.

(** Trimming on the right keeps a first character that is not trimmed. *)
Lemma rstrip_by_cons p c s :
  p c = false -> rstrip_by p (c :: s) = c :: rstrip_by p s.
Proof.
  intros Hc. unfold rstrip_by. simpl. rewrite lstrip_by_snoc.
  destruct (lstrip_by p (rev s)) as [|x xs].
  - rewrite Hc. reflexivity.
  - rewrite rev_app_distr. reflexivity.
Qed.

Lemma rstrip_by_idem p s : rstrip_by p (rstrip_by p s) = rstrip_by p s.
Proof.
  unfold rstrip_by. rewrite rev_involutive, lstrip_by_idem. reflexivity.
Qed.

Lemma lstrip_by_head p s :
  lstrip_by p s = [] \/ exists c tl, lstrip_by p s = c :: tl /\ p c = false.
Proof.
  induction s as [|d tl IH]; simpl; [left; reflexivity|].
  destruct (p d) eqn:E; [exact IH | right; eauto].
Qed.

Lemma strip_by_idem p s : strip_by p (strip_by p s) = strip_by p s.
Proof.
  unfold strip_by.
  destruct (lstrip_by_head p s) as [E | [c [tl [E Hc]]]]; rewrite E.
  - reflexivity.
  - rewrite (rstrip_by_cons p c tl Hc). simpl. rewrite Hc.
    rewrite <- (rstrip_by_cons p c tl Hc). apply rstrip_by_idem.
Qed.

Lemma starts_with_In old s o : starts_with old s = true -> In o old -> In o s.
Proof.
  revert s. induction old as [|a old IH]; intros s H Ho; [destruct Ho|].
  destruct s as [|c s]; simpl in H; [discriminate|].
  apply andb_true_iff in H. destruct H as [Hac Hrest].
  apply N.eqb_eq in Hac. destruct Ho as [<-|Ho].
  - left. symmetry. exact Hac.
  - right. apply IH; assumption.
Qed.

Lemma replace_go_absent old new o s :
  In o old -> ~ In o s -> replace_go old new s 0 = s.
Proof.
  intros Ho. induction s as [|c tl IH]; intros Hno; [reflexivity|].
  simpl. destruct (starts_with old (c :: tl)) eqn:E.
  - exfalso. apply Hno. eapply starts_with_In; eauto.
  - f_equal. apply IH. intros H. apply Hno. right. exact H.
Qed.

Lemma replace_absent old new o s :
  In o old -> ~ In o s -> replace old new s = s.
Proof.
  intros Ho Hno. destruct old as [|a old]; [destruct Ho|].
  unfold replace. eapply replace_go_absent; eauto.
Qed.

Lemma filter_all {A} (f : A -> bool) l :
  (forall x, In x l -> f x = true) -> filter f l = l.
Proof.
  induction l as [|a l IH]; intros H; simpl; [reflexivity|].
  rewrite H by (left; reflexivity). f_equal. apply IH. intros x Hx. apply H. right. exact Hx.
Qed.

End StringFacts.

Section Normalizer.
Context {U : UnicodeTables}.

Lemma ascii_nonletter_uncased c :
  c < 128 -> in_range 65 90 c = false -> in_range 97 122 c = false ->
  iscased c = false.
Proof.
  intros H1 H2 H3. destruct (ascii_uncased c H1 H2 H3) as [Hl Hu].
  unfold iscased. rewrite Hl, Hu, N.eqb_refl. reflexivity.
Qed.

Lemma digit_uncased c : in_range 48 57 c = true -> iscased c = false.
Proof.
  intros H. unfold in_range in H. apply andb_true_iff in H. destruct H as [H1 H2].
  apply N.leb_le in H1. apply N.leb_le in H2.
  apply ascii_nonletter_uncased; unfold in_range; try lia.
  - apply andb_false_iff. left. apply N.leb_gt. lia.
  - apply andb_false_iff. left. apply N.leb_gt. lia.
Qed.

Lemma requires_punct :
  requires (fun c => (c =? 44) || ((c =? 95) || (c =? 38))) false re_punct.
Proof.
  simpl. intros ch H. rewrite orb_false_r in H. exact H.
Qed.

Lemma requires_non_ascii : requires (fun c => 128 <=? c) false re_non_ascii.
Proof.
  simpl. split; [lia|]. intros ch H. rewrite orb_false_r in H.
  unfold in_range in H. apply negb_true_iff in H.
  apply andb_false_iff in H. apply N.leb_le.
  destruct H as [H|H]; apply N.leb_gt in H; lia.
Qed.

End Normalizer.

Section SectionExtractor.
Context {U : UnicodeTables}.

(** A literal word matches in one way, over exactly its own length. *)
Lemma rmatch_lit ic kw :
  forall st,
    rmatch ic (lit_str kw) st =
    if prefix_match ic kw (m_rest st)
    then [MState (m_pos st + List.length kw)
            (prev_after (m_prev st) (firstn (List.length kw) (m_rest st)))
            (skipn (List.length kw) (m_rest st)) (m_caps st)]
    else [].
Proof.
  induction kw as [|k kw IH]; intros [pos prev rest caps].
  - simpl. rewrite Nat.add_0_r. reflexivity.
  - cbn [lit_str rmatch m_rest m_pos m_prev m_caps prefix_match].
    destruct rest as [|c tl]; [reflexivity|].
    destruct (atom_match ic (ALit k) c); [|reflexivity].
    cbn [flat_map andb]. rewrite app_nil_r, IH.
    cbn [m_rest m_pos m_prev m_caps List.length firstn skipn].
    destruct (prefix_match ic kw tl); [|reflexivity].
    unfold prev_after. cbn [fold_left].
    rewrite <- plus_n_Sm. reflexivity.
Qed.

Lemma search_go_absent ic kw r s :
  forall pos prev,
    occurs ic kw s = false ->
    search_go ic (lit_str kw ;; r) pos prev s = None.
Proof.
  induction s as [|c tl IH]; intros pos prev H; simpl in H;
    apply orb_false_iff in H; destruct H as [Hp Ho];
    cbn [search_go rmatch]; rewrite rmatch_lit; cbn [m_rest]; rewrite Hp;
    cbn [flat_map]; [reflexivity | apply IH; exact Ho].
Qed.

Lemma search_go_found ic r s :
  forall pos prev,
    search_go ic r pos prev s <> None ->
    exists pos' prev' w rest,
      s = w ++ rest /\ rmatch ic r (MState pos' prev' rest []) <> [].
Proof.
  induction s as [|c tl IH]; intros pos prev H; cbn [search_go] in H.
  - exists pos, prev, [], []. split; [reflexivity|].
    destruct (rmatch ic r (MState pos prev [] [])); [contradiction | discriminate].
  - destruct (rmatch ic r (MState pos prev (c :: tl) [])) eqn:E.
    + apply IH in H. destruct H as [pos' [prev' [w [rest [Hs Hm]]]]].
      exists pos', prev', (c :: w), rest. split; [simpl; rewrite Hs; reflexivity | exact Hm].
    + exists pos, prev, [], (c :: tl). split; [reflexivity|]. rewrite E. discriminate.
Qed.

Lemma occurs_suffix ic kw w rest :
  prefix_match ic kw rest = true -> occurs ic kw (w ++ rest) = true.
Proof.
  intros H. induction w as [|c w IH]; simpl.
  - destruct rest; simpl; rewrite H; reflexivity.
  - rewrite IH. apply orb_true_r.
Qed.

(** A search for a pattern that begins with a literal word finds nothing
    unless the word occurs. *)
Lemma search_go_occurs ic kw r s pos prev :
  search_go ic (lit_str kw ;; r) pos prev s <> None -> occurs ic kw s = true.
Proof.
  intros H. destruct (occurs ic kw s) eqn:E; [reflexivity|].
  exfalso. apply H. apply search_go_absent. exact E.
Qed.

Lemma has_cap_rmatch ic n r :
  forall st st', In st' (rmatch ic r st) -> has_cap n st -> has_cap n st'.
Proof.
  unfold has_cap. induction r; intros st st' Hin Hc; simpl in Hin.
  - destruct Hin as [<-|[]]. exact Hc.
  - destruct (m_rest st) as [|c tl]; [contradiction|].
    destruct (atom_match ic a c); [|contradiction].
    destruct Hin as [<-|[]]. exact Hc.
  - apply rep_from_after in Hin. destruct Hin as [_ ->]. exact Hc.
  - apply in_flat_map in Hin. destruct Hin as [mid [H1 H2]]. eauto.
  - apply in_app_or in Hin. destruct Hin; eauto.
  - apply in_map_iff in Hin. destruct Hin as [x [<- Hx]].
    simpl. destruct (Nat.eqb n0 n); [discriminate | eauto].
  - destruct (Nat.eqb (m_pos st) 0); [|contradiction].
    destruct Hin as [<-|[]]. exact Hc.
  - destruct (m_rest st) as [|c [|d tl]]; try contradiction.
    + destruct Hin as [<-|[]]. exact Hc.
    + destruct (c =? 10); [|contradiction]. destruct Hin as [<-|[]]. exact Hc.
  - destruct (xorb _ _); [|contradiction]. destruct Hin as [<-|[]]. exact Hc.
  - destruct (rmatch ic r st) as [|st1 l] eqn:E; [contradiction|].
    destruct Hin as [<-|[]]. simpl. apply (IHr st st1); [rewrite E; left; reflexivity | exact Hc].
Qed.

Lemma has_cap_group ic n r st st' :
  In st' (rmatch ic (RGroup n r) st) -> has_cap n st'.
Proof.
  simpl. intros Hin. apply in_map_iff in Hin. destruct Hin as [x [<- _]].
  unfold has_cap. simpl. rewrite Nat.eqb_refl. discriminate.
Qed.

Lemma atom_match_any ic c : atom_match ic a_any c = true.
Proof.
  unfold atom_match, a_any. cbn [existsb item_cased orb].
  rewrite andb_false_r. cbn [item_match xorb].
  destruct (is_space c); reflexivity.
Qed.

(** The lazy span [[\s\S]*?] can always run to the end of the text. *)
Lemma lazy_any_reaches_end ic rest :
  forall pos prev caps,
    exists stf,
      In stf (rep_from ic a_any false 0 None pos prev rest caps) /\ m_rest stf = [].
Proof.
  induction rest as [|c tl IH]; intros pos prev caps.
  - exists (MState pos prev [] caps). split; [left; reflexivity | reflexivity].
  - destruct (IH (S pos) (Some c) caps) as [stf [Hin Hr]].
    exists stf. split; [|exact Hr].
    cbn [rep_from]. rewrite atom_match_any. cbn [may_take andb pred option_map app].
    right. exact Hin.
Qed.

Lemma stop_alt_at_end ic l st :
  m_rest st = [] -> In st (rmatch ic (fold_right RAlt REol l) st).
Proof.
  intros H. induction l as [|r l IH]; simpl.
  - rewrite H. left. reflexivity.
  - apply in_or_app. right. exact IH.
Qed.

Lemma section_tail_matches ic ends st :
  rmatch ic (RGroup 1 (RRep a_any 0 None false) ;; stop_alt ends) st <> [].
Proof.
  destruct (lazy_any_reaches_end ic (m_rest st) (m_pos st) (m_prev st) (m_caps st))
    as [stf [Hin Hr]].
  set (stg := MState (m_pos stf) (m_prev stf) (m_rest stf)
                ((1%nat, firstn (m_pos stf - m_pos st) (m_rest st)) :: m_caps stf)).
  assert (H : In stg (rmatch ic (RGroup 1 (RRep a_any 0 None false) ;; stop_alt ends) st)).
  { cbn [rmatch]. apply in_flat_map. exists stg. split.
    - apply in_map_iff. exists stf. split; [reflexivity | exact Hin].
    - apply stop_alt_at_end. exact Hr. }
  intros E. rewrite E in H. destruct H.
Qed.

Lemma section_pattern_caps ic start ends st st' :
  In st' (rmatch ic (section_pattern start ends) st) -> has_cap 1 st'.
Proof.
  unfold section_pattern. cbn [rmatch]. intros Hin.
  apply in_flat_map in Hin. destruct Hin as [m1 [_ Hin]].
  apply in_flat_map in Hin. destruct Hin as [m2 [Hg Hin]].
  eapply has_cap_rmatch; [exact Hin|].
  eapply (has_cap_group ic 1 (RRep a_any 0 None false)). exact Hg.
Qed.

Lemma section_pattern_first_caps ic start ends st st' :
  In st' (rmatch ic (section_pattern_first start ends) st) -> has_cap 1 st'.
Proof.
  unfold section_pattern_first. cbn [rmatch]. intros Hin.
  apply in_flat_map in Hin. destruct Hin as [m1 [_ Hin]].
  apply in_flat_map in Hin. destruct Hin as [m2 [Hg Hin]].
  eapply (has_cap_rmatch ic 1 (RWordB ;; stop_alt ends)); [exact Hin|].
  eapply (has_cap_group ic 1 (RRep a_any 1 None false)). exact Hg.
Qed.

Lemma section_pattern_matches ic start ends st :
  prefix_match ic start (m_rest st) = true ->
  rmatch ic (section_pattern start ends) st <> [].
Proof.
  intros Hp. unfold section_pattern. cbn [rmatch].
  rewrite rmatch_lit, Hp. cbn [flat_map]. rewrite app_nil_r.
  apply (section_tail_matches ic ends).
Qed.

(** A search with the pattern of the second definition succeeds as soon as
    the start keyword occurs, and its match has group 1. *)
Lemma search_go_section ic start ends s :
  forall pos prev,
    occurs ic start s = true ->
    exists m, search_go ic (section_pattern start ends) pos prev s = Some m
              /\ group m 1 <> None.
Proof.
  induction s as [|c tl IH]; intros pos prev Ho; cbn [search_go].
  - simpl in Ho. rewrite orb_false_r in Ho.
    pose proof (section_pattern_matches ic start ends (MState pos prev [] []) Ho) as Hne.
    destruct (rmatch ic (section_pattern start ends) (MState pos prev [] [])) as [|st' l] eqn:E;
      [contradiction|].
    eexists. split; [reflexivity|].
    apply (section_pattern_caps ic start ends (MState pos prev [] []) st').
    rewrite E. left. reflexivity.
  - destruct (rmatch ic (section_pattern start ends) (MState pos prev (c :: tl) []))
      as [|st' l] eqn:E.
    + simpl in Ho. apply orb_true_iff in Ho. destruct Ho as [Hp|Ho].
      * exfalso.
        apply (section_pattern_matches ic start ends (MState pos prev (c :: tl) []) Hp).
        exact E.
      * apply IH. exact Ho.
    + eexists. split; [reflexivity|].
      apply (section_pattern_caps ic start ends (MState pos prev (c :: tl) []) st').
      rewrite E. left. reflexivity.
Qed.

Lemma extract_section_absent text start ends :
  occurs true start text = false -> extract_section text start ends = None.
Proof.
  intros H. unfold extract_section, re_search, section_pattern.
  rewrite search_go_absent by exact H. reflexivity.
Qed.

Lemma extract_section_first_absent text start ends :
  occurs true start text = false -> extract_section_first text start ends = None.
Proof.
  intros H. unfold extract_section_first, re_search, section_pattern_first.
  rewrite search_go_absent by exact H. reflexivity.
Qed.

Lemma extract_section_present text start ends :
  occurs true start text = true -> extract_section text start ends <> None.
Proof.
  intros H. unfold extract_section, re_search.
  destruct (search_go_section true start ends text 0%nat None H) as [m [-> Hg]].
  unfold section_of. destruct (group m 1); [discriminate | contradiction].
Qed.

(** C7 (amended): the two definitions of [extract_section] are related as
    follows.  The second (the one in effect) returns nothing exactly when the
    start keyword does not occur in the text, in any case; the first returns
    nothing then too; and whenever the first returns a section, so does the
    second. *)
Theorem extract_section_definitions text start ends :
  (extract_section text start ends = None <-> occurs true start text = false) /\
  (occurs true start text = false -> extract_section_first text start ends = None) /\
  (extract_section_first text start ends <> None ->
   extract_section text start ends <> None).
Proof.
  split; [split|split].
  - intros H. destruct (occurs true start text) eqn:E; [|reflexivity].
    exfalso. apply (extract_section_present text start ends E). exact H.
  - apply extract_section_absent.
  - apply extract_section_first_absent.
  - intros H. apply extract_section_present.
    destruct (occurs true start text) eqn:E; [reflexivity|].
    exfalso. apply H. apply extract_section_first_absent. exact E.
Qed.

Lemma keyword_free_occurs text kw :
  keyword_free text = true -> In kw section_keywords -> occurs true kw text = false.
Proof.
  unfold keyword_free. rewrite forallb_forall. intros H Hin.
  apply negb_true_iff. apply H. exact Hin.
Qed.

(** C4 (amended): for a text with none of the section keywords, in any case,
    [extract_skills] returns the empty string, [extract_education] returns
    the empty dictionary and [extract_work_experience] returns the empty
    list (the functions are total: nothing is raised). *)
Theorem no_keywords_no_sections text fallback_location :
  keyword_free text = true ->
  extract_skills text = [] /\
  extract_education text = VDict [] /\
  extract_work_experience text fallback_location = [].
Proof.
  intros H. unfold extract_skills, extract_education, extract_work_experience.
  rewrite !extract_section_absent
    by (apply keyword_free_occurs; [exact H | simpl; tauto]).
  repeat split.
Qed.

End SectionExtractor.

Section NameExtractor.
Context {U : UnicodeTables}.

Lemma lstrip_by_split p s :
  exists ws, s = ws ++ lstrip_by p s /\ forallb p ws = true.
Proof.
  induction s as [|c tl IH]; simpl.
  - exists []. split; reflexivity.
  - destruct (p c) eqn:E.
    + destruct IH as [ws [H1 H2]]. exists (c :: ws). simpl. rewrite E, H2.
      split; [f_equal; exact H1 | reflexivity].
    + exists []. split; reflexivity.
Qed.

Lemma atom_match_space ic c : atom_match ic a_space c = is_space c.
Proof.
  unfold atom_match, a_space. cbn [existsb item_cased orb].
  rewrite andb_false_r. cbn [item_match xorb]. apply orb_false_r.
Qed.

(** A greedy [\s*] first tries the whole run of white space before it. *)
Lemma greedy_space_run ic ws :
  forall rest pos prev caps,
    forallb is_space ws = true ->
    (match rest with [] => true | c :: _ => negb (is_space c) end) = true ->
    exists others,
      rep_from ic a_space true 0 None pos prev (ws ++ rest) caps =
      MState (pos + List.length ws) (prev_after prev ws) rest caps :: others.
Proof.
  induction ws as [|c ws IH]; intros rest pos prev caps Hws Hrest.
  - cbn [app List.length prev_after fold_left]. rewrite Nat.add_0_r.
    destruct rest as [|d tl]; cbn [rep_from].
    + exists []. reflexivity.
    + rewrite atom_match_space. apply negb_true_iff in Hrest. rewrite Hrest.
      exists []. reflexivity.
  - simpl in Hws. apply andb_true_iff in Hws. destruct Hws as [Hc Hws].
    destruct (IH rest (S pos) (Some c) caps Hws Hrest) as [others E].
    cbn [app rep_from]. rewrite atom_match_space, Hc.
    cbn [may_take andb pred option_map]. rewrite E.
    exists (others ++ [MState pos prev (c :: ws ++ rest) caps]).
    cbn [List.length]. rewrite <- plus_n_Sm. reflexivity.
Qed.

Lemma flat_map_head {A B} (f : A -> list B) x xs y ys :
  f x = y :: ys -> flat_map f (x :: xs) = y :: (ys ++ flat_map f xs).
Proof. intros H. simpl. rewrite H. reflexivity. Qed.

Lemma label_sep_match sep :
  ((sep =? chr ":") || (sep =? chr "-")) = true ->
  atom_match true (ASet false [i_chr ":"; i_chr "-"]) sep = true.
Proof.
  intros H. unfold atom_match, i_chr.
  change (chr ":") with 58 in *. change (chr "-") with 45 in *.
  cbn [existsb item_cased].
  rewrite (ascii_nonletter_uncased 58), (ascii_nonletter_uncased 45)
    by (reflexivity || lia).
  cbn [orb andb item_match xorb]. rewrite orb_false_r. exact H.
Qed.

Lemma label_sep_not_space sep :
  ((sep =? chr ":") || (sep =? chr "-")) = true -> is_space sep = false.
Proof.
  intros H. apply orb_true_iff in H.
  destruct H as [H|H]; apply N.eqb_eq in H; subst sep; reflexivity.
Qed.

(** The shape of a line that is a label and nothing else. *)
Lemma blank_label_shape line :
  blank_label line = true ->
  prefix_match true (py "name") line = true /\
  exists ws1 sep ws2,
    skipn 4 line = ws1 ++ sep :: ws2 /\
    forallb is_space ws1 = true /\
    ((sep =? chr ":") || (sep =? chr "-")) = true /\
    forallb is_space ws2 = true.
Proof.
  unfold blank_label. intros H. apply andb_true_iff in H. destruct H as [Hp H].
  split; [exact Hp|].
  destruct (lstrip_by_split is_space (skipn 4 line)) as [ws1 [E Hws1]].
  destruct (lstrip_by is_space (skipn 4 line)) as [|sep tl]; [discriminate|].
  apply andb_true_iff in H. destruct H as [Hsep Htl].
  exists ws1, sep, tl. auto.
Qed.

(** On such a line the label patterns match, and the longer one takes the
    whole line. *)
Lemma blank_label_match line :
  blank_label line = true ->
  rmatch true re_name_label (MState 0 None line []) <> [] /\
  exists stE others,
    rmatch true re_name_label_ws (MState 0 None line []) = stE :: others /\
    m_rest stE = [].
Proof.
  intros H. apply blank_label_shape in H.
  destruct H as [Hp [ws1 [sep [ws2 [E [H1 [Hs H2]]]]]]].
  pose proof (label_sep_match sep Hs) as Hm.
  pose proof (label_sep_not_space sep Hs) as Hn.
  destruct (greedy_space_run true ws1 (sep :: ws2) 4 (prev_after None (firstn 4 line)) []
              H1 ltac:(simpl; rewrite Hn; reflexivity)) as [o1 E1].
  split.
  - unfold re_name_label, lit, set_of. cbn [rmatch m_pos Nat.eqb flat_map].
    rewrite app_nil_r, rmatch_lit. cbn [m_rest m_pos m_prev m_caps]. rewrite Hp.
    change (List.length (py "name")) with 4%nat. cbn [flat_map Nat.add].
    rewrite app_nil_r, E. unfold star. cbn [rmatch m_rest m_pos m_prev m_caps].
    rewrite E1. cbn [flat_map rmatch m_rest]. rewrite Hm. discriminate.
  - destruct (greedy_space_run true ws2 [] (S (4 + List.length ws1)) (Some sep) []
                H2 eq_refl) as [o2 E2].
    rewrite app_nil_r in E2.
    unfold re_name_label_ws, lit, set_of. cbn [rmatch m_pos Nat.eqb flat_map].
    rewrite app_nil_r, rmatch_lit. cbn [m_rest m_pos m_prev m_caps]. rewrite Hp.
    change (List.length (py "name")) with 4%nat. cbn [flat_map Nat.add].
    rewrite app_nil_r, E. unfold star. cbn [rmatch m_rest m_pos m_prev m_caps].
    rewrite E1. cbn [flat_map rmatch m_rest m_pos m_prev m_caps]. rewrite Hm.
    cbn [flat_map rmatch m_rest m_pos m_prev m_caps]. rewrite E2. cbn [app].
    eexists. eexists. split; [reflexivity | reflexivity].
Qed.

Lemma tokens_skip ic r rest :
  forall pos prev,
    tokens ic r pos prev rest (List.length rest) =
    tokens ic r (pos + List.length rest) (prev_after prev rest) [] 0.
Proof.
  induction rest as [|c tl IH]; intros pos prev.
  - simpl. rewrite Nat.add_0_r. reflexivity.
  - cbn [List.length tokens]. rewrite IH. cbn [prev_after fold_left].
    rewrite <- plus_n_Sm. reflexivity.
Qed.

Lemma tokens_bol_end ic r pos prev :
  (0 < pos)%nat -> tokens ic (RBol ;; r) pos prev [] 0 = [].
Proof.
  intros H. cbn [tokens rmatch m_pos].
  destruct pos; [lia|]. reflexivity.
Qed.

Lemma blank_label_sub line :
  blank_label line = true -> re_sub true re_name_label_ws [] line = [].
Proof.
  intros H. destruct (blank_label_match line H) as [_ [stE [others [E Hr]]]].
  assert (Hpos : m_pos stE = List.length line).
  { destruct (rmatch_after true re_name_label_ws (MState 0 None line []) stE) as [w [Hw Hp]].
    - rewrite E. left. reflexivity.
    - cbn [m_rest m_pos] in Hw, Hp. rewrite Hr, app_nil_r in Hw. subst w. exact Hp. }
  destruct line as [|c tl].
  - apply blank_label_shape in H. destruct H as [H _]. discriminate.
  - unfold re_sub. cbn [tokens]. rewrite E.
    unfold advances. rewrite Hpos. cbn [List.length Nat.eqb negb].
    cbn [flat_map render app]. rewrite Nat.sub_0_r. cbn [Nat.sub].
    rewrite Nat.sub_0_r, tokens_skip.
    unfold re_name_label_ws. rewrite tokens_bol_end by lia. reflexivity.
Qed.

Lemma name_by_label_first pre line post :
  Forall (fun l => label_line l = false) pre ->
  blank_label line = true ->
  name_by_label (pre ++ line :: post) = Some [].
Proof.
  intros Hpre H. induction Hpre as [|l pre Hl _ IH]; cbn [app name_by_label].
  - destruct (blank_label_match line H) as [Hne _].
    unfold re_match. destruct (rmatch true re_name_label (MState 0 None line []));
      [contradiction|].
    cbn [is_some]. rewrite (blank_label_sub line H). reflexivity.
  - unfold label_line in Hl. rewrite Hl. exact IH.
Qed.

(** C10 (amended): if the first line that matches the name label pattern is
    a label and nothing else, [extract_name] returns the empty string, not
    the absent value, whatever the later lines are. *)
Theorem blank_label_gives_empty_name pre line post :
  Forall (fun l => label_line l = false) pre ->
  blank_label line = true ->
  extract_name (pre ++ line :: post) = Some [].
Proof.
  intros Hpre H. unfold extract_name.
  rewrite (name_by_label_first pre line post Hpre H). reflexivity.
Qed.

End NameExtractor.

Section Records.
Context {U : UnicodeTables}.

Lemma filter_head {A} (f : A -> bool) l x xs :
  filter f l = x :: xs -> f x = true.
Proof.
  intros H. assert (Hin : In x (filter f l)) by (rewrite H; left; reflexivity).
  apply filter_In in Hin. tauto.
Qed.

Lemma join_title sep (title : str) more :
  nonempty title = true ->
  nonempty (join sep (filter nonempty (title :: more))) = true.
Proof.
  intros H. cbn [filter]. rewrite H.
  destruct title as [|c t]; [discriminate|].
  cbn [join]. destruct (filter nonempty more); reflexivity.
Qed.

Lemma work_entry_ok fallback_location block e :
  work_entry fallback_location block = Some e -> is_work_entry e = true.
Proof.
  unfold work_entry. cbv zeta.
  destruct (filter nonempty (map strip (split_chr 10 block))) as [|title more] eqn:E;
    [discriminate|].
  apply filter_head in E. intros H. injection H as <-.
  cbn [is_work_entry]. rewrite String.eqb_refl. cbn [andb].
  repeat match goal with
  | |- context [if ?b then _ else _] => destruct b
  end; cbn [app];
  apply join_title; exact E.
Qed.

Lemma work_entries_ok fallback_location blocks :
  forallb is_work_entry
    (flat_map (fun block =>
                 match work_entry fallback_location block with
                 | Some e => [e]
                 | None => []
                 end) blocks) = true.
Proof.
  induction blocks as [|b bs IH]; [reflexivity|].
  cbn [flat_map]. rewrite forallb_app, IH, andb_true_r.
  destruct (work_entry fallback_location b) as [e|] eqn:E; [|reflexivity].
  cbn [forallb]. rewrite (work_entry_ok _ _ _ E). reflexivity.
Qed.

Lemma extract_work_experience_entries text fallback_location :
  forallb is_work_entry (extract_work_experience text fallback_location) = true.
Proof.
  unfold extract_work_experience.
  destruct (extract_section _ _ _) as [work_block|]; [|reflexivity].
  destruct (nonempty work_block); [|reflexivity].
  apply work_entries_ok.
Qed.

(** C9: the record has exactly the seven keys, in this order; the value under
    [skills] is a string, the value under [work_experience] is a list, and
    each of its entries is a dictionary with a non-empty string under
    [text]. *)
Theorem record_shape text :
  let record := extract_structured_fields text in
  keys record = record_keys /\
  (exists s, lookup "skills" record = Some (VStr s)) /\
  (exists l, lookup "work_experience" record = Some (VList l) /\
             forallb is_work_entry l = true).
Proof.
  cbv zeta. unfold extract_structured_fields, assemble. repeat split.
  - eexists. reflexivity.
  - eexists. split; [reflexivity|]. apply extract_work_experience_entries.
Qed.

End Records.

(** ** Further properties of the extractors *)

Section MatchSoundness.
Context {U : UnicodeTables}.

Lemma rep_from_lang ic a g rest :
  forall need hi pos prev caps st',
    In st' (rep_from ic a g need hi pos prev rest caps) ->
    exists w,
      rest = w ++ m_rest st' /\
      m_pos st' = (pos + List.length w)%nat /\
      Forall (fun c => atom_match ic a c = true) w /\
      (need <= List.length w)%nat /\
      match hi with Some h => (List.length w <= h)%nat | None => True end.
Proof.
  induction rest as [|c tl IH]; intros need hi pos prev caps st' Hin.
  - simpl in Hin.
    assert (Hh : In st' (match need with O => [MState pos prev [] caps] | S _ => [] end)).
    { destruct g; simpl in Hin; [exact Hin | rewrite app_nil_r in Hin; exact Hin]. }
    destruct need; simpl in Hh; [|contradiction].
    destruct Hh as [<-|[]]. exists []. simpl.
    repeat split; try lia; try (destruct hi; [lia | exact I]); try constructor.
  - simpl in Hin.
    assert (Hor :
      In st' (match need with O => [MState pos prev (c :: tl) caps] | S _ => [] end) \/
      In st' (if may_take hi && atom_match ic a c
              then rep_from ic a g (pred need) (option_map pred hi) (S pos) (Some c) tl caps
              else [])).
    { destruct g; apply in_app_or in Hin; tauto. }
    destruct Hor as [Hh|Hm].
    + destruct need; simpl in Hh; [|contradiction].
      destruct Hh as [<-|[]]. exists []. simpl.
      repeat split; try lia; try (destruct hi; [lia | exact I]); try constructor.
    + destruct (may_take hi) eqn:Et; [|contradiction].
      destruct (atom_match ic a c) eqn:Ea; [|contradiction].
      cbn [andb] in Hm. apply IH in Hm.
      destruct Hm as [w [Hw [Hp [Hall [Hn Hh]]]]].
      exists (c :: w). simpl. rewrite <- Hw, Hp.
      repeat split; try lia; [constructor; assumption|].
      destruct hi as [[|h]|]; simpl in *; try discriminate; try lia; try exact I.
Qed.

(** Whatever the matcher reports was taken from the text, in order, and is
    a text of the pattern. *)
Lemma rmatch_lang ic r :
  forall st st',
    In st' (rmatch ic r st) ->
    exists w,
      m_rest st = w ++ m_rest st' /\
      m_pos st' = (m_pos st + List.length w)%nat /\
      lang ic r w.
Proof.
  induction r; intros st st' Hin; simpl in Hin.
  - destruct Hin as [<-|[]]. exists []. simpl. repeat split; lia.
  - destruct (m_rest st) as [|c tl] eqn:E; [contradiction|].
    destruct (atom_match ic a c) eqn:Ea; [|contradiction].
    destruct Hin as [<-|[]]. exists [c]. simpl.
    repeat split; try lia. exists c. auto.
  - apply rep_from_lang in Hin. destruct Hin as [w [Hw [Hp [Hall [Hn Hh]]]]].
    exists w. simpl. auto.
  - apply in_flat_map in Hin. destruct Hin as [mid [H1 H2]].
    apply IHr1 in H1. apply IHr2 in H2.
    destruct H1 as [w1 [E1 [P1 L1]]]. destruct H2 as [w2 [E2 [P2 L2]]].
    exists (w1 ++ w2). rewrite E1, E2, P2, P1, length_app, app_assoc.
    repeat split; try lia. simpl. exists w1, w2. auto.
  - apply in_app_or in Hin. destruct Hin as [H|H].
    + apply IHr1 in H. destruct H as [w [E [P L]]]. exists w. simpl. auto.
    + apply IHr2 in H. destruct H as [w [E [P L]]]. exists w. simpl. auto.
  - apply in_map_iff in Hin. destruct Hin as [x [<- Hx]].
    apply IHr in Hx. destruct Hx as [w [E [P L]]]. exists w. simpl. auto.
  - destruct (Nat.eqb (m_pos st) 0); [|contradiction].
    destruct Hin as [<-|[]]. exists []. simpl. repeat split; lia.
  - destruct (m_rest st) as [|c [|d tl]] eqn:E; try contradiction.
    + destruct Hin as [<-|[]]. exists []. simpl.
      repeat split; try lia. symmetry. exact E.
    + destruct (c =? 10); [|contradiction]. destruct Hin as [<-|[]].
      exists []. simpl. repeat split; try lia. symmetry. exact E.
  - destruct (xorb _ _); [|contradiction]. destruct Hin as [<-|[]].
    exists []. simpl. repeat split; lia.
  - destruct (rmatch ic r st); [contradiction|].
    destruct Hin as [<-|[]]. exists []. simpl. repeat split; lia.
Qed.

Lemma firstn_taken (w rest : str) (pos : nat) :
  firstn (pos + List.length w - pos) (w ++ rest) = w.
Proof.
  replace (pos + List.length w - pos)%nat with (List.length w + 0)%nat by lia.
  rewrite firstn_app_2. simpl. apply app_nil_r.
Qed.

Lemma match_at_lang ic r pos prev rest st' :
  In st' (rmatch ic r (MState pos prev rest [])) ->
  rest = mt_group0 (match_at pos rest st') ++ m_rest st' /\
  lang ic r (mt_group0 (match_at pos rest st')).
Proof.
  intros Hin. apply rmatch_lang in Hin. destruct Hin as [w [E [P L]]].
  cbn [m_rest m_pos] in E, P. unfold match_at. cbn [mt_group0].
  rewrite P, E, firstn_taken. auto.
Qed.

(** What [re.search] finds lies in the subject and is a text of the
    pattern. *)
Lemma search_go_sound ic r s :
  forall pos prev m,
    search_go ic r pos prev s = Some m ->
    part_of (mt_group0 m) s /\ lang ic r (mt_group0 m).
Proof.
  induction s as [|c tl IH]; intros pos prev m H; cbn [search_go] in H.
  - destruct (rmatch ic r (MState pos prev [] [])) as [|st' l] eqn:E; [discriminate|].
    injection H as <-.
    destruct (match_at_lang ic r pos prev [] st') as [Hs Hl]; [rewrite E; left; reflexivity|].
    split; [|exact Hl]. exists [], (m_rest st'). exact Hs.
  - destruct (rmatch ic r (MState pos prev (c :: tl) [])) as [|st' l] eqn:E.
    + apply IH in H. destruct H as [[pre [post Hs]] Hl]. split; [|exact Hl].
      exists (c :: pre), post. simpl. rewrite Hs. reflexivity.
    + injection H as <-.
      destruct (match_at_lang ic r pos prev (c :: tl) st') as [Hs Hl];
        [rewrite E; left; reflexivity|].
      split; [|exact Hl]. exists [], (m_rest st'). exact Hs.
Qed.

Lemma re_search_sound ic r s m :
  re_search ic r s = Some m ->
  part_of (mt_group0 m) s /\ lang ic r (mt_group0 m).
Proof. apply search_go_sound. Qed.

(** A search finds nothing when no position has a match. *)
Lemma search_go_none ic r s :
  forall pos prev,
    (forall pos' prev' w rest, s = w ++ rest ->
       rmatch ic r (MState pos' prev' rest []) = []) ->
    search_go ic r pos prev s = None.
Proof.
  induction s as [|c tl IH]; intros pos prev Hno; cbn [search_go].
  - rewrite (Hno pos prev [] []) by reflexivity. reflexivity.
  - rewrite (Hno pos prev [] (c :: tl)) by reflexivity. apply IH.
    intros pos' prev' w rest Hs. apply (Hno pos' prev' (c :: w) rest).
    simpl. rewrite Hs. reflexivity.
Qed.

Lemma re_search_requires P ic r s :
  requires P ic r ->
  (forall c, In c s -> P c = false) ->
  re_search ic r s = None.
Proof.
  intros Hreq Hno. apply search_go_none. intros pos' prev' w rest Hs.
  apply (rmatch_requires P); [exact Hreq|].
  simpl. intros c Hc. apply Hno. rewrite Hs. apply in_or_app. right. exact Hc.
Qed.

(** The characters [re.sub] and [re.split] leave outside the matches are
    characters of the subject. *)
Lemma tokens_chars ic r rest :
  forall pos prev skip c,
    In (TChar c) (tokens ic r pos prev rest skip) -> In c rest.
Proof.
  induction rest as [|d tl IH]; intros pos prev skip c Hin.
  - destruct skip; cbn [tokens] in Hin; [|destruct Hin].
    destruct (rmatch ic r (MState pos prev [] [])) as [|st1 l]; [destruct Hin|].
    destruct (advances pos st1).
    + destruct Hin as [H|[]]; discriminate.
    + destruct Hin as [H|Hin]; [discriminate|].
      destruct (filter (advances pos) (st1 :: l)).
      * destruct Hin.
      * destruct Hin as [H|[]]; discriminate.
  - destruct skip as [|k]; cbn [tokens] in Hin.
    + destruct (rmatch ic r (MState pos prev (d :: tl) [])) as [|st1 l].
      * cbn [app] in Hin. destruct Hin as [H|Hin].
        -- injection H as <-. left. reflexivity.
        -- right. eapply IH; eauto.
      * destruct (advances pos st1).
        -- destruct Hin as [H|Hin]; [discriminate|]. right. eapply IH; eauto.
        -- destruct Hin as [H|Hin]; [discriminate|].
           destruct (filter (advances pos) (st1 :: l)).
           ++ cbn [app] in Hin. destruct Hin as [H|Hin].
              ** injection H as <-. left. reflexivity.
              ** right. eapply IH; eauto.
           ++ destruct Hin as [H|Hin]; [discriminate|]. right. eapply IH; eauto.
    + right. eapply IH; eauto.
Qed.

(** A character at which the pattern always fires is never left outside
    the matches. *)
Lemma tokens_fires P ic r rest :
  fires_on P ic r ->
  forall pos prev skip c,
    In (TChar c) (tokens ic r pos prev rest skip) -> P c = false.
Proof.
  intros Hf. induction rest as [|d tl IH]; intros pos prev skip c Hin.
  - apply tokens_chars in Hin. destruct Hin.
  - destruct skip as [|k]; cbn [tokens] in Hin; [|eapply IH; eauto].
    assert (Hd : filter (advances pos) (rmatch ic r (MState pos prev (d :: tl) [])) = [] ->
                 P d = false).
    { intros E. destruct (P d) eqn:Pd; [|reflexivity].
      destruct (Hf pos prev d tl Pd) as [st' [Hin' Ha]].
      assert (Hx : In st' (filter (advances pos)
                             (rmatch ic r (MState pos prev (d :: tl) []))))
        by (apply filter_In; auto).
      rewrite E in Hx. destruct Hx. }
    destruct (rmatch ic r (MState pos prev (d :: tl) [])) as [|st1 l] eqn:E.
    + cbn [app] in Hin. destruct Hin as [H|Hin].
      * injection H as <-. apply Hd. reflexivity.
      * eapply IH; eauto.
    + destruct (advances pos st1) eqn:Ea.
      * destruct Hin as [H|Hin]; [discriminate|]. eapply IH; eauto.
      * destruct Hin as [H|Hin]; [discriminate|].
        destruct (filter (advances pos) (st1 :: l)) eqn:Ef.
        -- cbn [app] in Hin. destruct Hin as [H|Hin].
           ++ injection H as <-. apply Hd. reflexivity.
           ++ eapply IH; eauto.
        -- destruct Hin as [H|Hin]; [discriminate|]. eapply IH; eauto.
Qed.

Lemma re_sub_chars ic r repl s c :
  In c (re_sub ic r repl s) ->
  In c repl \/ In (TChar c) (tokens ic r 0 None s 0).
Proof.
  unfold re_sub. intros Hin. apply in_flat_map in Hin.
  destruct Hin as [t [Ht Hc]]. destruct t as [d|m]; simpl in Hc.
  - destruct Hc as [<-|[]]. right. exact Ht.
  - left. exact Hc.
Qed.

(** [re.sub] only keeps characters of the subject and adds characters of
    the replacement. *)
Lemma re_sub_incl ic r repl s c :
  In c (re_sub ic r repl s) -> In c repl \/ In c s.
Proof.
  intros H. apply re_sub_chars in H. destruct H as [H|H]; [left; exact H|].
  right. eapply tokens_chars; eauto.
Qed.

Lemma re_sub_fires P ic r repl s c :
  fires_on P ic r ->
  In c (re_sub ic r repl s) -> In c repl \/ (In c s /\ P c = false).
Proof.
  intros Hf H. apply re_sub_chars in H. destruct H as [H|H]; [left; exact H|].
  right. split; [eapply tokens_chars; eauto | eapply tokens_fires; eauto].
Qed.

Lemma pieces_chars toks p c :
  In p (pieces toks) -> In c p -> In (TChar c) toks.
Proof.
  revert p. induction toks as [|t tl IH]; intros p Hp Hc.
  - simpl in Hp. destruct Hp as [<-|[]]. destruct Hc.
  - destruct t as [d|m]; cbn [pieces] in Hp.
    + destruct (pieces tl) as [|q qs] eqn:E.
      * destruct Hp as [<-|[]]. destruct Hc as [<-|[]]. left. reflexivity.
      * destruct Hp as [<-|Hp].
        -- destruct Hc as [<-|Hc]; [left; reflexivity|].
           right. apply (IH q); [left; reflexivity | exact Hc].
        -- right. apply (IH p); [right; exact Hp | exact Hc].
    + destruct Hp as [<-|Hp]; [destruct Hc|]. right. eapply IH; eauto.
Qed.

(** The pieces [re.split] returns hold characters of the subject at which
    the pattern does not fire. *)
Lemma re_split_fires P ic r s p c :
  fires_on P ic r ->
  In p (re_split ic r s) -> In c p -> In c s /\ P c = false.
Proof.
  intros Hf Hp Hc. unfold re_split in Hp.
  pose proof (pieces_chars _ _ _ Hp Hc) as Ht.
  split; [eapply tokens_chars; eauto | eapply tokens_fires; eauto].
Qed.

Lemma fires_on_chr P ic a :
  (forall c, P c = true -> atom_match ic a c = true) ->
  fires_on P ic (RChr a).
Proof.
  intros H pos prev c tl Pc. cbn [rmatch m_rest m_pos m_caps].
  rewrite (H c Pc). eexists. split; [left; reflexivity|].
  unfold advances. cbn [m_pos].
  destruct (Nat.eqb (S pos) pos) eqn:E; [apply Nat.eqb_eq in E; lia | reflexivity].
Qed.

Lemma fires_on_plus P ic a :
  (forall c, P c = true -> atom_match ic a c = true) ->
  fires_on P ic (plus a).
Proof.
  intros H pos prev c tl Pc. unfold plus.
  cbn [rmatch rep_from m_rest m_pos m_prev m_caps may_take andb pred option_map].
  rewrite (H c Pc).
  exists (MState (S pos) (Some c) tl []). split.
  - apply in_or_app. left. destruct tl as [|d tl']; cbn [rep_from].
    + left. reflexivity.
    + apply in_or_app. right. left. reflexivity.
  - unfold advances. cbn [m_pos].
    destruct (Nat.eqb (S pos) pos) eqn:E; [apply Nat.eqb_eq in E; lia | reflexivity].
Qed.

End MatchSoundness.

Section TextFacts.
Context {U : UnicodeTables}.

Lemma split_chr_no_sep sep s p : In p (split_chr sep s) -> ~ In sep p.
Proof.
  revert p. induction s as [|c tl IH]; intros p Hp.
  - simpl in Hp. destruct Hp as [<-|[]]. intros [].
  - cbn [split_chr] in Hp. destruct (split_chr sep tl) as [|q qs] eqn:E.
    + destruct Hp as [<-|[]]. exfalso.
      clear IH. destruct tl; simpl in E; [discriminate|].
      destruct (split_chr sep tl); [discriminate|].
      destruct (c0 =? sep); discriminate.
    + destruct (c =? sep) eqn:Ec.
      * destruct Hp as [<-|Hp]; [intros []|]. apply IH. exact Hp.
      * destruct Hp as [<-|Hp].
        -- intros [H|H]; [apply N.eqb_neq in Ec; congruence|].
           apply (IH q); [left; reflexivity | exact H].
        -- apply IH. right. exact Hp.
Qed.

Lemma lstrip_by_all p s : forallb p s = true -> lstrip_by p s = [].
Proof.
  induction s as [|c tl IH]; simpl; [reflexivity|].
  intros H. apply andb_true_iff in H. destruct H as [Hc Ht].
  rewrite Hc. apply IH. exact Ht.
Qed.

Lemma strip_by_all p s : forallb p s = true -> strip_by p s = [].
Proof.
  intros H. unfold strip_by. rewrite (lstrip_by_all p s H). reflexivity.
Qed.

(** A trimmed text that is not empty begins with a character that is not
    trimmed. *)
Lemma strip_by_first p s c tl :
  strip_by p s = c :: tl -> p c = false.
Proof.
  unfold strip_by.
  destruct (lstrip_by_head p s) as [E | [d [tl' [E Hd]]]]; rewrite E.
  - discriminate.
  - rewrite (rstrip_by_cons p d tl' Hd). intros H. injection H as <- _. exact Hd.
Qed.

Lemma strip_by_cons p c s :
  p c = false -> exists tl, strip_by p (c :: s) = c :: tl.
Proof.
  intros Hc. unfold strip_by. cbn [lstrip_by]. rewrite Hc.
  rewrite (rstrip_by_cons p c s Hc). eauto.
Qed.

Lemma clean_lines_facts text line :
  In line (filter nonempty (map strip (split_chr 10 text))) ->
  line <> [] /\ strip line = line /\ ~ In 10 line.
Proof.
  intros H. apply filter_In in H. destruct H as [Hin Hne].
  apply in_map_iff in Hin. destruct Hin as [p [<- Hp]].
  split; [|split].
  - intros E. rewrite E in Hne. discriminate.
  - apply strip_by_idem.
  - intros H. apply strip_by_incl in H. exact (split_chr_no_sep 10 text p Hp H).
Qed.

(** X1: the lines the segmenter returns are non-empty, trimmed and free of
    line breaks. *)
Theorem segment_lines text line :
  In line (segment text) ->
  line <> [] /\ strip line = line /\ ~ In 10 line.
Proof. apply clean_lines_facts. Qed.

Lemma preprocess_text_blank raw :
  forallb is_space raw = true -> preprocess_text raw = [].
Proof.
  intros H. unfold preprocess_text, strip. apply strip_by_all.
  apply forallb_forall. intros c Hc. apply re_sub_incl in Hc.
  destruct Hc as [Hc|Hc].
  - destruct Hc as [<-|[]]. reflexivity.
  - rewrite forallb_forall in H. apply H. exact Hc.
Qed.

(** X2: a document of white space only (or empty) gives the record of
    absent fields. *)
Theorem blank_document_record raw :
  forallb is_space raw = true ->
  extract_structured_fields raw =
  VDict [("name"%string, VNone); ("email"%string, VNone); ("phone"%string, VNone);
         ("location"%string, VNone); ("skills"%string, VStr []);
         ("education"%string, VDict []); ("work_experience"%string, VList [])].
Proof.
  intros H. unfold extract_structured_fields.
  rewrite (preprocess_text_blank raw H). reflexivity.
Qed.

Lemma fires_on_newlines : fires_on (fun c => c =? 13) false re_newlines.
Proof.
  intros pos prev c tl Pc. unfold re_newlines.
  exists (MState (S pos) (Some c) tl []). split.
  - cbn [rmatch]. apply in_or_app. right. apply in_or_app. left.
    cbn [rmatch m_rest m_pos m_caps atom_match andb]. rewrite Pc. left. reflexivity.
  - unfold advances. cbn [m_pos].
    destruct (Nat.eqb (S pos) pos) eqn:E; [apply Nat.eqb_eq in E; lia | reflexivity].
Qed.

Lemma fires_on_punct :
  fires_on (fun c => (c =? 44) || ((c =? 95) || (c =? 38))) false re_punct.
Proof.
  apply fires_on_chr. intros c Hc.
  cbn [atom_match andb existsb item_match i_chr xorb].
  change (chr ",") with 44. change (chr "_") with 95. change (chr "&") with 38.
  rewrite orb_false_r. exact Hc.
Qed.

Lemma fires_on_non_ascii : fires_on (fun c => 128 <=? c) false re_non_ascii.
Proof.
  apply fires_on_plus. intros c Hc.
  cbn [atom_match andb existsb item_match xorb]. rewrite orb_false_r.
  unfold in_range. apply N.leb_le in Hc.
  assert (E : (c <=? 127) = false) by (apply N.leb_gt; lia).
  rewrite E, andb_false_r. reflexivity.
Qed.

(** The characters of a normalized text. *)
Lemma clean_text_chars x c :
  In c (clean_text x) -> c < 128 /\ c <> 13 /\ c <> 44 /\ c <> 95 /\ c <> 38.
Proof.
  intros Hc. unfold clean_text in Hc. cbv zeta in Hc.
  apply strip_by_incl in Hc.
  apply re_sub_incl in Hc. destruct Hc as [Hc|Hc].
  { destruct Hc as [<-|[]]. repeat split; lia. }
  apply (re_sub_fires _ _ _ _ _ _ fires_on_non_ascii) in Hc.
  destruct Hc as [[]|[Hc H8]]. apply N.leb_gt in H8.
  apply re_sub_incl in Hc. destruct Hc as [[]|Hc].
  apply re_sub_incl in Hc. destruct Hc as [[]|Hc].
  apply re_sub_incl in Hc. destruct Hc as [[]|Hc].
  apply (re_sub_fires _ _ _ _ _ _ fires_on_punct) in Hc.
  destruct Hc as [[]|[Hc H6]].
  apply orb_false_iff in H6. destruct H6 as [Ha H6].
  apply orb_false_iff in H6. destruct H6 as [Hb Hd].
  apply N.eqb_neq in Ha. apply N.eqb_neq in Hb. apply N.eqb_neq in Hd.
  apply (re_sub_fires _ _ _ _ _ _ fires_on_newlines) in Hc.
  destruct Hc as [Hc|[_ H5]].
  - destruct Hc as [<-|[]]. repeat split; lia.
  - apply N.eqb_neq in H5. repeat split; assumption.
Qed.

(** X3: whatever the input, the normalized text is trimmed, is pure ASCII
    and holds no carriage return, comma, underscore or ampersand. *)
Theorem clean_text_output x :
  strip (clean_text x) = clean_text x /\
  forall c, In c (clean_text x) ->
            c < 128 /\ c <> 13 /\ c <> 44 /\ c <> 95 /\ c <> 38.
Proof.
  split; [unfold clean_text, strip; apply strip_by_idem|].
  apply clean_text_chars.
Qed.

End TextFacts.

Section ContactFacts.
Context {U : UnicodeTables}.

(** The characters of an address: [[\w\.-]]. *)
Lemma atom_match_mail c :
  atom_match false a_mail c = is_word c || (c =? 46) || (c =? 45).
Proof.
  cbn [atom_match a_mail andb existsb item_match i_chr xorb].
  change (chr ".") with 46. change (chr "-") with 45.
  rewrite orb_false_r, orb_assoc. reflexivity.
Qed.

(** X4: an address that [extract_email] returns lies in the text and is
    made of a non-empty local part, an [@] and a non-empty domain, each of
    word characters, dots and dashes. *)
Theorem extract_email_shape text e :
  extract_email text = Some e ->
  part_of e text /\
  exists local domain,
    e = local ++ 64 :: domain /\ local <> [] /\ domain <> [] /\
    Forall (fun c => is_word c || (c =? 46) || (c =? 45) = true) (local ++ domain).
Proof.
  unfold extract_email. intros H.
  destruct (re_search false re_email text) as [m|] eqn:E; [|discriminate].
  injection H as <-. apply re_search_sound in E. destruct E as [Hs Hl].
  split; [exact Hs|].
  unfold re_email, lit in Hl. cbn [py lang lit_str] in Hl.
  destruct Hl as [w1 [w2 [-> [[F1 [L1 _]] [w3 [w4 [-> [Hat [F4 [L4 _]]]]]]]]]].
  destruct Hat as [a1 [a2 [-> [[c [-> Hc]] ->]]]].
  cbn [atom_match andb] in Hc. apply N.eqb_eq in Hc. subst c.
  exists w1, w4. cbn [app]. repeat split.
  - intros ->. simpl in L1. lia.
  - intros ->. simpl in L4. lia.
  - apply Forall_app. split; eapply Forall_impl; eauto;
      intros c Hc; cbv beta in Hc; rewrite atom_match_mail in Hc; exact Hc.
Qed.

(** X5: a text without [@] has no address. *)
Theorem extract_email_needs_at text :
  ~ In 64 text -> extract_email text = None.
Proof.
  intros H. unfold extract_email.
  rewrite (re_search_requires (fun c => c =? 64) false re_email text).
  - reflexivity.
  - unfold re_email, lit. cbn [py lit_str requires]. right. left. left.
    intros ch Hc. exact Hc.
  - intros c Hc. apply N.eqb_neq. intros ->. apply H. exact Hc.
Qed.

Lemma atom_match_digit c : atom_match false a_digit c = uni_isdecimal c.
Proof.
  cbn [atom_match a_digit andb existsb item_match xorb]. apply orb_false_r.
Qed.

(** X6: a number that [extract_phone] returns lies in the text and is made
    of groups of three, three and four decimal digits, with at most one
    character before, and at most one between, the groups: ten to fourteen
    characters in all. *)
Theorem extract_phone_shape text p :
  extract_phone text = Some p ->
  part_of p text /\
  (10 <= List.length p <= 14)%nat /\
  exists o1 area o2 o3 mid o4 last,
    p = o1 ++ area ++ o2 ++ o3 ++ mid ++ o4 ++ last /\
    List.length area = 3%nat /\ List.length mid = 3%nat /\ List.length last = 4%nat /\
    Forall (fun c => uni_isdecimal c = true) (area ++ mid ++ last) /\
    (List.length o1 <= 1)%nat /\ (List.length o2 <= 1)%nat /\
    (List.length o3 <= 1)%nat /\ (List.length o4 <= 1)%nat.
Proof.
  unfold extract_phone. intros H.
  destruct (re_search false re_phone text) as [m|] eqn:E; [|discriminate].
  injection H as <-. apply re_search_sound in E. destruct E as [Hs Hl].
  split; [exact Hs|].
  unfold re_phone, opt, times in Hl. cbn [lang] in Hl.
  destruct Hl as [o1 [r1 [-> [[_ [_ B1]] Hl]]]].
  destruct Hl as [area [r2 [-> [[Fa [La Ua]] Hl]]]].
  destruct Hl as [o2 [r3 [-> [[_ [_ B2]] Hl]]]].
  destruct Hl as [o3 [r4 [-> [[_ [_ B3]] Hl]]]].
  destruct Hl as [mid [r5 [-> [[Fm [Lm Um]] Hl]]]].
  destruct Hl as [o4 [last [-> [[_ [_ B4]] [Fl [Ll Ul]]]]]].
  split.
  - rewrite !length_app. lia.
  - exists o1, area, o2, o3, mid, o4, last.
    repeat split; try lia.
    repeat (apply Forall_app; split);
      eapply Forall_impl; eauto; intros c Hc; cbv beta in Hc;
      rewrite atom_match_digit in Hc; exact Hc.
Qed.

Lemma part_of_In w s c : part_of w s -> In c w -> In c s.
Proof.
  intros [pre [post ->]] H. apply in_or_app. right. apply in_or_app. left. exact H.
Qed.

(** X7: a location that [extract_location] returns is one of the lines,
    trimmed, and that line holds a comma; lines without a comma give no
    location. *)
Theorem extract_location_line lines :
  (forall l, extract_location lines = Some l ->
             exists line, In line lines /\ l = strip line /\ In 44 line) /\
  ((forall line, In line lines -> ~ In 44 line) -> extract_location lines = None).
Proof.
  split.
  - induction lines as [|line tl IH]; intros l H; cbn [extract_location] in H;
      [discriminate|].
    destruct (re_search false re_city_state line) as [m|] eqn:E; cbn [is_some] in H.
    + injection H as <-. exists line. split; [left; reflexivity|].
      split; [reflexivity|].
      apply re_search_sound in E. destruct E as [Hs Hl].
      apply (part_of_In _ _ _ Hs).
      unfold re_city_state, lit in Hl. cbn [py lang lit_str] in Hl.
      destruct Hl as [w0 [r0 [-> [_ Hl]]]].
      destruct Hl as [w1 [r1 [-> [_ Hl]]]].
      destruct Hl as [w2 [r2 [-> [_ Hl]]]].
      destruct Hl as [w3 [r3 [-> [Hc _]]]].
      destruct Hc as [a1 [a2 [-> [[c [-> Hc]] ->]]]].
      cbn [atom_match andb] in Hc. apply N.eqb_eq in Hc. subst c.
      apply in_or_app. right. apply in_or_app. right. apply in_or_app. right.
      apply in_or_app. left. left. reflexivity.
    + destruct (IH l H) as [line' [Hin Hrest]]. exists line'.
      split; [right; exact Hin | exact Hrest].
  - induction lines as [|line tl IH]; intros Hno; [reflexivity|].
    cbn [extract_location].
    rewrite (re_search_requires (fun c => c =? 44) false re_city_state line).
    + cbn [is_some]. apply IH. intros l Hl. apply Hno. right. exact Hl.
    + unfold re_city_state, lit. cbn [py lit_str requires].
      right. right. right. left. left. intros ch Hc. exact Hc.
    + intros c Hc. apply N.eqb_neq. intros ->. apply (Hno line); [left; reflexivity | exact Hc].
Qed.

End ContactFacts.

Section NameFacts.
Context {U : UnicodeTables}.

Lemma ascii_letter_not_space c : 65 <= c <= 122 -> is_space c = false.
Proof.
  intros H. unfold is_space.
  repeat match goal with
  | |- _ || _ = false => apply orb_false_iff; split
  | |- _ && _ = false => apply andb_false_iff
  end;
  try (apply N.eqb_neq; lia);
  try (left; apply N.leb_gt; lia);
  try (right; apply N.leb_gt; lia).
Qed.

Lemma atom_match_upper c : atom_match false a_upper c = true -> is_space c = false.
Proof.
  cbn [atom_match a_upper andb existsb item_match xorb]. rewrite orb_false_r.
  unfold in_range. intros H. apply andb_true_iff in H. destruct H as [H1 H2].
  apply N.leb_le in H1. apply N.leb_le in H2. apply ascii_letter_not_space. lia.
Qed.

Lemma atom_match_lower c : atom_match false a_lower c = true -> is_space c = false.
Proof.
  cbn [atom_match a_lower andb existsb item_match xorb]. rewrite orb_false_r.
  unfold in_range. intros H. apply andb_true_iff in H. destruct H as [H1 H2].
  apply N.leb_le in H1. apply N.leb_le in H2. apply ascii_letter_not_space. lia.
Qed.

Lemma lstrip_by_keep p c s : p c = false -> lstrip_by p (c :: s) = c :: s.
Proof. intros H. simpl. rewrite H. reflexivity. Qed.

(** A text whose first and last characters are not trimmed is left as it
    is. *)
Lemma strip_by_ends p c mid z :
  p c = false -> p z = false -> strip_by p (c :: mid ++ [z]) = c :: mid ++ [z].
Proof.
  intros Hc Hz. unfold strip_by, rstrip_by.
  rewrite (lstrip_by_keep p c (mid ++ [z]) Hc).
  assert (E : rev (c :: mid ++ [z]) = z :: rev (c :: mid)).
  { change (c :: mid ++ [z]) with ((c :: mid) ++ [z]).
    rewrite rev_app_distr. reflexivity. }
  rewrite E, (lstrip_by_keep p z _ Hz).
  change (z :: rev (c :: mid)) with ([z] ++ rev (c :: mid)).
  rewrite rev_app_distr, rev_involutive. reflexivity.
Qed.

(** The group of a pattern [^( ... )$] holds a text of what stands between
    the parentheses. *)
Lemma anchored_group ic inner st st' :
  In st' (rmatch ic (RBol ;; RGroup 1 inner ;; REol) st) ->
  exists w, assoc_nat 1 (m_caps st') = Some w /\ lang ic inner w.
Proof.
  cbn [rmatch]. intros Hin.
  apply in_flat_map in Hin. destruct Hin as [st0 [H0 Hin]].
  apply in_flat_map in Hin. destruct Hin as [st1 [H1 Hin]].
  apply in_map_iff in H1. destruct H1 as [st2 [<- H2]].
  apply rmatch_lang in H2. destruct H2 as [w [E [P L]]].
  exists w. split; [|exact L].
  assert (Hc : forall x, In st' (match m_rest x with
                                 | [] => [x]
                                 | [c] => if c =? 10 then [x] else []
                                 | _ => []
                                 end) -> m_caps st' = m_caps x).
  { intros x Hx.
    destruct (m_rest x) as [|c [|d tl]]; try contradiction.
    - destruct Hx as [<-|[]]. reflexivity.
    - destruct (c =? 10); [|contradiction]. destruct Hx as [<-|[]]. reflexivity. }
  rewrite (Hc _ Hin). cbn [m_caps assoc_nat Nat.eqb].
  rewrite P, E, firstn_taken. reflexivity.
Qed.

Lemma two_words_trimmed w :
  lang false
    (RChr a_upper ;; plus a_lower ;; plus a_space ;; RChr a_upper ;; plus a_lower) w ->
  strip w = w.
Proof.
  cbn [lang plus]. intros H.
  destruct H as [w1 [r1 [-> [[c [-> Hc]] H]]]].
  destruct H as [w2 [r2 [-> [_ H]]]].
  destruct H as [w3 [r3 [-> [_ H]]]].
  destruct H as [w4 [w5 [-> [_ [F5 [L5 _]]]]]].
  destruct (exists_last (l := w5)) as [w5' [z ->]];
    [intros ->; simpl in L5; lia|].
  apply Forall_app in F5. destruct F5 as [_ Fz]. inversion Fz as [|? ? Hz _]; subst.
  apply atom_match_upper in Hc. apply atom_match_lower in Hz.
  cbn [app]. unfold strip.
  replace (c :: w2 ++ w3 ++ w4 ++ w5' ++ [z])
    with (c :: (w2 ++ w3 ++ w4 ++ w5') ++ [z])
    by (rewrite <- !app_assoc; reflexivity).
  apply strip_by_ends; assumption.
Qed.

Lemma name_by_shape_trimmed lines n :
  name_by_shape lines = Some n -> strip n = n.
Proof.
  induction lines as [|line tl IH]; cbn [name_by_shape]; [discriminate|].
  unfold re_match.
  destruct (rmatch false re_two_words (MState 0 None (strip line) [])) as [|st' l] eqn:E.
  - exact IH.
  - intros H. unfold group, match_at in H. cbn [mt_caps] in H.
    destruct (anchored_group false
                (RChr a_upper ;; plus a_lower ;; plus a_space ;; RChr a_upper ;; plus a_lower)
                (MState 0 None (strip line) []) st') as [w [Hw Hl]];
      [unfold re_two_words in E; rewrite E; left; reflexivity|].
    rewrite Hw in H. injection H as <-. apply two_words_trimmed. exact Hl.
Qed.

Lemma name_by_label_trimmed lines n :
  name_by_label lines = Some n -> strip n = n.
Proof.
  induction lines as [|line tl IH]; cbn [name_by_label]; [discriminate|].
  destruct (is_some (re_match true re_name_label line)); [|exact IH].
  intros H. injection H as <-. apply strip_by_idem.
Qed.

(** X8: a name that [extract_name] returns, by whichever rule, has no white
    space at either end. *)
Theorem extract_name_trimmed lines n :
  extract_name lines = Some n -> strip n = n.
Proof.
  unfold extract_name.
  destruct (name_by_label lines) as [a|] eqn:E1.
  { intros H. injection H as <-. eapply name_by_label_trimmed; eauto. }
  destruct (name_by_first_line lines) as [b|] eqn:E2.
  { intros H. injection H as <-. unfold name_by_first_line in E2.
    destruct lines as [|first_line tl]; [discriminate|].
    destruct (negb _); [|discriminate]. injection E2 as <-. apply strip_by_idem. }
  apply name_by_shape_trimmed.
Qed.

Lemma occurs_false_suffix ic kw w rest :
  occurs ic kw (w ++ rest) = false -> prefix_match ic kw rest = false.
Proof.
  intros H. destruct (prefix_match ic kw rest) eqn:E; [|reflexivity].
  rewrite (occurs_suffix ic kw w rest E) in H. discriminate.
Qed.

Lemma rmatch_lit_absent ic kw s w rest pos prev :
  occurs ic kw s = false -> s = w ++ rest ->
  rmatch ic (lit_str kw) (MState pos prev rest []) = [].
Proof.
  intros H ->. rewrite rmatch_lit. cbn [m_rest].
  rewrite (occurs_false_suffix ic kw w rest H). reflexivity.
Qed.

Lemma name_by_label_none lines :
  Forall (fun l => label_line l = false) lines -> name_by_label lines = None.
Proof.
  induction 1 as [|l tl Hl _ IH]; [reflexivity|].
  cbn [name_by_label]. unfold label_line in Hl. rewrite Hl. exact IH.
Qed.

(** X9: when the first line holds no [@], no [http], no [www] and no
    decimal digit, a name is always returned; it is that line, trimmed,
    unless some line carries a name label. *)
Theorem extract_name_first_line first_line rest :
  ~ In 64 first_line ->
  occurs false (py "http") first_line = false ->
  occurs false (py "www") first_line = false ->
  (forall c, In c first_line -> uni_isdecimal c = false) ->
  exists n,
    extract_name (first_line :: rest) = Some n /\
    (Forall (fun l => label_line l = false) (first_line :: rest) ->
     n = strip first_line).
Proof.
  intros Hat Hh Hw Hd.
  assert (Hs : re_search false re_not_a_name first_line = None).
  { apply search_go_none. intros pos' prev' w r E.
    unfold re_not_a_name, lit. cbn [rmatch].
    rewrite (rmatch_lit_absent false (py "http") first_line w r pos' prev' Hh E).
    rewrite (rmatch_lit_absent false (py "www") first_line w r pos' prev' Hw E).
    assert (Ha : occurs false [64] first_line = false).
    { clear -Hat. induction first_line as [|c tl IH]; [reflexivity|].
      cbn [occurs prefix_match atom_match andb].
      rewrite IH by (intros H; apply Hat; right; exact H).
      destruct (c =? 64) eqn:Ec; [|reflexivity].
      apply N.eqb_eq in Ec. exfalso. apply Hat. left. auto. }
    rewrite (rmatch_lit_absent false (py "@") first_line w r pos' prev' Ha E).
    cbn [app m_rest]. destruct r as [|c tl]; [reflexivity|].
    rewrite atom_match_digit, (Hd c); [reflexivity|].
    rewrite E. apply in_or_app. right. left. reflexivity. }
  unfold extract_name, name_by_first_line. rewrite Hs. cbn [is_some negb].
  destruct (name_by_label (first_line :: rest)) as [a|] eqn:E.
  - exists a. split; [reflexivity|]. intros Hl.
    rewrite (name_by_label_none _ Hl) in E. discriminate.
  - exists (strip first_line). split; [reflexivity | reflexivity].
Qed.

Lemma tokens_skip_over ic r w :
  forall rest pos prev,
    tokens ic r pos prev (w ++ rest) (List.length w) =
    tokens ic r (pos + List.length w) (prev_after prev w) rest 0.
Proof.
  induction w as [|c w IH]; intros rest pos prev.
  - simpl. rewrite Nat.add_0_r. reflexivity.
  - cbn [List.length app tokens]. rewrite IH. cbn [prev_after fold_left].
    rewrite <- plus_n_Sm. reflexivity.
Qed.

(** Away from the start of the text, a pattern that begins with [^] finds
    nothing. *)
Lemma tokens_bol_rest ic r s :
  forall pos prev, (0 < pos)%nat -> tokens ic (RBol ;; r) pos prev s 0 = map TChar s.
Proof.
  induction s as [|c tl IH]; intros pos prev H.
  - apply tokens_bol_end. exact H.
  - cbn [tokens rmatch m_pos]. destruct pos; [lia|].
    cbn [Nat.eqb flat_map app map]. f_equal. apply IH. lia.
Qed.

Lemma prefix_match_app ic kw :
  forall nm rest, prefix_match ic kw nm = true -> prefix_match ic kw (nm ++ rest) = true.
Proof.
  induction kw as [|k kw IH]; intros nm rest H; [reflexivity|].
  destruct nm as [|c nm]; [discriminate|]. cbn [app prefix_match] in *.
  apply andb_true_iff in H. destruct H as [Hc H]. rewrite Hc. apply IH. exact H.
Qed.

(** The longer label pattern takes the label and the white space after
    it. *)
Lemma label_match_head nm ws1 sep tail :
  prefix_match true (py "name") nm = true ->
  List.length nm = 4%nat ->
  forallb is_space ws1 = true ->
  ((sep =? chr ":") || (sep =? chr "-")) = true ->
  let line := nm ++ ws1 ++ sep :: tail in
  rmatch true re_name_label (MState 0 None line []) <> [] /\
  exists stE others taken,
    rmatch true re_name_label_ws (MState 0 None line []) = stE :: others /\
    line = taken ++ lstrip_by is_space tail /\
    m_pos stE = List.length taken /\ taken <> [].
Proof.
  intros Hp Hn H1 Hs line.
  assert (Hv : (match lstrip_by is_space tail with
                | [] => true | c :: _ => negb (is_space c) end) = true).
  { destruct (lstrip_by_head is_space tail) as [E | [c [tl [E Hc]]]];
      rewrite E; [reflexivity | rewrite Hc; reflexivity]. }
  destruct (lstrip_by_split is_space tail) as [ws2 [Et H2]].
  remember (lstrip_by is_space tail) as v eqn:Ev.
  subst tail.
  pose proof (label_sep_match sep Hs) as Hm.
  pose proof (label_sep_not_space sep Hs) as Hnsp.
  assert (Hpl : prefix_match true (py "name") line = true)
    by (apply prefix_match_app; exact Hp).
  assert (Hsk : skipn 4 line = ws1 ++ sep :: (ws2 ++ v)).
  { subst line. rewrite <- Hn. rewrite skipn_app, Nat.sub_diag, skipn_all. reflexivity. }
  destruct (greedy_space_run true ws1 (sep :: (ws2 ++ v)) 4 (prev_after None (firstn 4 line)) []
              H1 ltac:(simpl; rewrite Hnsp; reflexivity)) as [o1 E1].
  split.
  - unfold re_name_label, lit, set_of. cbn [rmatch m_pos Nat.eqb flat_map].
    rewrite app_nil_r, rmatch_lit. cbn [m_rest m_pos m_prev m_caps]. rewrite Hpl.
    change (List.length (py "name")) with 4%nat. cbn [flat_map Nat.add].
    rewrite app_nil_r, Hsk. unfold star. cbn [rmatch m_rest m_pos m_prev m_caps].
    rewrite E1. cbn [flat_map rmatch m_rest]. rewrite Hm. discriminate.
  - destruct (greedy_space_run true ws2 v (S (4 + List.length ws1)) (Some sep) []
                H2 Hv) as [o2 E2].
    unfold re_name_label_ws, lit, set_of. cbn [rmatch m_pos Nat.eqb flat_map].
    rewrite app_nil_r, rmatch_lit. cbn [m_rest m_pos m_prev m_caps]. rewrite Hpl.
    change (List.length (py "name")) with 4%nat. cbn [flat_map Nat.add].
    rewrite app_nil_r, Hsk. unfold star. cbn [rmatch m_rest m_pos m_prev m_caps].
    rewrite E1. cbn [flat_map rmatch m_rest m_pos m_prev m_caps]. rewrite Hm.
    cbn [flat_map rmatch m_rest m_pos m_prev m_caps].
    match goal with
    | |- context [rep_from true a_space true 0 None ?p ?pv ?r ?c] =>
        rewrite (E2 : rep_from true a_space true 0 None p pv r c = _)
    end. cbn [app].
    eexists. eexists. exists (nm ++ ws1 ++ sep :: ws2).
    split; [reflexivity|]. split; [|split].
    + subst line. rewrite <- !app_assoc. reflexivity.
    + cbn [m_pos]. rewrite !length_app. cbn [List.length]. lia.
    + destruct nm; [discriminate | discriminate].
Qed.

Lemma strip_lstrip p s : strip_by p (lstrip_by p s) = strip_by p s.
Proof. unfold strip_by. rewrite lstrip_by_idem. reflexivity. Qed.

(** X10: on the first line that carries a name label, the name is what
    follows the label, trimmed. *)
Theorem extract_name_label_value pre nm ws1 sep tail post :
  Forall (fun l => label_line l = false) pre ->
  prefix_match true (py "name") nm = true ->
  List.length nm = 4%nat ->
  forallb is_space ws1 = true ->
  ((sep =? chr ":") || (sep =? chr "-")) = true ->
  extract_name (pre ++ (nm ++ ws1 ++ sep :: tail) :: post) = Some (strip tail).
Proof.
  intros Hpre Hp Hn H1 Hs.
  destruct (label_match_head nm ws1 sep tail Hp Hn H1 Hs)
    as [Hne [stE [others [taken [E [El [Epos Ht]]]]]]].
  set (line := nm ++ ws1 ++ sep :: tail) in *.
  assert (Hsub : re_sub true re_name_label_ws [] line = lstrip_by is_space tail).
  { unfold re_sub. destruct taken as [|c taken']; [contradiction|].
    cbn [app] in El. rewrite El. cbn [tokens]. rewrite <- El, E.
    unfold advances. rewrite Epos. cbn [List.length Nat.eqb negb flat_map render app].
    rewrite Nat.sub_0_r. cbn [Nat.sub]. rewrite Nat.sub_0_r.
    rewrite tokens_skip_over. unfold re_name_label_ws.
    rewrite tokens_bol_rest by lia. apply render_chars. }
  unfold extract_name.
  assert (Hl : name_by_label (pre ++ line :: post) = Some (strip tail)).
  { clear -Hpre Hne Hsub. induction Hpre as [|l pre Hl _ IH]; cbn [app name_by_label].
    - unfold re_match.
      destruct (rmatch true re_name_label (MState 0 None line [])); [contradiction|].
      cbn [is_some]. rewrite Hsub. unfold strip. rewrite strip_lstrip. reflexivity.
    - unfold label_line in Hl. rewrite Hl. exact IH. }
  rewrite Hl. reflexivity.
Qed.

End NameFacts.

Section SectionSpan.
Context {U : UnicodeTables}.

Lemma prev_after_snoc prev a c : prev_after prev (a ++ [c]) = Some c.
Proof. unfold prev_after. rewrite fold_left_app. reflexivity. Qed.

Lemma prefix_match_length ic kw :
  forall s, prefix_match ic kw s = true -> (List.length kw <= List.length s)%nat.
Proof.
  induction kw as [|k kw IH]; intros s H; [simpl; lia|].
  destruct s as [|c s]; [discriminate|]. cbn [prefix_match] in H.
  apply andb_true_iff in H. destruct H as [_ H]. apply IH in H. simpl. lia.
Qed.

(** The first position at which a search finds a match, and the match it
    reports there. *)
Lemma search_go_first ic r s :
  forall pos prev m,
    search_go ic r pos prev s = Some m ->
    exists pre rest st' l,
      s = pre ++ rest /\
      rmatch ic r (MState (pos + List.length pre) (prev_after prev pre) rest []) = st' :: l /\
      m = match_at (pos + List.length pre) rest st' /\
      forall a b, pre = a ++ b -> b <> [] ->
        rmatch ic r (MState (pos + List.length a) (prev_after prev a) (b ++ rest) []) = [].
Proof.
  induction s as [|c tl IH]; intros pos prev m H; cbn [search_go] in H.
  - destruct (rmatch ic r (MState pos prev [] [])) as [|st' l] eqn:E; [discriminate|].
    injection H as <-. exists [], [], st', l. cbn [List.length app prev_after fold_left].
    rewrite Nat.add_0_r. repeat split; auto.
    intros a b Hab Hb. destruct a; destruct b; try discriminate. contradiction.
  - destruct (rmatch ic r (MState pos prev (c :: tl) [])) as [|st' l] eqn:E.
    + apply IH in H. destruct H as [pre [rest [st' [l [Hs [Hm [Hmt Hno]]]]]]].
      exists (c :: pre), rest, st', l. cbn [List.length app prev_after fold_left].
      rewrite <- plus_n_Sm. repeat split; auto.
      * rewrite Hs. reflexivity.
      * intros a b Hab Hb. destruct a as [|d a].
        -- cbn [app List.length prev_after fold_left] in *. subst b.
           rewrite Nat.add_0_r. cbn [app]. rewrite <- Hs. exact E.
        -- cbn [app] in Hab. injection Hab as <- Hab.
           cbn [List.length prev_after fold_left]. rewrite <- plus_n_Sm.
           apply (Hno a b Hab Hb).
    + injection H as <-. exists [], (c :: tl), st', l.
      cbn [List.length app prev_after fold_left]. rewrite Nat.add_0_r.
      repeat split; auto.
      intros a b Hab Hb. destruct a; destruct b; try discriminate. contradiction.
Qed.

Lemma lazy_any_unfold ic pos prev rest caps :
  rep_from ic a_any false 0 None pos prev rest caps =
  MState pos prev rest caps ::
  match rest with
  | c :: tl => rep_from ic a_any false 0 None (S pos) (Some c) tl caps
  | [] => []
  end.
Proof.
  destruct rest as [|c tl]; cbn [rep_from]; [reflexivity|].
  rewrite atom_match_any. reflexivity.
Qed.

Lemma rmatch_alts ic rs st :
  rmatch ic (fold_right RAlt REol rs) st =
  flat_map (fun r => rmatch ic r st) rs ++ rmatch ic REol st.
Proof.
  induction rs as [|r rs IH]; [reflexivity|].
  cbn [fold_right rmatch flat_map]. rewrite IH, app_assoc. reflexivity.
Qed.

Lemma stop_alt_caps ic ends st st' :
  In st' (rmatch ic (stop_alt ends) st) -> m_caps st' = m_caps st.
Proof.
  unfold stop_alt. rewrite rmatch_alts. intros H. apply in_app_or in H.
  assert (Heol : In st' (rmatch ic REol st) -> m_caps st' = m_caps st).
  { cbn [rmatch]. intros Hx. destruct (m_rest st) as [|c [|d tl]]; try contradiction.
    - destruct Hx as [<-|[]]. reflexivity.
    - destruct (c =? 10); [|contradiction]. destruct Hx as [<-|[]]. reflexivity. }
  destruct H as [H|H]; [|auto].
  apply in_flat_map in H. destruct H as [r [Hr Hin]].
  destruct ends as [|e ends'].
  - destruct Hr as [<-|[]]. destruct Hin as [<-|[]]. reflexivity.
  - apply in_map_iff in Hr. destruct Hr as [kw [<- _]].
    rewrite rmatch_lit in Hin. destruct (prefix_match ic kw (m_rest st)); [|destruct Hin].
    destruct Hin as [<-|[]]. reflexivity.
Qed.

(** The stop alternatives fail where no stop keyword begins. *)
Lemma stop_alt_none ic ends st e :
  rmatch ic (stop_alt ends) st = [] -> In e ends ->
  prefix_match ic e (m_rest st) = false.
Proof.
  unfold stop_alt. rewrite rmatch_alts. intros H He.
  apply app_eq_nil in H. destruct H as [H _].
  destruct ends as [|e0 ends']; [destruct He|].
  destruct (prefix_match ic e (m_rest st)) eqn:E; [|reflexivity].
  exfalso.
  assert (Hin : In (MState (m_pos st + List.length e)
                      (prev_after (m_prev st) (firstn (List.length e) (m_rest st)))
                      (skipn (List.length e) (m_rest st)) (m_caps st))
                   (flat_map (fun r => rmatch ic r st) (map lit_str (e0 :: ends')))).
  { apply in_flat_map. exists (lit_str e). split; [apply in_map; exact He|].
    rewrite rmatch_lit, E. left. reflexivity. }
  rewrite H in Hin. destruct Hin.
Qed.

(** They succeed only at a stop keyword or at the end of the text (before a
    last line break at most); with no keyword at all they succeed
    everywhere. *)
Lemma stop_alt_some ic ends st :
  rmatch ic (stop_alt ends) st <> [] ->
  ends = [] \/
  (exists e, In e ends /\ prefix_match ic e (m_rest st) = true) \/
  m_rest st = [] \/ m_rest st = [10].
Proof.
  unfold stop_alt. rewrite rmatch_alts. intros H.
  destruct ends as [|e0 ends']; [left; reflexivity|]. right.
  destruct (flat_map (fun r => rmatch ic r st) (map lit_str (e0 :: ends')))
    as [|x xs] eqn:E.
  - right. cbn [app rmatch] in H.
    destruct (m_rest st) as [|c [|d tl]]; [left; reflexivity | | contradiction].
    destruct (c =? 10) eqn:Ec; [|contradiction].
    apply N.eqb_eq in Ec. subst c. right. reflexivity.
  - left. assert (Hin : In x (flat_map (fun r => rmatch ic r st) (map lit_str (e0 :: ends'))))
      by (rewrite E; left; reflexivity).
    apply in_flat_map in Hin. destruct Hin as [r [Hr Hin]].
    apply in_map_iff in Hr. destruct Hr as [kw [<- Hkw]].
    exists kw. split; [exact Hkw|].
    rewrite rmatch_lit in Hin. destruct (prefix_match ic kw (m_rest st));
      [reflexivity | destruct Hin].
Qed.

(** How the lazy span and the stop alternatives share the text after the
    start keyword: the span is the shortest one after which the stop
    alternatives succeed. *)
Lemma lazy_span_first ic ends p1 pv1 caps1 st' l b :
  forall a,
    flat_map (rmatch ic (stop_alt ends))
      (map (fun st'' =>
              MState (m_pos st'') (m_prev st'') (m_rest st'')
                ((1%nat, firstn (m_pos st'' - p1) (a ++ b)) :: m_caps st''))
           (rep_from ic a_any false 0 None (p1 + List.length a) (prev_after pv1 a) b caps1))
    = st' :: l ->
    exists span post,
      b = span ++ post /\
      m_caps st' = (1%nat, a ++ span) :: caps1 /\
      rmatch ic (stop_alt ends)
        (MState (p1 + List.length (a ++ span)) (prev_after pv1 (a ++ span)) post
           ((1%nat, a ++ span) :: caps1)) <> [] /\
      forall s1 s2, span = s1 ++ s2 -> s2 <> [] ->
        rmatch ic (stop_alt ends)
          (MState (p1 + List.length (a ++ s1)) (prev_after pv1 (a ++ s1)) (s2 ++ post)
             ((1%nat, a ++ s1) :: caps1)) = [].
Proof.
  induction b as [|c tl IH]; intros a H; rewrite lazy_any_unfold in H;
    cbn [map flat_map m_pos m_prev m_rest m_caps] in H;
    rewrite firstn_taken in H.
  - rewrite app_nil_r in H.
    exists [], []. rewrite !app_nil_r. repeat split.
    + assert (Hin : In st' (st' :: l)) by (left; reflexivity). rewrite <- H in Hin.
      apply stop_alt_caps in Hin. exact Hin.
    + rewrite H. discriminate.
    + intros s1 s2 E Hs2. destruct s1; destruct s2; try discriminate. contradiction.
  - destruct (rmatch ic (stop_alt ends)
                (MState (p1 + List.length a) (prev_after pv1 a) (c :: tl)
                   ((1%nat, a) :: caps1))) as [|x xs] eqn:E.
    + cbn [app] in H.
      replace (a ++ c :: tl) with ((a ++ [c]) ++ tl) in H
        by (rewrite <- app_assoc; reflexivity).
      replace (S (p1 + List.length a)) with (p1 + List.length (a ++ [c]))%nat in H
        by (rewrite length_app; simpl; lia).
      rewrite <- (prev_after_snoc pv1 a c) in H.
      destruct (IH (a ++ [c]) H) as [span [post [Hb [Hc [Hne Hmin]]]]].
      exists (c :: span), post.
      replace (a ++ c :: span) with ((a ++ [c]) ++ span)
        by (rewrite <- app_assoc; reflexivity).
      repeat split; auto.
      * rewrite Hb. reflexivity.
      * intros s1 s2 Es Hs2. destruct s1 as [|d s1].
        -- rewrite app_nil_r. cbn [app] in Es. subst s2. cbn [app].
           rewrite <- Hb. exact E.
        -- cbn [app] in Es. injection Es as <- Es.
           replace (a ++ c :: s1) with ((a ++ [c]) ++ s1)
             by (rewrite <- app_assoc; reflexivity).
           apply Hmin; assumption.
    + cbn [app] in H. injection H as <- _.
      exists [], (c :: tl). rewrite !app_nil_r. repeat split.
      * assert (Hin : In x (x :: xs)) by (left; reflexivity). rewrite <- E in Hin.
        apply stop_alt_caps in Hin. exact Hin.
      * rewrite E. discriminate.
      * intros s1 s2 Es Hs2. destruct s1; destruct s2; try discriminate. contradiction.
Qed.

(** X11: what [extract_section] returns for keywords that read as literal
    words.  The section starts after the first occurrence of the start
    keyword (in any case) and runs up to the first place where a stop
    keyword begins, or to the end of the text when there is none; it is
    returned trimmed. *)
Theorem extract_section_span text start ends g :
  literal_keyword start = true ->
  forallb literal_keyword ends = true ->
  ends <> [] ->
  extract_section text start ends = Some g ->
  exists pre kw span post,
    text = pre ++ kw ++ span ++ post /\
    List.length kw = List.length start /\
    prefix_match true start (kw ++ span ++ post) = true /\
    (forall a b, pre = a ++ b -> b <> [] ->
       prefix_match true start (b ++ kw ++ span ++ post) = false) /\
    g = strip span /\
    (forall s1 s2 e, span = s1 ++ s2 -> s2 <> [] -> In e ends ->
       prefix_match true e (s2 ++ post) = false) /\
    ((exists e, In e ends /\ prefix_match true e post = true) \/
     post = [] \/ post = [10]).
Proof.
  intros _ _ Hends H. unfold extract_section, re_search in H.
  destruct (search_go true (section_pattern start ends) 0 None text) as [m|] eqn:E;
    [|discriminate].
  apply search_go_first in E.
  destruct E as [pre [rest [st' [l [Ht [Hm [-> Hno]]]]]]].
  unfold section_pattern in Hm. cbn [rmatch] in Hm. rewrite rmatch_lit in Hm.
  cbn [m_rest m_pos m_prev m_caps] in Hm.
  destruct (prefix_match true start rest) eqn:Hp; [|discriminate].
  cbn [flat_map] in Hm. rewrite app_nil_r in Hm.
  set (kw := firstn (List.length start) rest) in *.
  set (rest1 := skipn (List.length start) rest) in *.
  assert (Hrest : rest = kw ++ rest1) by (symmetry; apply firstn_skipn).
  pose proof (lazy_span_first true ends
                (0 + List.length pre + List.length start)
                (prev_after (prev_after None pre) kw) [] st' l rest1 []) as Hspan.
  cbn [app List.length prev_after fold_left] in Hspan.
  rewrite Nat.add_0_r in Hspan.
  destruct (Hspan Hm) as [span [post [Hb [Hc [Hne Hmin]]]]].
  exists pre, kw, span, post.
  assert (Hlen : List.length kw = List.length start).
  { unfold kw. apply firstn_length_le. apply (prefix_match_length true). exact Hp. }
  rewrite <- Hb, <- Hrest. repeat split; auto.
  - intros a b Hab Hb0. specialize (Hno a b Hab Hb0).
    unfold section_pattern in Hno. cbn [rmatch] in Hno. rewrite rmatch_lit in Hno.
    cbn [m_rest m_pos m_prev m_caps] in Hno.
    destruct (prefix_match true start (b ++ rest)) eqn:Hpb; [|reflexivity].
    exfalso. cbn [flat_map] in Hno. rewrite app_nil_r in Hno.
    exact (section_tail_matches true ends _ Hno).
  - unfold section_of, group, match_at in H. cbn [mt_caps] in H.
    rewrite Hc in H. cbn [assoc_nat Nat.eqb] in H. injection H as <-. reflexivity.
  - intros s1 s2 e Es Hs2 He.
    specialize (Hmin s1 s2 Es Hs2).
    apply (stop_alt_none true ends _ e Hmin He).
  - apply stop_alt_some in Hne. cbn [m_rest] in Hne.
    destruct Hne as [Hn|Hn]; [contradiction | exact Hn].
Qed.

(** X12: with an empty stop list the pattern has an empty alternative, so
    for a start keyword that reads as a literal word the section is always
    the empty string when the keyword occurs. *)
Theorem extract_section_no_stops text start :
  literal_keyword start = true ->
  extract_section text start [] =
  if occurs true start text then Some [] else None.
Proof.
  intros _. destruct (occurs true start text) eqn:Ho.
  - unfold extract_section, re_search.
    destruct (search_go true (section_pattern start []) 0 None text) as [m|] eqn:E.
    + apply search_go_first in E.
      destruct E as [pre [rest [st' [l [Ht [Hm [-> Hno]]]]]]].
      unfold section_pattern in Hm. cbn [rmatch] in Hm. rewrite rmatch_lit in Hm.
      cbn [m_rest m_pos m_prev m_caps] in Hm.
      destruct (prefix_match true start rest) eqn:Hp; [|discriminate].
      cbn [flat_map] in Hm. rewrite app_nil_r in Hm.
      pose proof (lazy_span_first true []
                    (0 + List.length pre + List.length start)
                    (prev_after (prev_after None pre)
                       (firstn (List.length start) rest)) [] st' l
                    (skipn (List.length start) rest) []) as Hspan.
      cbn [app List.length prev_after fold_left] in Hspan.
      rewrite Nat.add_0_r in Hspan.
      destruct (Hspan Hm) as [span [post [Hb [Hc [Hne Hmin]]]]].
      assert (Hs : span = []).
      { destruct span as [|c span']; [reflexivity|]. exfalso.
        specialize (Hmin [] (c :: span') eq_refl ltac:(discriminate)).
        unfold stop_alt in Hmin. cbn [fold_right rmatch app] in Hmin. discriminate. }
      subst span. unfold section_of, group, match_at. cbn [mt_caps].
      rewrite Hc. cbn [assoc_nat Nat.eqb]. reflexivity.
    + exfalso. revert E. change (search_go true (section_pattern start []) 0 None text)
        with (re_search true (section_pattern start []) text).
      pose proof (extract_section_present text start [] Ho) as Hp.
      unfold extract_section in Hp. intros E. rewrite E in Hp. apply Hp. reflexivity.
  - apply extract_section_absent. exact Ho.
Qed.

End SectionSpan.

Section BlockFacts.
Context {U : UnicodeTables}.

Lemma join_chars sep parts c :
  In c (join sep parts) -> In c sep \/ exists p, In p parts /\ In c p.
Proof.
  induction parts as [|p rest IH]; [intros []|].
  destruct rest as [|q rest'].
  - cbn [join]. intros H. right. exists p. split; [left; reflexivity | exact H].
  - change (join sep (p :: q :: rest')) with (p ++ sep ++ join sep (q :: rest')).
    intros H. apply in_app_or in H. destruct H as [H|H].
    + right. exists p. split; [left; reflexivity | exact H].
    + apply in_app_or in H. destruct H as [H|H]; [left; exact H|].
      destruct (IH H) as [Hs|[p' [Hp Hc]]]; [left; exact Hs|].
      right. exists p'. split; [right; exact Hp | exact Hc].
Qed.

Lemma fires_on_skill_sep :
  fires_on (fun c => (c =? 44) || ((c =? 10) || ((c =? 59) || (c =? 8226))))
    false re_skill_sep.
Proof.
  apply fires_on_plus. intros c Hc.
  cbn [atom_match andb existsb item_match i_chr xorb].
  change (chr ",") with 44. change (chr ";") with 59.
  rewrite orb_false_r. exact Hc.
Qed.

(** X13: the skills string is a join by [" | "] of tokens, each of them
    non-empty, trimmed and free of commas, semicolons, line breaks and
    bullets. *)
Theorem extract_skills_tokens text :
  exists tokens,
    extract_skills text = join sep_bar tokens /\
    forall t, In t tokens ->
      t <> [] /\ strip t = t /\
      ~ In 44 t /\ ~ In 59 t /\ ~ In 10 t /\ ~ In 8226 t.
Proof.
  unfold extract_skills.
  destruct (extract_section text (py "SKILLS") _) as [block|];
    [|exists []; split; [reflexivity | intros t []]].
  destruct (nonempty block); [|exists []; split; [reflexivity | intros t []]].
  eexists. split; [reflexivity|].
  intros t Ht. apply filter_In in Ht. destruct Ht as [Hin Hne].
  apply in_map_iff in Hin. destruct Hin as [p [<- Hp]].
  assert (Hno : forall c, In c (strip p) ->
                  (c =? 44) || ((c =? 10) || ((c =? 59) || (c =? 8226))) = false).
  { intros c Hc. apply strip_by_incl in Hc.
    apply (re_split_fires _ _ _ _ _ _ fires_on_skill_sep Hp Hc). }
  split; [|split].
  - intros E. rewrite E in Hne. discriminate.
  - apply strip_by_idem.
  - repeat split; intros Hc; apply Hno in Hc; discriminate.
Qed.

(** A section that is found and is not empty begins with a character that
    is not white space. *)
Lemma section_first_char text start ends block :
  extract_section text start ends = Some block ->
  nonempty block = true ->
  exists c tl, block = c :: tl /\ is_space c = false.
Proof.
  unfold extract_section, section_of. intros H Hne.
  destruct (re_search true (section_pattern start ends) text) as [m|]; [|discriminate].
  destruct (group m 1) as [g|]; [|discriminate]. injection H as <-.
  destruct (strip g) as [|c tl] eqn:E; [discriminate|].
  exists c, tl. split; [reflexivity|]. apply (strip_by_first is_space g c tl E).
Qed.

(** The lines of a text that begins with a character that is not white
    space: there is a first one, and it begins with that character. *)
Lemma clean_lines_first c s :
  is_space c = false ->
  exists l ls, filter nonempty (map strip (split_chr 10 (c :: s))) = (c :: l) :: ls.
Proof.
  intros Hc.
  assert (Hn : (c =? 10) = false) by (apply N.eqb_neq; intros ->; discriminate).
  destruct (strip_by_cons is_space c [] Hc) as [l0 E0].
  cbn [split_chr]. destruct (split_chr 10 s) as [|q ps].
  - cbn [map filter]. change (strip [c]) with (strip_by is_space [c]).
    rewrite E0. cbn [nonempty]. eexists. eexists. reflexivity.
  - rewrite Hn. cbn [map filter].
    destruct (strip_by_cons is_space c q Hc) as [l E].
    change (strip (c :: q)) with (strip_by is_space (c :: q)).
    rewrite E. cbn [nonempty]. eexists. eexists. reflexivity.
Qed.

Lemma join_no_break (lines : list str) :
  (forall l, In l lines -> ~ In 10 l) -> ~ In 10 (join sep_bar lines).
Proof.
  intros H Hin. apply join_chars in Hin. destruct Hin as [Hs|[p [Hp Hc]]].
  - cbn in Hs. repeat destruct Hs as [Hs|Hs]; try discriminate. destruct Hs.
  - exact (H p Hp Hc).
Qed.

(** X14: [extract_education] returns the empty dictionary or a non-empty
    string without line breaks; the [None] of its last line is never
    returned. *)
Theorem extract_education_values text :
  extract_education text = VDict [] \/
  exists s, extract_education text = VStr s /\ s <> [] /\ ~ In 10 s.
Proof.
  unfold extract_education.
  destruct (extract_section text (py "EDUCATION") _) as [block|] eqn:E;
    [|left; reflexivity].
  destruct (nonempty block) eqn:Hne; [|left; reflexivity].
  destruct (section_first_char _ _ _ _ E Hne) as [c [tl [-> Hc]]].
  cbv zeta.
  assert (Hnb : forall l,
            In l (filter nonempty (map strip (split_chr 10 (c :: tl)))) -> ~ In 10 l).
  { intros l Hl. apply (clean_lines_facts (c :: tl)). exact Hl. }
  destruct (clean_lines_first c tl Hc) as [l [ls El]]. rewrite El in *.
  right. eexists. split; [reflexivity|]. split.
  - cbn [join]. destruct ls; discriminate.
  - apply join_no_break. exact Hnb.
Qed.

Lemma block_start_needs_break pos prev c tl :
  c <> 10 -> rmatch false re_block_start (MState pos prev (c :: tl) []) = [].
Proof.
  intros Hc. unfold re_block_start. cbn [rmatch m_rest atom_match andb].
  apply N.eqb_neq in Hc. rewrite Hc. reflexivity.
Qed.

Lemma pieces_first c toks :
  exists p ps, pieces (TChar c :: toks) = (c :: p) :: ps.
Proof.
  cbn [pieces]. destruct (pieces toks) as [|p ps]; eexists; eexists; reflexivity.
Qed.

(** X15: when the WORK EXPERIENCE section is found and is not blank, at
    least one entry is returned. *)
Theorem extract_work_experience_some text fallback_location block :
  extract_section text (py "WORK EXPERIENCE")
    [py "EDUCATION"; py "SKILLS"; py "CERTIFICATES"] = Some block ->
  block <> [] ->
  extract_work_experience text fallback_location <> [].
Proof.
  intros E Hb. unfold extract_work_experience. rewrite E.
  assert (Hne : nonempty block = true) by (destruct block; [contradiction | reflexivity]).
  rewrite Hne.
  destruct (section_first_char _ _ _ _ E Hne) as [c [tl [-> Hc]]].
  assert (Hn : c <> 10) by (intros ->; discriminate).
  unfold re_split. cbn [tokens].
  match goal with
  | |- context [rmatch false re_block_start ?st] =>
      rewrite (block_start_needs_break 0 None c tl Hn
               : rmatch false re_block_start st = [])
  end. cbn [app].
  destruct (pieces_first c (tokens false re_block_start 1 (Some c) tl 0)) as [p [ps ->]].
  cbn [flat_map]. unfold work_entry at 1. cbv zeta.
  destruct (clean_lines_first c p Hc) as [l [ls ->]].
  cbn [app]. discriminate.
Qed.

End BlockFacts.

Section FolderFacts.
Context {U : UnicodeTables}.
Variable str_lower : str -> str.

Lemma folder_loop listing :
  forall acc,
    fold_left
      (fun results file =>
         let filename := fst file in
         if ends_with (py ".pdf") (str_lower filename)
         then
           let info := extract_info_from_pdf (snd file) in
           results ++ [info]
         else results)
      listing acc =
    acc ++ map (fun file => extract_structured_fields (join [10] (snd file)))
             (filter (fun file => ends_with (py ".pdf") (str_lower (fst file))) listing).
Proof.
  induction listing as [|file rest IH]; intros acc; cbn [fold_left filter map].
  - rewrite app_nil_r. reflexivity.
  - cbv zeta. destruct (ends_with (py ".pdf") (str_lower (fst file))).
    + rewrite IH, <- app_assoc. reflexivity.
    + apply IH.
Qed.

(** X16: the folder loop returns one record for each file whose lower-cased
    name ends in [.pdf], in the order of the listing, and skips every other
    file; the record is that of the file's pages joined by line breaks. *)
Theorem extract_from_folder_records listing :
  extract_from_folder str_lower listing =
  map (fun file => extract_structured_fields (join [10] (snd file)))
    (filter (fun file => ends_with (py ".pdf") (str_lower (fst file))) listing).
Proof. unfold extract_from_folder. rewrite folder_loop. reflexivity. Qed.

End FolderFacts.

Section EntryFacts.
Context {U : UnicodeTables}.

(** X17: [preprocess_text] returns a trimmed text and adds no character
    other than a line break. *)
Theorem preprocess_text_output raw :
  strip (preprocess_text raw) = preprocess_text raw /\
  forall c, In c (preprocess_text raw) -> c = 10 \/ In c raw.
Proof.
  unfold preprocess_text. split; [apply strip_by_idem|].
  intros c Hc. apply strip_by_incl in Hc. apply re_sub_incl in Hc.
  destruct Hc as [[<-|[]]|Hc]; [left; reflexivity | right; exact Hc].
Qed.

Lemma in_firstn {A} n (l : list A) x : In x (firstn n l) -> In x l.
Proof.
  intros H. rewrite <- (firstn_skipn n l). apply in_or_app. left. exact H.
Qed.

Lemma in_skipn {A} n (l : list A) x : In x (skipn n l) -> In x l.
Proof.
  intros H. rewrite <- (firstn_skipn n l). apply in_or_app. right. exact H.
Qed.

Lemma in_assoc_nat n w caps : assoc_nat n caps = Some w -> In (n, w) caps.
Proof.
  induction caps as [|[k v] tl IH]; cbn [assoc_nat]; [discriminate|].
  destruct (Nat.eqb k n) eqn:E.
  - intros H. injection H as <-. apply Nat.eqb_eq in E. subst k. left. reflexivity.
  - intros H. right. apply IH. exact H.
Qed.

Lemma after_incl st st' : after st st' -> incl (m_rest st') (m_rest st).
Proof.
  intros [w [E _]] c Hc. rewrite E. apply in_or_app. right. exact Hc.
Qed.

(** The groups of a match hold characters of the subject. *)
Lemma rmatch_caps_incl ic subj r :
  forall st st',
    In st' (rmatch ic r st) ->
    incl (m_rest st) subj ->
    (forall n w, In (n, w) (m_caps st) -> incl w subj) ->
    forall n w, In (n, w) (m_caps st') -> incl w subj.
Proof.
  induction r; intros st st' Hin Hr Hc; simpl in Hin.
  - destruct Hin as [<-|[]]. exact Hc.
  - destruct (m_rest st) as [|c tl]; [contradiction|].
    destruct (atom_match ic a c); [|contradiction].
    destruct Hin as [<-|[]]. exact Hc.
  - apply rep_from_after in Hin. destruct Hin as [_ E]. rewrite E. exact Hc.
  - apply in_flat_map in Hin. destruct Hin as [mid [H1 H2]].
    apply (IHr2 mid st' H2).
    + intros c Hx. apply Hr. apply (after_incl st mid); [|exact Hx].
      eapply rmatch_after; eauto.
    + apply (IHr1 st mid H1 Hr Hc).
  - apply in_app_or in Hin. destruct Hin as [H|H]; eauto.
  - apply in_map_iff in Hin. destruct Hin as [x [<- Hx]].
    cbn [m_caps]. intros k w [Hk|Hk].
    + injection Hk as _ <-. intros c Hcw. apply Hr.
      apply (in_firstn _ _ _ Hcw).
    + apply (IHr st x Hx Hr Hc k w Hk).
  - destruct (Nat.eqb (m_pos st) 0); [|contradiction].
    destruct Hin as [<-|[]]. exact Hc.
  - destruct (m_rest st) as [|c [|d tl]]; try contradiction.
    + destruct Hin as [<-|[]]. exact Hc.
    + destruct (c =? 10); [|contradiction]. destruct Hin as [<-|[]]. exact Hc.
  - destruct (xorb _ _); [|contradiction]. destruct Hin as [<-|[]]. exact Hc.
  - destruct (rmatch ic r st) as [|st1 l] eqn:E; [contradiction|].
    destruct Hin as [<-|[]]. cbn [m_caps].
    apply (IHr st st1); [rewrite E; left; reflexivity | exact Hr | exact Hc].
Qed.

Lemma re_search_groups ic r s m n w :
  re_search ic r s = Some m -> group m n = Some w -> incl w s.
Proof.
  unfold re_search. intros H Hg. apply search_go_first in H.
  destruct H as [pre [rest [st' [l [Hs [Hm [-> _]]]]]]].
  unfold group, match_at in Hg. cbn [mt_caps] in Hg. apply in_assoc_nat in Hg.
  refine (rmatch_caps_incl ic s r
            (MState (0 + List.length pre) (prev_after None pre) rest []) st'
            _ _ _ n w Hg).
  - rewrite Hm. left. reflexivity.
  - cbn [m_rest]. intros c Hc. rewrite Hs. apply in_or_app. right. exact Hc.
  - intros k v [].
Qed.

Lemma fmt_no_break s o :
  ~ In 10 s -> (forall w, o = Some w -> incl w s) -> ~ In 10 (fmt o).
Proof.
  intros Hs Ho. destruct o as [w|]; cbn [fmt].
  - intros H. apply Hs. apply (Ho w eq_refl). exact H.
  - cbn. intros H. repeat destruct H as [H|H]; try discriminate. destruct H.
Qed.

Lemma extract_location_in lines l :
  extract_location lines = Some l -> exists line, In line lines /\ l = strip line.
Proof.
  induction lines as [|line tl IH]; cbn [extract_location]; [discriminate|].
  destruct (is_some (re_search false re_city_state line)).
  - intros H. injection H as <-. exists line. split; [left; reflexivity | reflexivity].
  - intros H. destruct (IH H) as [line' [Hin E]]. exists line'.
    split; [right; exact Hin | exact E].
Qed.

Lemma work_entry_single_line fallback_location block e :
  (forall l, fallback_location = Some l -> ~ In 10 l) ->
  work_entry fallback_location block = Some e ->
  exists t, e = VDict [("text"%string, VStr t)] /\ ~ In 10 t.
Proof.
  intros Hfb. unfold work_entry. cbv zeta.
  assert (Hlines : forall l,
            In l (filter nonempty (map strip (split_chr 10 block))) -> ~ In 10 l).
  { intros l Hl. apply (clean_lines_facts block). exact Hl. }
  destruct (filter nonempty (map strip (split_chr 10 block))) as [|title more] eqn:El;
    [discriminate|].
  intros H. injection H as <-. eexists. split; [reflexivity|].
  set (meta := match more with [] => [] | m :: _ => m end).
  assert (Hmeta : ~ In 10 meta).
  { unfold meta. destruct more as [|m more']; [intros []|].
    apply Hlines. right. left. reflexivity. }
  assert (Hdur : ~ In 10 (match re_search true re_date meta with
                           | Some m => fmt (group m 1) ++ py " - " ++ fmt (group m 2)
                           | None => []
                           end)).
  { destruct (re_search true re_date meta) as [m|] eqn:Em; [|intros []].
    intros H. apply in_app_or in H. destruct H as [H|H].
    - revert H. apply (fmt_no_break meta); [exact Hmeta|].
      intros w Hw. eapply re_search_groups; eauto.
    - apply in_app_or in H. destruct H as [H|H].
      + cbn in H. repeat destruct H as [H|H]; try discriminate. destruct H.
      + revert H. apply (fmt_no_break meta); [exact Hmeta|].
        intros w Hw. eapply re_search_groups; eauto. }
  assert (Hloc : ~ In 10 (match re_search false re_city_state_group meta with
                           | Some m => mt_group0 m
                           | None =>
                               match fallback_location with
                               | Some l => if nonempty l then l else []
                               | None => []
                               end
                           end)).
  { destruct (re_search false re_city_state_group meta) as [m|] eqn:Em.
    - apply re_search_sound in Em. destruct Em as [Hs _].
      intros H. apply Hmeta. eapply part_of_In; eauto.
    - destruct fallback_location as [l|]; [|intros []].
      destruct (nonempty l); [apply Hfb; reflexivity | intros []]. }
  assert (Hmid : ~ In 10 (strip_chars (py " |")
                   ((match re_search true re_date meta with
                     | Some m => fmt (group m 1) ++ py " - " ++ fmt (group m 2)
                     | None => []
                     end) ++ sep_bar ++
                    (match re_search false re_city_state_group meta with
                     | Some m => mt_group0 m
                     | None =>
                         match fallback_location with
                         | Some l => if nonempty l then l else []
                         | None => []
                         end
                     end)))).
  { intros H. unfold strip_chars in H. apply strip_by_incl in H.
    apply in_app_or in H. destruct H as [H|H]; [exact (Hdur H)|].
    apply in_app_or in H. destruct H as [H|H]; [|exact (Hloc H)].
    cbn in H. repeat destruct H as [H|H]; try discriminate. destruct H. }
  assert (Hdesc : ~ In 10 (join (py " ") (skipn 2 (title :: more)))).
  { intros H. apply join_chars in H. destruct H as [H|[p [Hp Hc]]].
    - cbn in H. destruct H as [H|[]]. discriminate.
    - apply (Hlines p); [|exact Hc].
      apply (in_skipn _ _ _ Hp). }
  assert (Htitle : ~ In 10 title) by (apply Hlines; left; reflexivity).
  fold meta. intros H. apply join_chars in H. destruct H as [H|[p [Hp Hc]]].
  - cbn in H. repeat destruct H as [H|H]; try discriminate. destruct H.
  - apply filter_In in Hp. destruct Hp as [Hp _].
    repeat match type of Hp with
    | In _ (if ?b then _ else _) => destruct b
    | In _ (_ ++ _) => apply in_app_or in Hp; destruct Hp as [Hp|Hp]
    | In _ (_ :: _) =>
        destruct Hp as [Hp|Hp];
        [subst p; first [exact (Htitle Hc) | exact (Hmid Hc) | exact (Hdesc Hc)]|]
    | In _ [] => destruct Hp
    end.
Qed.

(** X18: in the record of a document every work entry is a dictionary with
    the one key [text], and its text holds no line break. *)
Theorem record_work_entries_single_line raw l e :
  lookup "work_experience" (extract_structured_fields raw) = Some (VList l) ->
  In e l ->
  exists t, e = VDict [("text"%string, VStr t)] /\ ~ In 10 t.
Proof.
  unfold extract_structured_fields, assemble. cbv zeta. cbn [lookup assoc_key String.eqb Ascii.eqb Bool.eqb].
  intros H. injection H as <-. unfold extract_work_experience.
  destruct (extract_section _ _ _) as [block|]; [|intros []].
  destruct (nonempty block); [|intros []].
  intros Hin. apply in_flat_map in Hin. destruct Hin as [b [_ Hb]].
  destruct (work_entry _ b) as [e'|] eqn:Ew; [|destruct Hb].
  destruct Hb as [<-|[]].
  apply (work_entry_single_line (extract_location (segment (preprocess_text raw))) b e');
    [|exact Ew].
  intros loc Hloc. apply extract_location_in in Hloc.
  destruct Hloc as [line [Hline ->]].
  intros H. apply strip_by_incl in H.
  exact (proj2 (proj2 (clean_lines_facts _ _ Hline)) H).
Qed.

End EntryFacts.

(** ** A second pass of the normalizer *)

Section TokenWalk.
Context {U : UnicodeTables}.

(** Where the pattern finds nothing inside a stretch of text, the stretch is
    passed over character by character. *)
Lemma tokens_quiet_prefix ic r t :
  forall rest pos prev,
    (forall pos' prev' a b, t = a ++ b -> b <> [] ->
       rmatch ic r (MState pos' prev' (b ++ rest) []) = []) ->
    tokens ic r pos prev (t ++ rest) 0 =
    map TChar t ++ tokens ic r (pos + List.length t) (prev_after prev t) rest 0.
Proof.
  induction t as [|c tl IH]; intros rest pos prev Hno.
  - cbn [app map List.length prev_after fold_left]. rewrite Nat.add_0_r. reflexivity.
  - pose proof (Hno pos prev [] (c :: tl) eq_refl ltac:(discriminate)) as E.
    cbn [app] in E. cbn [app tokens]. rewrite E.
    cbn [app map List.length]. f_equal.
    rewrite IH.
    + cbn [prev_after fold_left]. rewrite <- plus_n_Sm. reflexivity.
    + intros pos' prev' a b Hs Hb. apply (Hno pos' prev' (c :: a) b); [|exact Hb].
      simpl. rewrite Hs. reflexivity.
Qed.

(** A match that takes the stretch [m] is followed by the matches of what
    comes after [m]. *)
Lemma tokens_match_prefix ic r m :
  forall rest pos prev st1 l,
    m <> [] ->
    rmatch ic r (MState pos prev (m ++ rest) []) = st1 :: l ->
    m_pos st1 = (pos + List.length m)%nat ->
    tokens ic r pos prev (m ++ rest) 0 =
    TMatch (match_at pos (m ++ rest) st1) ::
    tokens ic r (pos + List.length m) (prev_after prev m) rest 0.
Proof.
  intros rest pos prev st1 l Hm E Hp.
  destruct m as [|c m]; [contradiction|].
  cbn [app tokens]. cbn [app] in E. rewrite E.
  assert (Ha : advances pos st1 = true).
  { unfold advances. rewrite Hp. cbn [List.length].
    destruct (Nat.eqb (pos + S (List.length m)) pos) eqn:En; [|reflexivity].
    apply Nat.eqb_eq in En. lia. }
  rewrite Ha. f_equal. cbn [app].
  rewrite Hp. cbn [List.length].
  replace (pos + S (List.length m) - pos - 1)%nat with (List.length m) by lia.
  rewrite tokens_skip_over. cbn [prev_after fold_left].
  rewrite <- plus_n_Sm. reflexivity.
Qed.

(** A substitution whose every match is one character long and is replaced
    by that very character changes nothing. *)
Lemma re_sub_charwise ic r repl s :
  (forall pos prev, rmatch ic r (MState pos prev [] []) = []) ->
  (forall pos prev a c tl, s = a ++ c :: tl ->
     rmatch ic r (MState pos prev (c :: tl) []) = [] \/
     exists st1 l, rmatch ic r (MState pos prev (c :: tl) []) = st1 :: l /\
                   m_pos st1 = S pos /\ repl = [c]) ->
  re_sub ic r repl s = s.
Proof.
  intros Hend H. unfold re_sub.
  enough (G : forall prev pos, flat_map (render repl) (tokens ic r pos prev s 0) = s)
    by apply G.
  revert H. induction s as [|c tl IH]; intros H prev pos.
  - cbn [tokens]. rewrite Hend. reflexivity.
  - assert (IH' : forall prev pos,
              flat_map (render repl) (tokens ic r pos prev tl 0) = tl).
    { intros prev' pos'. apply IH. intros p q a d tl' Hs.
      apply (H p q (c :: a) d tl'). simpl. rewrite Hs. reflexivity. }
    destruct (H pos prev [] c tl eq_refl) as [E|[st1 [l [E [Hp Hr]]]]].
    + cbn [tokens]. rewrite E. cbn [app flat_map render]. f_equal. apply IH'.
    + cbn [tokens]. rewrite E.
      assert (Ha : advances pos st1 = true).
      { unfold advances. rewrite Hp.
        destruct (Nat.eqb (S pos) pos) eqn:En; [|reflexivity].
        apply Nat.eqb_eq in En. lia. }
      rewrite Ha, Hp. replace (S pos - pos - 1)%nat with 0%nat by lia.
      cbn [app flat_map render]. rewrite Hr at 1. cbn [app]. f_equal. apply IH'.
Qed.

(** No match at any place of the text: the substitution changes nothing. *)
Lemma re_sub_quiet ic r repl s :
  (forall pos prev w rest, s = w ++ rest -> rmatch ic r (MState pos prev rest []) = []) ->
  re_sub ic r repl s = s.
Proof.
  intros H. unfold re_sub. rewrite tokens_no_match; [apply render_chars|].
  exact H.
Qed.

End TokenWalk.

Section Windows.

Lemma clear2_tail Q c s : clear2 Q (c :: s) = true -> clear2 Q s = true.
Proof.
  destruct s as [|d s]; [reflexivity|].
  cbn [clear2]. intros H. apply andb_true_iff in H. apply H.
Qed.

Lemma clear2_at Q a :
  forall c d tl, clear2 Q (a ++ c :: d :: tl) = true -> Q c d = false.
Proof.
  induction a as [|x a IH]; intros c d tl H.
  - cbn [app clear2] in H. apply andb_true_iff in H. destruct H as [H _].
    apply negb_true_iff in H. exact H.
  - apply (IH c d tl). apply (clear2_tail Q x). exact H.
Qed.

Lemma clear2_app Q s :
  forall t,
    clear2 Q s = true -> clear2 Q t = true ->
    Q (last s 0) (hd 0 t) = false ->
    clear2 Q (s ++ t) = true.
Proof.
  induction s as [|a s IH]; intros t Hs Ht Hb.
  - exact Ht.
  - destruct s as [|b s].
    + cbn [app]. destruct t as [|d t]; [reflexivity|].
      cbn [clear2]. cbn [last hd] in Hb. rewrite Hb. exact Ht.
    + cbn [app clear2]. cbn [clear2] in Hs. apply andb_true_iff in Hs.
      destruct Hs as [H1 H2]. rewrite H1. cbn [andb].
      apply (IH t H2 Ht). exact Hb.
Qed.

Lemma clear2_second Q s :
  (forall a b, In b s -> Q a b = false) -> clear2 Q s = true.
Proof.
  induction s as [|a s IH]; intros H; [reflexivity|].
  destruct s as [|b s]; [reflexivity|].
  cbn [clear2]. rewrite (H a b) by (right; left; reflexivity). cbn [negb andb].
  apply IH. intros x y Hy. apply H. right. exact Hy.
Qed.

End Windows.

Section DashSpacing.
Context {U : UnicodeTables}.

Lemma flat_map_nil {A B} (f : A -> list B) l :
  (forall x, In x l -> f x = []) -> flat_map f l = [].
Proof.
  induction l as [|x l IH]; intros H; [reflexivity|].
  simpl. rewrite (H x) by (left; reflexivity). apply IH.
  intros y Hy. apply H. right. exact Hy.
Qed.

(** From a place where white space is followed by a character that is
    neither white space nor a dash, the dash-spacing pattern finds nothing. *)
Lemma space_run_heads c tl ws :
  forall pos prev st',
    forallb is_space ws = true -> is_space c = false -> c <> 45 ->
    In st' (rep_from false a_space true 0 None pos prev (ws ++ c :: tl) []) ->
    exists d tl', m_rest st' = d :: tl' /\ d <> 45.
Proof.
  induction ws as [|w ws IH]; intros pos prev st' Hws Hs Hc Hin.
  - cbn [app rep_from] in Hin. rewrite atom_match_space, Hs, andb_false_r in Hin.
    cbn [app] in Hin. destruct Hin as [<-|[]].
    exists c, tl. split; [reflexivity | exact Hc].
  - cbn [forallb] in Hws. apply andb_true_iff in Hws. destruct Hws as [Hw Hws].
    cbn [app rep_from] in Hin. rewrite atom_match_space, Hw in Hin.
    cbn [may_take andb pred option_map] in Hin.
    apply in_app_or in Hin. destruct Hin as [Hin|Hin].
    + apply (IH _ _ _ Hws Hs Hc Hin).
    + destruct Hin as [<-|[]]. exists w, (ws ++ c :: tl).
      split; [reflexivity|]. intros ->. discriminate.
Qed.

Lemma dash_spacing_quiet pos prev ws c tl :
  forallb is_space ws = true -> is_space c = false -> c <> 45 ->
  rmatch false re_dash_spacing (MState pos prev (ws ++ c :: tl) []) = [].
Proof.
  intros Hws Hs Hc. unfold re_dash_spacing, star.
  cbn [rmatch m_pos m_prev m_rest m_caps].
  apply flat_map_nil. intros st' Hin.
  destruct (space_run_heads c tl ws pos prev st' Hws Hs Hc Hin) as [d [tl' [E Hd]]].
  rewrite E. unfold a_chr. change (chr "-") with 45.
  cbn [atom_match andb].
  apply N.eqb_neq in Hd. rewrite Hd. reflexivity.
Qed.

Lemma dash_spacing_end pos prev :
  rmatch false re_dash_spacing (MState pos prev [] []) = [].
Proof. reflexivity. Qed.

(** The first dash-spacing match at a dash takes the white space before
    it and all the white space after it. *)
Lemma dash_spacing_match pos prev ws1 ws2 tail :
  forallb is_space ws1 = true -> forallb is_space ws2 = true ->
  (match tail with [] => true | c :: _ => negb (is_space c) end) = true ->
  exists l,
    rmatch false re_dash_spacing
      (MState pos prev ((ws1 ++ 45 :: ws2) ++ tail) []) =
    MState (pos + List.length (ws1 ++ 45 :: ws2))
      (prev_after (Some 45) ws2) tail [] :: l.
Proof.
  intros H1 H2 Ht. unfold re_dash_spacing, star, a_chr. change (chr "-") with 45.
  cbn [rmatch m_pos m_prev m_rest m_caps].
  rewrite <- app_assoc. cbn [app].
  destruct (greedy_space_run false ws1 (45 :: ws2 ++ tail) pos prev [] H1 eq_refl)
    as [o1 E1].
  match goal with
  | |- context [rep_from ?a ?b ?c ?d ?e ?f ?g ?h ?i] =>
      rewrite (E1 : rep_from a b c d e f g h i = _)
  end.
  destruct (greedy_space_run false ws2 tail (S (pos + List.length ws1)) (Some 45) [] H2 Ht)
    as [o2 E2].
  erewrite flat_map_head.
  2:{ cbn [rmatch m_pos m_prev m_rest m_caps atom_match andb].
      change (45 =? 45) with true.
      cbn [flat_map rmatch m_pos m_prev m_rest m_caps].
      match goal with
      | |- context [rep_from ?a ?b ?c ?d ?e ?f ?g ?h ?i] =>
          rewrite (E2 : rep_from a b c d e f g h i = _)
      end.
      rewrite app_nil_r. reflexivity. }
  eexists. f_equal. f_equal.
  rewrite length_app. cbn [List.length]. lia.
Qed.

(** The walk of the dash-spacing substitution over such a match. *)
Lemma dash_spacing_step pos prev ws1 ws2 tail :
  forallb is_space ws1 = true -> forallb is_space ws2 = true ->
  (match tail with [] => true | c :: _ => negb (is_space c) end) = true ->
  flat_map (render (py " - "))
    (tokens false re_dash_spacing pos prev ((ws1 ++ 45 :: ws2) ++ tail) 0) =
  py " - " ++
  flat_map (render (py " - "))
    (tokens false re_dash_spacing (pos + List.length (ws1 ++ 45 :: ws2))
       (prev_after prev (ws1 ++ 45 :: ws2)) tail 0).
Proof.
  intros H1 H2 Ht.
  destruct (dash_spacing_match pos prev ws1 ws2 tail H1 H2 Ht) as [l E].
  rewrite (tokens_match_prefix false re_dash_spacing (ws1 ++ 45 :: ws2) tail
             pos prev _ l) by (first [exact E | reflexivity | destruct ws1; discriminate]).
  reflexivity.
Qed.

Lemma last_app_nonempty (a b : str) : b <> [] -> last (a ++ b) 0 = last b 0.
Proof.
  intros Hb. induction a as [|x a IH]; [reflexivity|].
  cbn [app last]. destruct (a ++ b) eqn:E.
  - destruct a; destruct b; try discriminate. contradiction.
  - exact IH.
Qed.

Lemma all_space_last (b : str) :
  b <> [] -> forallb is_space b = true -> is_space (last b 0) = true.
Proof.
  induction b as [|x b IH]; intros Hb H; [contradiction|].
  cbn [forallb] in H. apply andb_true_iff in H. destruct H as [Hx H].
  destruct b as [|y b]; [exact Hx|].
  apply IH; [discriminate | exact H].
Qed.

Lemma piece_facts t :
  piece t = true ->
  (forall c, In c t -> c <> 45) /\
  is_space (hd 0 t) = false /\ is_space (last t 0) = false.
Proof.
  unfold piece. intros H.
  apply andb_true_iff in H. destruct H as [H H4].
  apply andb_true_iff in H. destruct H as [H2 H3].
  apply negb_true_iff in H2, H3, H4.
  repeat split; try assumption.
  intros c Hc ->.
  assert (E : existsb (N.eqb 45) t = true).
  { apply existsb_exists. exists 45. split; [exact Hc | apply N.eqb_refl]. }
  rewrite E in H2. discriminate.
Qed.

(** Every place inside a piece has, after some white space, a character of
    the piece that is neither white space nor a dash. *)
Lemma piece_suffix t a b :
  piece t = true -> t = a ++ b -> b <> [] ->
  exists ws c tl, b = ws ++ c :: tl /\ forallb is_space ws = true /\
                  is_space c = false /\ c <> 45.
Proof.
  intros Ht E Hb. destruct (piece_facts t Ht) as [Hd [_ Hl]].
  destruct (lstrip_by_split is_space b) as [ws [Hws Hsp]].
  destruct (lstrip_by is_space b) as [|c tl] eqn:El.
  - exfalso. rewrite app_nil_r in Hws. subst ws.
    rewrite E, (last_app_nonempty a b Hb), (all_space_last b Hb Hsp) in Hl.
    discriminate.
  - exists ws, c, tl. split; [exact Hws|]. split; [exact Hsp|]. split.
    + destruct (lstrip_by_head is_space b) as [E0|[c' [tl' [E1 Hc']]]].
      * rewrite E0 in El. discriminate.
      * rewrite E1 in El. injection El as <- _. exact Hc'.
    + apply Hd. rewrite E, Hws. apply in_or_app. right. apply in_or_app. right.
      left. reflexivity.
Qed.

(** Inside a piece the dash-spacing pattern finds nothing, whatever
    follows the piece. *)
Lemma piece_quiet p rest pos prev :
  piece p = true ->
  flat_map (render (py " - ")) (tokens false re_dash_spacing pos prev (p ++ rest) 0) =
  p ++ flat_map (render (py " - "))
         (tokens false re_dash_spacing (pos + List.length p) (prev_after prev p) rest 0).
Proof.
  intros Hp. rewrite tokens_quiet_prefix.
  - rewrite flat_map_app, render_chars. reflexivity.
  - intros pos' prev' a b E Hb.
    destruct (piece_suffix p a b Hp E Hb) as [ws [c [tl [-> [Hws [Hs Hc]]]]]].
    rewrite <- app_assoc. cbn [app]. apply dash_spacing_quiet; assumption.
Qed.

Lemma app_peel (A : str) :
  forall (X r B : str),
    X ++ r = A ++ B -> (List.length r <= List.length B)%nat ->
    exists X', X = A ++ X' /\ X' ++ r = B.
Proof.
  induction A as [|a A IH]; intros X r B E Hl.
  - exists X. split; [reflexivity | exact E].
  - destruct X as [|x X].
    + exfalso. cbn [app] in E. rewrite E in Hl. cbn [List.length] in Hl.
      rewrite length_app in Hl. lia.
    + cbn [app] in E. injection E as -> E.
      destruct (IH X r B E Hl) as [X' [-> E']]. exists X'. split; [reflexivity | exact E'].
Qed.

Lemma edge_cases r : edge r = true -> r = [] \/ r = [32].
Proof.
  destruct r as [|c [|d r]]; cbn [edge]; intros H; try discriminate.
  - left. reflexivity.
  - right. apply N.eqb_eq in H. subst c. reflexivity.
Qed.

Lemma edge_length r : edge r = true -> (List.length r <= 1)%nat.
Proof. intros H. destruct (edge_cases r H) as [->| ->]; simpl; lia. Qed.

Lemma last_suffix_space (A X : str) :
  is_space (last (A ++ X) 0) = false -> is_space (last X 0) = false.
Proof.
  destruct X as [|x X]; [reflexivity|].
  rewrite last_app_nonempty by discriminate. tauto.
Qed.

Lemma join_cons (sep p q : str) (ps : list str) :
  join sep (@cons str p (@cons str q ps)) = p ++ sep ++ join sep (@cons str q ps).
Proof. reflexivity. Qed.

Lemma join_head (sep q : str) (ps : list str) :
  q <> [] -> exists tl, join sep (@cons str q ps) = hd 0 q :: tl.
Proof.
  intros Hq. destruct q as [|c q]; [contradiction|].
  destruct ps as [|p ps]; cbn [join hd app]; eexists; reflexivity.
Qed.

Lemma dash_walk_end pos prev :
  flat_map (render (py " - ")) (tokens false re_dash_spacing pos prev [] 0) = [].
Proof. reflexivity. Qed.

Lemma app_cons_assoc (lead ws tail : str) :
  lead ++ 45 :: ws ++ tail = (lead ++ 45 :: ws) ++ tail.
Proof. rewrite <- app_assoc. reflexivity. Qed.

(** The dash-spacing substitution rebuilds a text of pieces joined by
    [" - "]: from the start of a piece, and from a dash whose space before
    it is there or not, also when the space after a closing dash is
    missing ([r] is what is missing). *)
Lemma dash_walk pieces :
  forallb piece pieces = true ->
  (forall X r pos prev,
     edge r = true -> is_space (last X 0) = false ->
     X ++ r = join (py " - ") pieces ->
     flat_map (render (py " - ")) (tokens false re_dash_spacing pos prev X 0) =
     join (py " - ") pieces) /\
  (pieces <> [] ->
   forall lead X r pos prev,
     forallb is_space lead = true ->
     edge r = true -> is_space (last X 0) = false ->
     X ++ r = lead ++ 45 :: 32 :: join (py " - ") pieces ->
     flat_map (render (py " - ")) (tokens false re_dash_spacing pos prev X 0) =
     py " - " ++ join (py " - ") pieces).
Proof.
  induction pieces as [|q rest IH]; intros H.
  - split; [|intros Hne; contradiction].
    intros X r pos prev Hr Hl E. cbn [join] in E.
    apply app_eq_nil in E. destruct E as [-> _]. reflexivity.
  - cbn [forallb] in H. apply andb_true_iff in H. destruct H as [Hq Hrest].
    destruct (piece_facts q Hq) as [Hqd [Hqh Hql]].
    specialize (IH Hrest). destruct IH as [IHp IHd].
    assert (WP : forall X r pos prev,
              edge r = true -> is_space (last X 0) = false ->
              X ++ r = join (py " - ") (q :: rest) ->
              flat_map (render (py " - ")) (tokens false re_dash_spacing pos prev X 0) =
              join (py " - ") (q :: rest)).
    { intros X r pos prev Hr Hl E. destruct rest as [|q' rest'].
      - cbn [join] in E. cbn [join].
        destruct (edge_cases r Hr) as [-> | ->].
        + rewrite app_nil_r in E. subst X.
          pose proof (piece_quiet q [] pos prev Hq) as Hw.
          rewrite dash_walk_end, !app_nil_r in Hw. exact Hw.
        + exfalso. rewrite <- E, last_last in Hql. discriminate.
      - rewrite join_cons in E. rewrite join_cons.
        destruct (app_peel q X r _ E) as [X' [-> E']].
        { rewrite length_app. pose proof (edge_length r Hr).
          change (List.length (py " - ")) with 3%nat. lia. }
        rewrite (piece_quiet q X' pos prev Hq). f_equal.
        apply (IHd ltac:(discriminate) [32] X' r); try assumption; try reflexivity.
        apply (last_suffix_space q). exact Hl. }
    split; [exact WP|]. intros _ lead X r pos prev Hlead Hr Hl E.
    destruct q as [|c q0].
    + (* an empty piece: the match takes the space of the next dash too *)
      destruct rest as [|q' rest'].
      * cbn [join] in E. cbn [join]. rewrite app_nil_r.
        destruct (edge_cases r Hr) as [-> | ->].
        -- exfalso. rewrite app_nil_r in E. subst X.
           change (lead ++ [45; 32]) with (lead ++ [45] ++ [32]) in Hl.
           rewrite app_assoc, last_last in Hl. discriminate.
        -- change (lead ++ [45; 32]) with (lead ++ [45] ++ [32]) in E.
           rewrite app_assoc in E. apply app_inj_tail in E. destruct E as [-> _].
           pose proof (dash_spacing_step pos prev lead [] [] Hlead eq_refl eq_refl) as Hw.
           rewrite dash_walk_end, !app_nil_r in Hw. exact Hw.
      * rewrite join_cons in E. rewrite join_cons. cbn [app] in E |- *.
        change (lead ++ 45 :: 32 :: py " - " ++ join (py " - ") (q' :: rest'))
          with (lead ++ 45 :: [32; 32] ++ 45 :: 32 :: join (py " - ") (q' :: rest')) in E.
        rewrite app_cons_assoc in E.
        destruct (app_peel _ X r _ E) as [X' [-> E']].
        { pose proof (edge_length r Hr). cbn [List.length]. lia. }
        assert (Ht : (match X' with [] => true | x :: _ => negb (is_space x) end) = true).
        { destruct X' as [|x X'']; [reflexivity|].
          cbn [app] in E'. injection E' as -> _. reflexivity. }
        rewrite (dash_spacing_step pos prev lead [32; 32] X' Hlead eq_refl Ht).
        f_equal.
        apply (IHd ltac:(discriminate) [] X' r); try assumption; try reflexivity.
        apply (last_suffix_space (lead ++ [45; 32; 32])). exact Hl.
    + destruct (join_head (py " - ") (c :: q0) rest ltac:(discriminate)) as [tl Ej].
      cbn [hd] in Ej. rewrite Ej in E.
      change (lead ++ 45 :: 32 :: c :: tl) with (lead ++ 45 :: [32] ++ c :: tl) in E.
      rewrite app_cons_assoc in E.
      destruct (app_peel _ X r _ E) as [X' [-> E']].
      { pose proof (edge_length r Hr). cbn [List.length]. lia. }
      assert (Ht : (match X' with [] => true | x :: _ => negb (is_space x) end) = true).
      { destruct X' as [|x X'']; [reflexivity|].
        cbn [app] in E'. injection E' as -> _.
        cbn [hd] in Hqh. rewrite Hqh. reflexivity. }
      rewrite (dash_spacing_step pos prev lead [32] X' Hlead eq_refl Ht).
      f_equal.
      apply (WP X' r); try assumption.
      * apply (last_suffix_space (lead ++ [45; 32])). exact Hl.
      * exact (eq_trans E' (eq_sym Ej)).
Qed.

End DashSpacing.

Section SpacedText.

Lemma clear2_cons Q a b tl :
  clear2 Q (a :: b :: tl) = negb (Q a b) && clear2 Q (b :: tl).
Proof. reflexivity. Qed.

Lemma clear2_app_r Q s : forall t, clear2 Q (s ++ t) = true -> clear2 Q t = true.
Proof.
  induction s as [|a s IH]; intros t H; [exact H|].
  apply IH. apply (clear2_tail Q a). exact H.
Qed.

Lemma clear2_app_l Q s : forall t, clear2 Q (s ++ t) = true -> clear2 Q s = true.
Proof.
  induction s as [|a s IH]; intros t H; [reflexivity|].
  destruct s as [|b s]; [reflexivity|].
  cbn [app] in H. rewrite clear2_cons in H. apply andb_true_iff in H.
  destruct H as [H1 H2]. rewrite clear2_cons, H1. cbn [andb].
  apply (IH t). exact H2.
Qed.

Lemma bare_dash_space b : bare_dash 32 b = false.
Proof. unfold bare_dash. rewrite N.eqb_refl. apply andb_false_r. Qed.

Lemma clear2_space s : clear2 bare_dash (32 :: s) = clear2 bare_dash s.
Proof.
  destruct s as [|c s]; [reflexivity|].
  rewrite clear2_cons, bare_dash_space. reflexivity.
Qed.

(** In a text of pieces joined by [" - "] every dash follows a space. *)
Lemma pieces_no_bare_dash pieces :
  forallb piece pieces = true ->
  clear2 bare_dash (join (py " - ") pieces) = true.
Proof.
  induction pieces as [|p ps IH]; intros H; [reflexivity|].
  cbn [forallb] in H. apply andb_true_iff in H. destruct H as [Hp Hps].
  destruct (piece_facts p Hp) as [Hd _].
  assert (Cp : clear2 bare_dash p = true).
  { apply clear2_second. intros a b Hb. unfold bare_dash.
    apply Hd in Hb. apply N.eqb_neq in Hb. rewrite Hb. reflexivity. }
  destruct ps as [|q ps]; [exact Cp|].
  rewrite join_cons. specialize (IH Hps).
  assert (Cs : clear2 bare_dash (py " - " ++ join (py " - ") (q :: ps)) = true).
  { change (py " - " ++ join (py " - ") (q :: ps))
      with (32 :: 45 :: 32 :: join (py " - ") (q :: ps)).
    rewrite !clear2_cons, clear2_space, bare_dash_space. exact IH. }
  destruct p as [|c p]; [exact Cs|].
  apply clear2_app; [exact Cp | exact Cs | reflexivity].
Qed.

End SpacedText.

Section Occurrences.
Context {U : UnicodeTables}.

Lemma occurs_lead ic k1 k2 s :
  atom_match ic (ALit k2) 45 = false ->
  occurs ic [k1; k2] (45 :: s) = false ->
  occurs ic [k1; k2] (32 :: 45 :: s) = false.
Proof.
  intros Hk H. change (occurs ic [k1; k2] (32 :: 45 :: s))
    with (prefix_match ic [k1; k2] (32 :: 45 :: s) || occurs ic [k1; k2] (45 :: s)).
  rewrite H. cbn [prefix_match]. rewrite Hk. cbn [andb].
  rewrite andb_false_r. reflexivity.
Qed.

Lemma occurs_trail ic k1 k2 s :
  atom_match ic (ALit k2) 32 = false ->
  occurs ic [k1; k2] s = false ->
  occurs ic [k1; k2] (s ++ [32]) = false.
Proof.
  intros Hk. induction s as [|c s IH]; intros H.
  - cbn [app occurs prefix_match]. rewrite andb_false_r. reflexivity.
  - change (occurs ic [k1; k2] (c :: s))
      with (prefix_match ic [k1; k2] (c :: s) || occurs ic [k1; k2] s) in H.
    apply orb_false_iff in H. destruct H as [Hp Ho].
    change (occurs ic [k1; k2] ((c :: s) ++ [32]))
      with (prefix_match ic [k1; k2] (c :: s ++ [32]) || occurs ic [k1; k2] (s ++ [32])).
    rewrite (IH Ho), orb_false_r.
    destruct s as [|d s].
    + cbn [app prefix_match]. rewrite Hk. cbn [andb]. apply andb_false_r.
    + cbn [app prefix_match]. cbn [prefix_match] in Hp. exact Hp.
Qed.

Lemma digit_key_mismatch d c :
  in_range 48 57 d = true -> c <> d -> atom_match true (ALit d) c = false.
Proof.
  intros Hd Hc. unfold atom_match. rewrite (digit_uncased d Hd). cbn [andb].
  apply N.eqb_neq. exact Hc.
Qed.

(** What does not occur in a text does not occur either when the text gets
    a space before its opening dash or after its last character. *)
Lemma occurs_edges ic k1 k2 l y r :
  atom_match ic (ALit k2) 45 = false ->
  atom_match ic (ALit k2) 32 = false ->
  edge l = true -> edge r = true ->
  (l = [32] -> exists y', y = 45 :: y') ->
  occurs ic [k1; k2] y = false ->
  occurs ic [k1; k2] (l ++ y ++ r) = false.
Proof.
  intros H45 H32 Hl Hr Hy H.
  assert (Hyr : occurs ic [k1; k2] (y ++ r) = false).
  { destruct (edge_cases r Hr) as [-> | ->].
    - rewrite app_nil_r. exact H.
    - apply occurs_trail; assumption. }
  destruct (edge_cases l Hl) as [-> | ->]; [exact Hyr|].
  destruct (Hy eq_refl) as [y' ->].
  apply occurs_lead; assumption.
Qed.

End Occurrences.

Section Trim.

Lemma lstrip_by_none p (l s : str) :
  forallb p l = true -> lstrip_by p (l ++ s) = lstrip_by p s.
Proof.
  induction l as [|c l IH]; intros H; [reflexivity|].
  cbn [forallb] in H. apply andb_true_iff in H. destruct H as [Hc Hl].
  cbn [app lstrip_by]. rewrite Hc. apply IH. exact Hl.
Qed.

Lemma edge_spaces e : edge e = true -> forallb is_space e = true.
Proof. intros H. destruct (edge_cases e H) as [-> | ->]; reflexivity. Qed.

(** A trimmed text with a space put before or after it trims back to
    itself. *)
Lemma strip_edges l y r :
  edge l = true -> edge r = true -> strip y = y -> strip (l ++ y ++ r) = y.
Proof.
  intros Hl Hr Hy. unfold strip, strip_by in *.
  rewrite (lstrip_by_none is_space l (y ++ r) (edge_spaces l Hl)).
  destruct y as [|c y'].
  - cbn [app]. rewrite (lstrip_by_all is_space r (edge_spaces r Hr)). reflexivity.
  - assert (Hc : is_space c = false).
    { apply (strip_by_first is_space (c :: y') c y'). exact Hy. }
    cbn [app lstrip_by] in Hy |- *. rewrite Hc in Hy |- *.
    destruct (edge_cases r Hr) as [-> | ->].
    + rewrite app_nil_r. exact Hy.
    + transitivity (rstrip_by is_space (c :: y')); [|exact Hy].
      unfold rstrip_by.
      change (c :: y' ++ [32]) with ((c :: y') ++ [32]).
      rewrite rev_app_distr. reflexivity.
Qed.

Lemma strip_last y : strip y = y -> is_space (last y 0) = false.
Proof.
  intros H. rewrite <- H. unfold strip, strip_by, rstrip_by.
  destruct (lstrip_by_head is_space (rev (lstrip_by is_space y)))
    as [E|[c [tl [E Hc]]]]; rewrite E.
  - reflexivity.
  - cbn [rev]. rewrite last_last. exact Hc.
Qed.

End Trim.

Section Idempotence.
Context {U : UnicodeTables}.

(** Where every dash follows a space, no two dashes are adjacent. *)
Lemma multi_dash_quiet y :
  clear2 bare_dash y = true -> re_sub false re_multi_dash (py "-") y = y.
Proof.
  intros H. apply re_sub_quiet. intros pos prev w rest E.
  unfold re_multi_dash, a_chr. change (chr "-") with 45.
  cbn [rmatch m_pos m_prev m_rest m_caps].
  destruct rest as [|c [|d tl]]; cbn [rep_from may_take atom_match andb pred option_map app].
  - reflexivity.
  - destruct (c =? 45); reflexivity.
  - destruct (c =? 45) eqn:Ec; [|reflexivity].
    apply N.eqb_eq in Ec. subst c y.
    apply clear2_at in H. unfold bare_dash in H. cbn [N.eqb negb andb] in H.
    rewrite andb_true_r in H. rewrite H. cbn [app].
    destruct tl; reflexivity.
Qed.

Lemma occurs2_at k1 k2 s a c d tl :
  occurs false [k1; k2] s = false -> s = a ++ c :: d :: tl ->
  (c =? k1) && (d =? k2) = false.
Proof.
  intros H ->. apply occurs_false_suffix in H.
  cbn [prefix_match atom_match andb] in H. rewrite andb_true_r in H. exact H.
Qed.

(** Without carriage returns and empty lines, every line break is replaced
    by itself. *)
Lemma newlines_fixed y :
  (forall c, In c y -> c <> 13) ->
  occurs false (py "\n\n") y = false ->
  re_sub false re_newlines (py "\n") y = y.
Proof.
  intros Hcr Hnn. change (py "\n\n") with [10; 10] in Hnn. change (py "\n") with [10].
  apply re_sub_charwise; [reflexivity|].
  intros pos prev a c tl E.
  assert (Hc : (c =? 13) = false).
  { apply N.eqb_neq. apply Hcr. rewrite E. apply in_or_app. right. left. reflexivity. }
  unfold re_newlines, plus.
  cbn [rmatch m_pos m_prev m_rest m_caps atom_match andb rep_from may_take pred option_map].
  rewrite Hc. cbn [flat_map app].
  destruct (c =? 10) eqn:E10; [|left; reflexivity].
  right. apply N.eqb_eq in E10. subst c.
  destruct tl as [|d tl];
    cbn [rep_from may_take atom_match andb pred option_map].
  - cbn [app]. eexists. eexists. repeat split.
  - assert (Hd : (d =? 10) = false).
    { pose proof (occurs2_at 10 10 y a 10 d tl Hnn E) as Hw.
      cbn [N.eqb andb] in Hw. exact Hw. }
    rewrite Hd. cbn [app]. eexists. eexists. repeat split.
Qed.

(** Where the token does not occur, the artifact pattern finds nothing. *)
Lemma artifact_quiet (w : string) y :
  occurs true (py w) y = false -> re_sub true (re_artifact w) [] y = y.
Proof.
  intros H. apply re_sub_quiet. intros pos prev a rest E.
  unfold re_artifact, lit. cbn [rmatch].
  apply flat_map_nil. intros st' Hin.
  apply (rmatch_after true (star a_space)) in Hin.
  destruct Hin as [w' [Hw _]]. cbn [m_rest] in Hw.
  rewrite rmatch_lit.
  rewrite (occurs_false_suffix true (py w) (a ++ w') (m_rest st')).
  - reflexivity.
  - rewrite <- app_assoc, <- Hw, <- E. exact H.
Qed.

(** No line of the text starts with a dash, a dot or a middle dot: the
    rule-line pattern finds nothing. *)
Lemma rule_line_quiet y :
  clear2 bare_dash y = true ->
  occurs false (py "\n.") y = false ->
  (forall c, In c y -> c < 128) ->
  re_sub false re_rule_line (py "\n") y = y.
Proof.
  intros Hd Hdot Hasc. change (py "\n.") with [10; 46] in Hdot.
  apply re_sub_quiet. intros pos prev a rest E.
  unfold re_rule_line, plus, i_chr.
  change (chr "-") with 45. change (chr ".") with 46.
  cbn [rmatch m_pos m_prev m_rest m_caps atom_match andb].
  destruct rest as [|c [|d tl]]; [reflexivity| |].
  - destruct (c =? 10); reflexivity.
  - destruct (c =? 10) eqn:Ec; [|reflexivity].
    apply N.eqb_eq in Ec. subst c.
    cbn [flat_map rmatch m_pos m_prev m_rest m_caps rep_from may_take andb
         atom_match existsb item_cased item_match xorb orb].
    assert (H1 : (d =? 45) = false).
    { subst y. apply clear2_at in Hd. unfold bare_dash in Hd.
      cbn [N.eqb negb] in Hd. rewrite andb_true_r in Hd. exact Hd. }
    assert (H2 : (d =? 46) = false).
    { pose proof (occurs2_at 10 46 y a 10 d tl Hdot E) as Hw.
      cbn [N.eqb andb] in Hw. exact Hw. }
    assert (H3 : (d =? 183) = false).
    { apply N.eqb_neq. intros ->.
      assert (Hin : In 183 y).
      { rewrite E. apply in_or_app. right. right. left. reflexivity. }
      apply Hasc in Hin. lia. }
    rewrite H1, H2, H3. reflexivity.
Qed.

(** The dash-spacing substitution gives a text with spaced dashes its
    missing outer spaces back and changes nothing else. *)
Lemma dash_spacing_spaced l y r pieces :
  edge l = true -> edge r = true -> forallb piece pieces = true ->
  l ++ y ++ r = join (py " - ") pieces ->
  strip y = y ->
  re_sub false re_dash_spacing (py " - ") y = join (py " - ") pieces /\
  (l = [32] -> exists y', y = 45 :: y').
Proof.
  intros Hl Hr Hp E Hy.
  destruct (dash_walk pieces Hp) as [WP _].
  pose proof (strip_last y Hy) as Hlast.
  destruct (edge_cases l Hl) as [-> | ->].
  - split; [|discriminate]. unfold re_sub. apply (WP y r); assumption.
  - destruct pieces as [|q rest]; [discriminate|].
    cbn [forallb] in Hp. apply andb_true_iff in Hp. destruct Hp as [Hq Hrest].
    destruct (piece_facts q Hq) as [_ [Hqh _]].
    destruct q as [|c q0].
    + destruct rest as [|q' rest']; [discriminate|].
      rewrite join_cons in E. rewrite join_cons.
      change ([32] ++ y ++ r) with (32 :: (y ++ r)) in E.
      change ([] ++ py " - " ++ join (py " - ") (q' :: rest'))
        with (32 :: ([] ++ 45 :: 32 :: join (py " - ") (q' :: rest'))) in E.
      injection E as E.
      destruct (dash_walk (q' :: rest') Hrest) as [_ WD].
      split.
      * unfold re_sub.
        apply (WD ltac:(discriminate) [] y r 0%nat None eq_refl Hr Hlast E).
      * intros _. destruct y as [|x y'].
        -- exfalso. cbn [app] in E. pose proof (edge_length r Hr) as Hn.
           rewrite E in Hn. cbn [List.length] in Hn. lia.
        -- cbn [app] in E. injection E as -> _. eauto.
    + exfalso. destruct (join_head (py " - ") (c :: q0) rest ltac:(discriminate)) as [tl Ej].
      rewrite Ej in E. cbn [app hd] in E. injection E as <- _.
      cbn [hd] in Hqh. discriminate.
Qed.

(** On a settled, trimmed text of ASCII characters without carriage return,
    comma, underscore and ampersand, the normalizer changes nothing. *)
Lemma clean_text_settled y :
  settled y -> strip y = y ->
  (forall c, In c y -> c < 128 /\ c <> 13 /\ c <> 44 /\ c <> 95 /\ c <> 38) ->
  clean_text y = y.
Proof.
  intros [[l [r [pieces [Hl [Hr [Hp Ez]]]]]] [Hnn [Hdot [H7 [H2 Hb7]]]]] Hy F.
  destruct (dash_spacing_spaced l y r pieces Hl Hr Hp Ez Hy) as [Hs Hlead].
  assert (Hdz : clear2 bare_dash (join (py " - ") pieces) = true)
    by (apply pieces_no_bare_dash; exact Hp).
  remember (join (py " - ") pieces) as z eqn:Dz. clear Dz Hp pieces.
  assert (Habs : forall ch, 128 <= ch -> ~ In ch y).
  { intros ch Hch Hin. apply F in Hin. lia. }
  assert (Fz : forall c, In c z -> c < 128 /\ c <> 13 /\ c <> 44 /\ c <> 95 /\ c <> 38).
  { intros c Hc. rewrite <- Ez in Hc.
    assert (He : forall e, edge e = true -> In c e -> c = 32).
    { intros e He Hin. destruct (edge_cases e He) as [-> | ->];
        [destruct Hin | destruct Hin as [<-|[]]; reflexivity]. }
    apply in_app_or in Hc. destruct Hc as [Hc|Hc].
    - rewrite (He l Hl Hc). repeat split; lia.
    - apply in_app_or in Hc. destruct Hc as [Hc|Hc]; [apply F; exact Hc|].
      rewrite (He r Hr Hc). repeat split; lia. }
  assert (Hdy : clear2 bare_dash y = true).
  { rewrite <- Ez in Hdz. apply clear2_app_r in Hdz. apply clear2_app_l in Hdz. exact Hdz. }
  assert (Oz : forall ic k1 k2,
            atom_match ic (ALit k2) 45 = false -> atom_match ic (ALit k2) 32 = false ->
            occurs ic [k1; k2] y = false -> occurs ic [k1; k2] z = false).
  { intros ic k1 k2 A1 A2 Ho. rewrite <- Ez. apply occurs_edges; assumption. }
  assert (S5 : re_sub false re_newlines (py "\n") z = z).
  { apply newlines_fixed.
    - intros c Hc. apply Fz in Hc. tauto.
    - apply (Oz false 10 10); [reflexivity | reflexivity | exact Hnn]. }
  assert (S6 : re_sub false re_punct [] z = z).
  { apply (re_sub_requires _ false re_punct _ z requires_punct).
    intros c Hc. apply Fz in Hc. apply orb_false_iff. split;
      [|apply orb_false_iff; split]; apply N.eqb_neq; tauto. }
  assert (S7a : re_sub true (re_artifact "c7") [] z = z).
  { apply artifact_quiet. apply (Oz true 99 55); [| |exact H7];
      apply digit_key_mismatch; first [reflexivity | discriminate]. }
  assert (S7b : re_sub true (re_artifact "c2") [] z = z).
  { apply artifact_quiet. apply (Oz true 99 50); [| |exact H2];
      apply digit_key_mismatch; first [reflexivity | discriminate]. }
  assert (S7c : re_sub true (re_artifact "b7") [] z = z).
  { apply artifact_quiet. apply (Oz true 98 55); [| |exact Hb7];
      apply digit_key_mismatch; first [reflexivity | discriminate]. }
  assert (S8 : re_sub false re_non_ascii [] z = z).
  { apply (re_sub_requires _ false re_non_ascii _ z requires_non_ascii).
    intros c Hc. apply Fz in Hc. apply N.leb_gt. lia. }
  assert (S9 : re_sub false re_rule_line (py "\n") z = z).
  { apply (rule_line_quiet z Hdz).
    - apply (Oz false 10 46); [reflexivity | reflexivity | exact Hdot].
    - intros c Hc. apply Fz in Hc. tauto. }
  unfold clean_text.
  rewrite (filter_all encodable y).
  2:{ intros c Hc. apply F in Hc. unfold encodable, in_range.
      apply negb_true_iff. apply andb_false_iff. left. apply N.leb_gt. lia. }
  unfold bullet_chars, dash_chars. cbn [fold_left].
  repeat match goal with
  | |- context [replace ?old ?new y] =>
      rewrite (replace_absent old new (last old 0) y)
        by (first [ apply Habs; simpl; lia | simpl; auto ])
  end.
  rewrite (multi_dash_quiet y Hdy), Hs, S5, S6, S7a, S7b, S7c, S8, S9.
  rewrite <- Ez. apply strip_edges; assumption.
Qed.

(** C3 (amended): a second pass of the normalizer changes nothing when the
    normalized text is settled: every dash of it has one space of its own on
    either side (a dash that opens or closes the text has lost its outer
    space), no line of it is empty or starts with a dot, and none of the
    tokens [c7], [c2], [b7] occurs in it, in any case. *)
Theorem clean_text_idempotent_when_settled x :
  settled (clean_text x) -> clean_text (clean_text x) = clean_text x.
Proof.
  intros H. apply (clean_text_settled (clean_text x) H).
  - unfold clean_text, strip. apply strip_by_idem.
  - apply clean_text_chars.
Qed.

End Idempotence.

(** ** The examples of the specification, and the claims at concrete texts *)

Local Open Scope string_scope.

(** C1: on the example the section is found, but the block pattern also
    splits before the line of dates, which holds [ - ]: the extractor returns
    two entries, and the description line is lost. *)
Theorem work_experience_example_two_entries :
  extract_section work_example (py "WORK EXPERIENCE")
    [py "EDUCATION"; py "SKILLS"; py "CERTIFICATES"]
  = Some (py "Engineer - Acme\nJune 2019 - current | Austin, TX\nBuilt things.") /\
  re_split false re_block_start
    (py "Engineer - Acme\nJune 2019 - current | Austin, TX\nBuilt things.")
  = [py "Engineer - Acme"; py "June 2019 - current | Austin, TX\nBuilt things."] /\
  extract_work_experience work_example None
  = [VDict [("text", VStr (py "Engineer - Acme"))];
     VDict [("text", VStr (py "June 2019 - current | Austin, TX"))]].
Proof. repeat split; vm_compute; reflexivity. Qed.

(** C2 (amended): every field of the record is computed from
    [preprocess_text raw] or from its lines; [clean_text] takes no part. *)
Theorem pipeline_runs_preprocess_text {U : UnicodeTables} (raw : str) :
  let text := preprocess_text raw in
  let lines := segment text in
  let record := extract_structured_fields raw in
  lookup "name" record = Some (of_opt (extract_name lines)) /\
  lookup "email" record = Some (of_opt (extract_email text)) /\
  lookup "phone" record = Some (of_opt (extract_phone text)) /\
  lookup "location" record = Some (of_opt (extract_location lines)) /\
  lookup "skills" record = Some (VStr (extract_skills text)) /\
  lookup "education" record = Some (extract_education text) /\
  lookup "work_experience" record =
    Some (VList (extract_work_experience text (extract_location lines))).
Proof. cbv zeta. repeat split. Qed.

(** A document goes through the same pipeline, on its pages joined by line
    breaks. *)
Lemma extract_info_from_pdf_pipeline {U : UnicodeTables} (page_texts : list str) :
  extract_info_from_pdf page_texts =
  extract_structured_fields (join (py "\n") page_texts).
Proof. reflexivity. Qed.

(** C2, as stated, fails: on ["Austin, TX"] the record differs from what the
    normalizer-first pipeline gives (the normalizer drops the comma). *)
Lemma pipeline_skips_clean_text :
  extract_structured_fields (py "Austin, TX") =
    VDict [("name", VStr (py "Austin, TX")); ("email", VNone); ("phone", VNone);
           ("location", VStr (py "Austin, TX")); ("skills", VStr []);
           ("education", VDict []); ("work_experience", VList [])] /\
  pipeline_as_specified (py "Austin, TX") =
    VDict [("name", VStr (py "Austin TX")); ("email", VNone); ("phone", VNone);
           ("location", VNone); ("skills", VStr []);
           ("education", VDict []); ("work_experience", VList [])].
Proof. split; vm_compute; reflexivity. Qed.

(** C3, as stated, fails: ["cc77"] is normalized to ["c7"], and that to the
    empty string. *)
Lemma clean_text_not_idempotent :
  clean_text (py "cc77") = py "c7" /\
  clean_text (clean_text (py "cc77")) = [].
Proof. split; vm_compute; reflexivity. Qed.

(** Other texts that a second pass changes again: a line break, a dash or a
    digit left behind by one step is what another step acts on. *)
Lemma clean_text_second_pass_changes :
  (clean_text (py "a\n,\na") = py "a\n\na" /\
   clean_text (py "a\n\na") = py "a\na") /\
  (clean_text (py "a\n.\n.b") = py "a\n.b" /\
   clean_text (py "a\n.b") = py "a\nb") /\
  (clean_text (py "-c7-") = py "--" /\
   clean_text (py "--") = py "-").
Proof. repeat split; vm_compute; reflexivity. Qed.

(** The amended C3 at a text with a long dash, a double dash, a comma, an
    empty line, a bullet and a closing dash: the normalized text is settled
    (its closing dash has lost the space after it). *)
Lemma clean_text_idempotent_when_settled_witness :
  clean_text raw_example =
    py "Engineer - Acme\nJune 2019 - current | Austin TX\n Built things -" /\
  clean_text (clean_text raw_example) = clean_text raw_example.
Proof.
  split; [vm_compute; reflexivity|].
  apply (clean_text_idempotent_when_settled raw_example).
  split.
  - exists [], (py " "),
      [py "Engineer"; py "Acme\nJune 2019"; py "current | Austin TX\n Built things"; []].
    repeat split; vm_compute; reflexivity.
  - repeat split; vm_compute; reflexivity.
Defined.

(** The example texts of the specification are settled once normalized, so
    the amended C3 covers them. *)
Lemma specification_examples_settled :
  settled (clean_text (py "Contact: jane.doe@example.com Phone: 555-123-4567")) /\
  settled (clean_text (py "SKILLS\nPython, Go; Rust\u2022SQL\nWORK EXPERIENCE")) /\
  settled (clean_text work_example).
Proof.
  split; [|split]; split.
  - exists [], [], [py "Contact: jane.doe@example.com Phone: 555"; py "123"; py "4567"].
    repeat split; vm_compute; reflexivity.
  - repeat split; vm_compute; reflexivity.
  - exists [], [], [py "SKILLS\nPython Go; RustSQL\nWORK EXPERIENCE"].
    repeat split; vm_compute; reflexivity.
  - repeat split; vm_compute; reflexivity.
  - exists [], [],
      [py "WORK EXPERIENCE\nEngineer"; py "Acme\nJune 2019";
       py "current | Austin TX\nBuilt things.\nEDUCATION"].
    repeat split; vm_compute; reflexivity.
  - repeat split; vm_compute; reflexivity.
Qed.

(** C4, as stated, fails: without keywords [extract_education] returns the
    empty dictionary, which is not [None]. *)
Lemma no_keywords_education_is_empty_dict :
  keyword_free (py "Jane Doe\njane@x.org") = true /\
  extract_education (py "Jane Doe\njane@x.org") = VDict [] /\
  extract_education (py "Jane Doe\njane@x.org") <> VNone.
Proof. repeat split; try (vm_compute; reflexivity). vm_compute. discriminate. Qed.

(** The amended C4 at a text of two lines. *)
Lemma no_keywords_no_sections_witness :
  keyword_free (py "Jane Doe\njane@x.org") = true /\
  extract_skills (py "Jane Doe\njane@x.org") = [] /\
  extract_education (py "Jane Doe\njane@x.org") = VDict [] /\
  extract_work_experience (py "Jane Doe\njane@x.org") None = [].
Proof.
  split; [reflexivity|].
  apply (@no_keywords_no_sections BasicTables (py "Jane Doe\njane@x.org") None).
  reflexivity.
Defined.

(** C5: the skills of the example, split at commas, semicolons, line breaks
    and bullets, trimmed and joined. *)
Theorem skills_example :
  extract_skills (py "SKILLS\nPython, Go; Rust\u2022SQL\nWORK EXPERIENCE")
  = py "Python | Go | Rust | SQL".
Proof. vm_compute. reflexivity. Qed.

(** C6: the address and the number of the example. *)
Theorem email_phone_example :
  extract_email (py "Contact: jane.doe@example.com Phone: 555-123-4567")
  = Some (py "jane.doe@example.com") /\
  extract_phone (py "Contact: jane.doe@example.com Phone: 555-123-4567")
  = Some (py "555-123-4567").
Proof. split; vm_compute; reflexivity. Qed.

(** C7, as stated, fails: on ["SKILLS"] the first definition finds nothing
    and the second an empty section; on ["SKILLSEDUCATION"] the first runs
    over the stop keyword. *)
Lemma extract_section_definitions_differ :
  (extract_section_first (py "SKILLS") (py "SKILLS") skills_stops = None /\
   extract_section (py "SKILLS") (py "SKILLS") skills_stops = Some []) /\
  (extract_section_first (py "SKILLSEDUCATION") (py "SKILLS") skills_stops
     = Some (py "EDUCATION") /\
   extract_section (py "SKILLSEDUCATION") (py "SKILLS") skills_stops = Some []).
Proof. repeat split; vm_compute; reflexivity. Qed.

(** The amended C7 at a text where both definitions find the section. *)
Lemma extract_section_definitions_witness :
  extract_section_first (py "SKILLS\nPython\nEDUCATION") (py "SKILLS") skills_stops
    <> None /\
  extract_section (py "SKILLS\nPython\nEDUCATION") (py "SKILLS") skills_stops <> None.
Proof.
  assert (H : extract_section_first (py "SKILLS\nPython\nEDUCATION") (py "SKILLS")
                skills_stops <> None) by (vm_compute; discriminate).
  split; [exact H|].
  exact (proj2 (proj2 (@extract_section_definitions BasicTables
                         (py "SKILLS\nPython\nEDUCATION") (py "SKILLS") skills_stops)) H).
Defined.

(** C10, as stated, fails: a bare label after a labelled name is not
    looked at. *)
Lemma later_blank_label_is_not_consulted :
  In (py "Name:") [py "Name: Bob"; py "Name:"] /\
  label_line (py "Name:") = true /\
  blank_label (py "Name:") = true /\
  extract_name [py "Name: Bob"; py "Name:"] = Some (py "Bob").
Proof. split; [right; left; reflexivity|]. repeat split; vm_compute; reflexivity. Qed.

(** The amended C10 at three lines. *)
Lemma blank_label_gives_empty_name_witness :
  Forall (fun l => label_line l = false) [py "jane@x.org"] /\
  blank_label (py "NAME  -  ") = true /\
  extract_name [py "jane@x.org"; py "NAME  -  "; py "Jane Doe"] = Some [].
Proof.
  assert (H1 : Forall (fun l => label_line l = false) [py "jane@x.org"])
    by (constructor; [reflexivity | constructor]).
  split; [exact H1|]. split; [reflexivity|].
  exact (@blank_label_gives_empty_name BasicTables [py "jane@x.org"] (py "NAME  -  ")
           [py "Jane Doe"] H1 eq_refl).
Defined.

(** ** The further properties at concrete texts *)

Lemma segment_lines_witness :
  In (py "Jane Doe") (segment (py "  Jane Doe \n\n jane@x.org")) /\
  (py "Jane Doe" <> [] /\ strip (py "Jane Doe") = py "Jane Doe" /\
   ~ In 10 (py "Jane Doe")).
Proof.
  assert (H : In (py "Jane Doe") (segment (py "  Jane Doe \n\n jane@x.org")))
    by (left; reflexivity).
  split; [exact H|]. exact (segment_lines (py "  Jane Doe \n\n jane@x.org") (py "Jane Doe") H).
Defined.

Lemma blank_document_record_witness :
  forallb is_space (py " \n\t \r\n") = true /\
  extract_structured_fields (py " \n\t \r\n") =
  VDict [("name", VNone); ("email", VNone); ("phone", VNone);
         ("location", VNone); ("skills", VStr []);
         ("education", VDict []); ("work_experience", VList [])].
Proof.
  split; [reflexivity|]. exact (blank_document_record (py " \n\t \r\n") eq_refl).
Defined.

Lemma clean_text_output_witness :
  In 74 (clean_text (py "Jane, Doe\r\n\u2022 C_\u00e9")) /\
  (74 < 128 /\ 74 <> 13 /\ 74 <> 44 /\ 74 <> 95 /\ 74 <> 38).
Proof.
  assert (H : In 74 (clean_text (py "Jane, Doe\r\n\u2022 C_\u00e9")))
    by (left; reflexivity).
  split; [exact H|].
  exact (proj2 (clean_text_output (py "Jane, Doe\r\n\u2022 C_\u00e9")) 74 H).
Defined.

Lemma extract_email_shape_witness :
  extract_email (py "Contact: jane.doe@example.com Phone: 555-123-4567")
    = Some (py "jane.doe@example.com") /\
  part_of (py "jane.doe@example.com")
    (py "Contact: jane.doe@example.com Phone: 555-123-4567") /\
  exists local domain,
    py "jane.doe@example.com" = (local ++ 64 :: domain)%list /\ local <> [] /\
    domain <> [] /\
    Forall (fun c => is_word c || (c =? 46)%N || (c =? 45)%N = true) (local ++ domain)%list.
Proof.
  split; [reflexivity|].
  exact (extract_email_shape (py "Contact: jane.doe@example.com Phone: 555-123-4567")
           (py "jane.doe@example.com") eq_refl).
Defined.

Lemma extract_email_needs_at_witness :
  ~ In 64 (py "Jane Doe") /\ extract_email (py "Jane Doe") = None.
Proof.
  assert (H : ~ In 64 (py "Jane Doe")).
  { cbn. intros H. repeat destruct H as [H|H]; try discriminate. exact H. }
  split; [exact H|]. exact (extract_email_needs_at (py "Jane Doe") H).
Defined.

Lemma extract_phone_shape_witness :
  extract_phone (py "Phone: (555) 123-4567.") = Some (py "(555) 123-4567") /\
  part_of (py "(555) 123-4567") (py "Phone: (555) 123-4567.") /\
  (10 <= List.length (py "(555) 123-4567") <= 14)%nat.
Proof.
  assert (H : extract_phone (py "Phone: (555) 123-4567.") = Some (py "(555) 123-4567"))
    by (vm_compute; reflexivity).
  split; [exact H|].
  destruct (extract_phone_shape (py "Phone: (555) 123-4567.") (py "(555) 123-4567") H)
    as [H1 [H2 _]].
  split; [exact H1 | exact H2].
Defined.

Lemma extract_location_line_witness :
  extract_location [py "Jane Doe"; py " Austin, TX "] = Some (py "Austin, TX") /\
  exists line, In line [py "Jane Doe"; py " Austin, TX "] /\
               py "Austin, TX" = strip line /\ In 44 line.
Proof.
  split; [reflexivity|].
  exact (proj1 (extract_location_line [py "Jane Doe"; py " Austin, TX "])
           (py "Austin, TX") eq_refl).
Defined.

Lemma extract_name_trimmed_witness :
  extract_name [py "jane@x.org"; py "  Jane Doe  "] = Some (py "Jane Doe") /\
  strip (py "Jane Doe") = py "Jane Doe".
Proof.
  split; [reflexivity|].
  exact (extract_name_trimmed [py "jane@x.org"; py "  Jane Doe  "] (py "Jane Doe") eq_refl).
Defined.

Lemma extract_name_first_line_witness :
  exists n,
    extract_name [py " Jane Q. Doe "; py "jane@x.org"] = Some n /\
    (Forall (fun l => label_line l = false) [py " Jane Q. Doe "; py "jane@x.org"] ->
     n = strip (py " Jane Q. Doe ")).
Proof.
  apply (extract_name_first_line (py " Jane Q. Doe ") [py "jane@x.org"]).
  - cbn. intros H. repeat destruct H as [H|H]; try discriminate. exact H.
  - reflexivity.
  - reflexivity.
  - intros c H. cbn in H.
    repeat (destruct H as [<-|H]; [reflexivity|]). destruct H.
Defined.

Lemma extract_name_label_value_witness :
  extract_name [py "Curriculum"; py "NAME  :  Jane Doe "; py "Name: Bob"]
  = Some (strip (py "  Jane Doe ")).
Proof.
  apply (extract_name_label_value [py "Curriculum"] (py "NAME") (py "  ") 58
           (py "  Jane Doe ") [py "Name: Bob"]).
  - constructor; [reflexivity | constructor].
  - reflexivity.
  - reflexivity.
  - reflexivity.
  - reflexivity.
Defined.

Lemma extract_section_span_witness :
  literal_keyword (py "SKILLS") = true /\
  forallb literal_keyword skills_stops = true /\
  skills_stops <> [] /\
  extract_section (py "Jane\nSkills\nPython, Go\nEducation\nBSc") (py "SKILLS") skills_stops
    = Some (py "Python, Go") /\
  exists pre kw span post,
    py "Jane\nSkills\nPython, Go\nEducation\nBSc" = (pre ++ kw ++ span ++ post)%list /\
    List.length kw = List.length (py "SKILLS") /\
    prefix_match true (py "SKILLS") (kw ++ span ++ post)%list = true /\
    (forall a b, pre = (a ++ b)%list -> b <> [] ->
       prefix_match true (py "SKILLS") (b ++ kw ++ span ++ post)%list = false) /\
    py "Python, Go" = strip span /\
    (forall s1 s2 e, span = (s1 ++ s2)%list -> s2 <> [] -> In e skills_stops ->
       prefix_match true e (s2 ++ post)%list = false) /\
    ((exists e, In e skills_stops /\ prefix_match true e post = true) \/
     post = [] \/ post = [10]).
Proof.
  assert (H : skills_stops <> []) by discriminate.
  split; [reflexivity|]. split; [reflexivity|].
  split; [exact H|]. split; [reflexivity|].
  exact (extract_section_span (py "Jane\nSkills\nPython, Go\nEducation\nBSc")
           (py "SKILLS") skills_stops (py "Python, Go") eq_refl eq_refl H eq_refl).
Defined.

Lemma extract_section_no_stops_witness :
  literal_keyword (py "skills") = true /\
  extract_section (py "My Skills: Python") (py "skills") [] = Some [].
Proof.
  split; [reflexivity|].
  exact (extract_section_no_stops (py "My Skills: Python") (py "skills") eq_refl).
Defined.

Lemma extract_work_experience_some_witness :
  extract_section (py "WORK EXPERIENCE\nEngineer - Acme\nEDUCATION")
    (py "WORK EXPERIENCE") [py "EDUCATION"; py "SKILLS"; py "CERTIFICATES"]
    = Some (py "Engineer - Acme") /\
  extract_work_experience (py "WORK EXPERIENCE\nEngineer - Acme\nEDUCATION") None <> [].
Proof.
  assert (H : extract_section (py "WORK EXPERIENCE\nEngineer - Acme\nEDUCATION")
                (py "WORK EXPERIENCE") [py "EDUCATION"; py "SKILLS"; py "CERTIFICATES"]
              = Some (py "Engineer - Acme")) by (vm_compute; reflexivity).
  split; [exact H|].
  apply (extract_work_experience_some (py "WORK EXPERIENCE\nEngineer - Acme\nEDUCATION")
           None (py "Engineer - Acme") H).
  discriminate.
Defined.

Lemma preprocess_text_output_witness :
  In 74 (preprocess_text (py " Jane  \n Doe ")) /\ (74 = 10 \/ In 74 (py " Jane  \n Doe ")).
Proof.
  assert (H : In 74 (preprocess_text (py " Jane  \n Doe "))) by (left; reflexivity).
  split; [exact H|].
  exact (proj2 (preprocess_text_output (py " Jane  \n Doe ")) 74 H).
Defined.

Lemma record_work_entries_single_line_witness :
  lookup "work_experience"
    (extract_structured_fields
       (py "Jane Doe\nAustin, TX\nWORK EXPERIENCE\nEngineer - Acme\nEDUCATION\nBSc"))
  = Some (VList [VDict [("text", VStr (py "Engineer - Acme | Austin, TX"))]]) /\
  exists t,
    VDict [("text", VStr (py "Engineer - Acme | Austin, TX"))]
      = VDict [("text", VStr t)] /\ ~ In 10 t.
Proof.
  split; [reflexivity|].
  apply (record_work_entries_single_line
           (py "Jane Doe\nAustin, TX\nWORK EXPERIENCE\nEngineer - Acme\nEDUCATION\nBSc")
           [VDict [("text", VStr (py "Engineer - Acme | Austin, TX"))]]).
  - reflexivity.
  - left. reflexivity.
Defined.
